(** * Source-rewrite scripts: logger-call normaliser and route-params migration

    A shallow embedding of [scripts/fix-logger-calls.py] and
    [scripts/migrate-params.py].  File texts are sequences of characters
    (code points below 256); the regular expressions of the scripts are
    written in a small abstract syntax and run by a backtracking matcher
    with the priorities of Python's [re] module (leftmost match, greedy
    repetition unless marked lazy, alternatives tried left to right). *)

From Stdlib Require Import Ascii String DecimalString.
From Stdlib Require Import ZArith Lia Bool Arith PeanoNat Permutation Sorted List.
Import ListNotations.

(** ** Characters and texts *)

Definition text := list ascii.

Definition py (s : string) : text := list_ascii_of_string s.

Definition dquote : ascii := ascii_of_nat 34.
Definition newline : ascii := ascii_of_nat 10.

Definition code (c : ascii) : nat := nat_of_ascii c.

Definition between (lo hi : nat) (c : ascii) : bool :=
  (lo <=? code c) && (code c <=? hi).

(** Python's [str.isspace] on code points below 256; [str.strip] and the
    pattern [\s] use the same table. *)
Definition is_space (c : ascii) : bool :=
  between 9 13 c || between 28 32 c || (code c =? 133) || (code c =? 160).

Definition is_lower (c : ascii) : bool := between 97 122 c.
Definition is_upper (c : ascii) : bool := between 65 90 c.
Definition is_digit (c : ascii) : bool := between 48 57 c.
Definition is_underscore (c : ascii) : bool := code c =? 95.

(** [[a-zA-Z_]] and [[a-zA-Z0-9_]] *)
Definition ident_start (c : ascii) : bool :=
  is_lower c || is_upper c || is_underscore c.
Definition ident_char (c : ascii) : bool :=
  is_lower c || is_upper c || is_digit c || is_underscore c.

(** The pattern [\w] on a [str]: alphanumeric code points and the
    underscore.  Below 256 the alphanumeric ones outside ASCII are the
    Latin-1 letters, ordinal indicators, superscript digits and vulgar
    fractions. *)
Definition is_word (c : ascii) : bool :=
  ident_char c
  || (code c =? 170) || (code c =? 178) || (code c =? 179) || (code c =? 181)
  || (code c =? 185) || (code c =? 186) || between 188 190 c
  || between 192 214 c || between 216 246 c || between 248 255 c.

Definition ch (a : ascii) (c : ascii) : bool := Ascii.eqb a c.
Definition not_ch (a : ascii) (c : ascii) : bool := negb (Ascii.eqb a c).
Definition any_char (_ : ascii) : bool := true.
(** [.] without DOTALL *)
Definition dot (c : ascii) : bool := not_ch newline c.

Fixpoint text_eqb (a b : text) : bool :=
  match a, b with
  | [], [] => true
  | x :: a', y :: b' => Ascii.eqb x y && text_eqb a' b'
  | _, _ => false
  end.

(** [s.startswith(p)] *)
Fixpoint startswith (p s : text) : bool :=
  match p, s with
  | [], _ => true
  | x :: p', y :: s' => Ascii.eqb x y && startswith p' s'
  | _ :: _, [] => false
  end.

(** [s.endswith(p)] *)
Definition endswith (p s : text) : bool := startswith (rev p) (rev s).

(** [p in s] *)
Fixpoint contains (p s : text) : bool :=
  startswith p s ||
  match s with
  | [] => false
  | _ :: s' => contains p s'
  end.

(** [s.find(c, start)] for a one-character needle: [None] stands for -1. *)
Fixpoint find_from (c : ascii) (s : text) (start : nat) : option nat :=
  match start, s with
  | S n, _ :: s' => option_map S (find_from c s' n)
  | S _, [] => None
  | 0, [] => None
  | 0, x :: s' => if Ascii.eqb x c then Some 0
                  else option_map S (find_from c s' 0)
  end.

Fixpoint lstrip (s : text) : text :=
  match s with
  | c :: s' => if is_space c then lstrip s' else s
  | [] => []
  end.

Definition rstrip (s : text) : text := rev (lstrip (rev s)).

(** [s.strip()] *)
Definition strip (s : text) : text := rstrip (lstrip s).

(** A trimmed text is empty or has a character that is not blank at each
    end. *)
Inductive trimmed : text -> Prop :=
| trimmed_nil : trimmed []
| trimmed_one c : is_space c = false -> trimmed [c]
| trimmed_ends c s d :
    is_space c = false -> is_space d = false -> trimmed (c :: s ++ [d]).

(** [sep.join(parts)] *)
Fixpoint join (sep : text) (parts : list text) : text :=
  match parts with
  | [] => []
  | [p] => p
  | p :: rest => p ++ sep ++ join sep rest
  end.

(** [str(n)] for a natural number *)
Definition str_of_nat (n : nat) : text :=
  py (NilZero.string_of_uint (Nat.to_uint n)).

(** A text given line by line, each line ended by a newline. *)
Fixpoint unlines (ls : list string) : text :=
  match ls with
  | [] => []
  | l :: ls' => py l ++ newline :: unlines ls'
  end.

(** ** Regular expressions *)

(** The constructs the two scripts use.  Repetition is only ever applied
    to a single character class in their patterns, so [Rep] and [RepLazy]
    take the class; [x+] is [Cat (Cls x) (Rep x)]. *)
Inductive regex : Type :=
| Eps
| Cls (p : ascii -> bool)
| Cat (r1 r2 : regex)
| Alt (r1 r2 : regex)
| Opt (r : regex)
| Rep (p : ascii -> bool)
| RepLazy (p : ascii -> bool)
| Grp (n : nat) (r : regex)
| WordB
| Bos
| Eos.

(** Group number, start and end offsets from the start of the match. *)
Definition groups := list (nat * (nat * nat)).

(** A continuation receives the character before the current position,
    the remaining input, the offset reached and the groups set so far. *)
Definition cont := option ascii -> text -> nat -> groups -> option (nat * groups).

Definition orelse {A} (x y : option A) : option A :=
  match x with Some _ => x | None => y end.

Fixpoint rep_greedy (p : ascii -> bool) (k : cont)
    (prev : option ascii) (s : text) (i : nat) (gs : groups)
    : option (nat * groups) :=
  match s with
  | c :: s' =>
      if p c then orelse (rep_greedy p k (Some c) s' (S i) gs) (k prev s i gs)
      else k prev s i gs
  | [] => k prev s i gs
  end.

Fixpoint rep_lazy (p : ascii -> bool) (k : cont)
    (prev : option ascii) (s : text) (i : nat) (gs : groups)
    : option (nat * groups) :=
  match k prev s i gs with
  | Some r => Some r
  | None =>
      match s with
      | c :: s' => if p c then rep_lazy p k (Some c) s' (S i) gs else None
      | [] => None
      end
  end.

Definition word_at (o : option ascii) : bool :=
  match o with Some c => is_word c | None => false end.

Fixpoint run (r : regex) (k : cont)
    (prev : option ascii) (s : text) (i : nat) (gs : groups)
    : option (nat * groups) :=
  match r with
  | Eps => k prev s i gs
  | Cls p =>
      match s with
      | c :: s' => if p c then k (Some c) s' (S i) gs else None
      | [] => None
      end
  | Cat r1 r2 => run r1 (run r2 k) prev s i gs
  | Alt r1 r2 => orelse (run r1 k prev s i gs) (run r2 k prev s i gs)
  | Opt r1 => orelse (run r1 k prev s i gs) (k prev s i gs)
  | Rep p => rep_greedy p k prev s i gs
  | RepLazy p => rep_lazy p k prev s i gs
  | Grp n r1 =>
      run r1 (fun prev' s' i' gs' => k prev' s' i' ((n, (i, i')) :: gs'))
          prev s i gs
  | WordB =>
      if xorb (word_at prev) (word_at (hd_error s)) then k prev s i gs
      else None
  | Bos => match prev with None => k prev s i gs | Some _ => None end
  | Eos =>
      match s with
      | [] => k prev s i gs
      | [c] => if Ascii.eqb c newline then k prev s i gs else None
      | _ => None
      end
  end.

Definition accept : cont := fun _ _ i gs => Some (i, gs).

(** A match anchored at the current position: its length and groups. *)
Definition match_here (r : regex) (prev : option ascii) (s : text)
    : option (nat * groups) :=
  run r accept prev s 0 [].

(** A match object: where the match starts in the searched text, the
    matched text ([group(0)]) and the offsets of its groups. *)
Record match_obj := Match {
  m_start : nat;
  m_text : text;
  m_groups : groups
}.

Fixpoint lookup_group (n : nat) (gs : groups) : option (nat * nat) :=
  match gs with
  | [] => None
  | (g, span) :: gs' => if g =? n then Some span else lookup_group n gs'
  end.

(** [m.group(n)]; a group that took no part in the match reads as the
    empty text, as it does in a replacement template. *)
Definition group (m : match_obj) (n : nat) : text :=
  match n with
  | 0 => m_text m
  | _ =>
      match lookup_group n (m_groups m) with
      | Some (a, b) => firstn (b - a) (skipn a (m_text m))
      | None => []
      end
  end.

(** [m.start(n)] for a group that took part in the match *)
Definition group_start (m : match_obj) (n : nat) : option nat :=
  match lookup_group n (m_groups m) with
  | Some (a, _) => Some (m_start m + a)
  | None => None
  end.

Fixpoint search_from (r : regex) (prev : option ascii) (s : text) (pos : nat)
    : option match_obj :=
  match match_here r prev s with
  | Some (len, gs) => Some (Match pos (firstn len s) gs)
  | None =>
      match s with
      | c :: s' => search_from r (Some c) s' (S pos)
      | [] => None
      end
  end.

(** [re.search(r, s)] *)
Definition re_search (r : regex) (s : text) : option match_obj :=
  search_from r None s 0.

(** [re.match(r, s)] *)
Definition re_match (r : regex) (s : text) : option match_obj :=
  match match_here r None s with
  | Some (len, gs) => Some (Match 0 (firstn len s) gs)
  | None => None
  end.

Definition found (o : option match_obj) : bool :=
  match o with Some _ => true | None => false end.

Definition exhausted (limit : option nat) : bool :=
  match limit with Some 0 => true | _ => false end.

Definition spend (limit : option nat) : option nat :=
  option_map Nat.pred limit.

(** The scan of [re.sub]: [skip] counts the characters of the current
    match still to be passed over, [limit] the replacements still allowed
    ([None] when [count] is not given).  After an empty match the next
    character is copied; no pattern of the scripts matches the empty
    text. *)
Fixpoint sub_from (r : regex) (repl : match_obj -> text) (limit : option nat)
    (skip : nat) (prev : option ascii) (s : text) (pos : nat) : text :=
  match skip with
  | S k =>
      match s with
      | [] => []
      | c :: s' => sub_from r repl limit k (Some c) s' (S pos)
      end
  | 0 =>
      match (if exhausted limit then None else match_here r prev s) with
      | Some (len, gs) =>
          repl (Match pos (firstn len s) gs) ++
          match s with
          | [] => []
          | c :: s' =>
              (if len =? 0 then [c] else []) ++
              sub_from r repl (spend limit) (len - 1) (Some c) s' (S pos)
          end
      | None =>
          match s with
          | [] => []
          | c :: s' => c :: sub_from r repl limit 0 (Some c) s' (S pos)
          end
      end
  end.

(** [re.sub(r, repl, s)] and [re.sub(r, repl, s, count=n)] *)
Definition re_sub (r : regex) (repl : match_obj -> text) (s : text) : text :=
  sub_from r repl None 0 None s 0.

Definition re_sub_count (r : regex) (repl : match_obj -> text) (s : text)
    (count : nat) : text :=
  sub_from r repl (match count with 0 => None | _ => Some count end)
           0 None s 0.

(** The character before the position reached after reading [a]. *)
Definition prev_after (prev : option ascii) (a : text) : option ascii :=
  fold_left (fun _ c => Some c) a prev.

(** The texts a pattern can match, assertions counted as matching the
    empty text: every match of [run] is one of them. *)
Inductive matches : regex -> text -> Prop :=
| matches_eps : matches Eps []
| matches_cls p c : p c = true -> matches (Cls p) [c]
| matches_cat r1 r2 a b :
    matches r1 a -> matches r2 b -> matches (Cat r1 r2) (a ++ b)
| matches_alt_l r1 r2 a : matches r1 a -> matches (Alt r1 r2) a
| matches_alt_r r1 r2 a : matches r2 a -> matches (Alt r1 r2) a
| matches_opt_some r a : matches r a -> matches (Opt r) a
| matches_opt_none r : matches (Opt r) []
| matches_rep p a : forallb p a = true -> matches (Rep p) a
| matches_rep_lazy p a : forallb p a = true -> matches (RepLazy p) a
| matches_grp n r a : matches r a -> matches (Grp n r) a
| matches_word_b : matches WordB []
| matches_bos : matches Bos []
| matches_eos : matches Eos [].

Fixpoint group_free (r : regex) : bool :=
  match r with
  | Cat r1 r2 | Alt r1 r2 => group_free r1 && group_free r2
  | Opt r1 => group_free r1
  | Grp _ _ => false
  | _ => true
  end.

(** Whatever [run] returns came from the continuation, called after a
    prefix of the input that the pattern matches. *)
Definition sound_for (r : regex) : Prop :=
  forall (k : cont) prev s i gs res,
    run r k prev s i gs = Some res ->
    exists a b gs',
      s = a ++ b /\ matches r a
      /\ k (prev_after prev a) b (i + length a) gs' = Some res
      /\ (group_free r = true -> gs' = gs).

(** The longest prefix made of characters of a class, and the rest. *)
Fixpoint span (p : ascii -> bool) (s : text) : text * text :=
  match s with
  | c :: s' =>
      if p c then let (a, b) := span p s' in (c :: a, b) else ([], s)
  | [] => ([], [])
  end.

Definition strip_prefix (p s : text) : option text :=
  if startswith p s then Some (skipn (length p) s) else None.

(** Pattern-building shorthands. *)
Fixpoint lit_text (s : text) : regex :=
  match s with
  | [] => Eps
  | [c] => Cls (ch c)
  | c :: s' => Cat (Cls (ch c)) (lit_text s')
  end.

Definition lit (s : string) : regex := lit_text (py s).

Fixpoint chain (rs : list regex) : regex :=
  match rs with
  | [] => Eps
  | [r] => r
  | r :: rs' => Cat r (chain rs')
  end.

Definition plus (p : ascii -> bool) : regex := Cat (Cls p) (Rep p).
Definition ws : regex := Rep is_space.       (* \s* *)
Definition ws1 : regex := plus is_space.     (* \s+ *)
Definition word1 : regex := plus is_word.    (* \w+ *)
Definition quote_class (c : ascii) : bool := ch dquote c || ch "'"%char c.

(** One text is a prefix of the other. *)
Definition compatible (a b : text) : bool := startswith a b || startswith b a.

(** Whether an occurrence of [m] in a text can share a character with an
    occurrence of [p]: an end of [m] runs into [p], or [m] starts inside
    [p]. *)
Definition overlap (m p : text) : bool :=
  existsb (fun k => compatible (skipn k m) p) (List.seq 1 (length m - 1))
  || existsb (fun i => compatible (skipn i p) m) (List.seq 0 (length p)).

(** ** Files and failures *)

(** The scripts read a whole file and write a whole file.  Both can
    fail; a failure is an exception that travels up to the nearest
    [except] clause.  A file is known to the world by its path; reading
    it gives its text or fails, writing it replaces the text or fails.
    The world also records every write and every failure report, so that
    "no write" can be told from "wrote the same text". *)

Definition path := string.

Inductive io_error : Type :=
| FileNotFound        (* FileNotFoundError *)
| PermissionDenied    (* PermissionError *)
| NotUtf8.            (* UnicodeDecodeError *)

Record file := File {
  readable : io_error + text;
  writable : bool
}.

Inductive event : Type :=
| Wrote (p : path) (content : text)
| ErrorProcessing (p : path) (e : io_error)
| NotFoundNotice (p : path).

Record world := World {
  files : path -> option file;
  events : list event
}.

Definition io (A : Type) : Type := world -> (io_error + A) * world.

Definition ret {A} (a : A) : io A := fun w => (inr a, w).

Definition bind {A B} (c : io A) (k : A -> io B) : io B :=
  fun w =>
    match c w with
    | (inr a, w') => k a w'
    | (inl e, w') => (inl e, w')
    end.

Definition raise {A} (e : io_error) : io A := fun w => (inl e, w).

(** [try: body  except Exception as e: handler(e)] *)
Definition try_except {A} (body : io A) (handler : io_error -> io A) : io A :=
  fun w =>
    match body w with
    | (inr a, w') => (inr a, w')
    | (inl e, w') => handler e w'
    end.

Notation "x <- c ;; k" := (bind c (fun x => k))
  (at level 61, c at next level, right associativity).
Notation "c ;;; k" := (bind c (fun _ => k))
  (at level 61, right associativity).

Definition emit (ev : event) : io unit :=
  fun w => (inr tt, World (files w) (events w ++ [ev])).

(** [open(p, 'r', encoding='utf-8').read()] *)
Definition read_file (p : path) : io text :=
  fun w =>
    match files w p with
    | None => (inl FileNotFound, w)
    | Some f =>
        match readable f with
        | inl e => (inl e, w)
        | inr t => (inr t, w)
        end
    end.

Definition put_file (p : path) (content : text) (fs : path -> option file)
    : path -> option file :=
  fun q => if String.eqb q p then Some (File (inr content) true) else fs q.

(** [open(p, 'w', encoding='utf-8').write(content)] *)
Definition write_file (p : path) (content : text) : io unit :=
  fun w =>
    match files w p with
    | Some (File _ false) => (inl PermissionDenied, w)
    | _ => (inr tt, World (put_file p content (files w))
                          (events w ++ [Wrote p content]))
    end.

(** The world after a successful write. *)
Definition written (p : path) (content : text) (w : world) : world :=
  World (put_file p content (files w)) (events w ++ [Wrote p content]).

(** [Path(p).exists()] *)
Definition path_exists (p : path) : io bool :=
  fun w => (inr (match files w p with Some _ => true | None => false end), w).

(** The world after a failure report. *)
Definition reported (p : path) (e : io_error) (w : world) : world :=
  World (files w) (events w ++ [ErrorProcessing p e]).

(** The paths written, in the order of the writes. *)
Fixpoint writes (evs : list event) : list path :=
  match evs with
  | [] => []
  | Wrote p _ :: evs' => p :: writes evs'
  | _ :: evs' => writes evs'
  end.

(** ** fix-logger-calls.py *)

Module Logger.

(** The local variables of the splitting loop of [fix_logger_call]. *)
Record tokenizer := Tok {
  arg_parts : list text;
  current_arg : text;
  paren_depth : Z;
  brace_depth : Z;
  in_string : bool;
  string_char : option ascii
}.

Definition is_quote (c : ascii) : bool :=
  ch dquote c || ch "'"%char c || ch "`"%char c.

Definition is_string_char (sc : option ascii) (c : ascii) : bool :=
  match sc with Some q => Ascii.eqb c q | None => false end.

(** One turn of [for char in args]: the chain of tests, then
    [current_arg += char] unless the separator branch ran [continue]. *)
Definition tok_char (t : tokenizer) (char : ascii) : tokenizer :=
  let '(Tok parts cur pd bd ins sc) := t in
  if is_quote char && negb ins then
    Tok parts (cur ++ [char]) pd bd true (Some char)
  else if is_string_char sc char && ins then
    Tok parts (cur ++ [char]) pd bd false None
  else if ch "("%char char && negb ins then
    Tok parts (cur ++ [char]) (pd + 1) bd ins sc
  else if ch ")"%char char && negb ins then
    Tok parts (cur ++ [char]) (pd - 1) bd ins sc
  else if ch "{"%char char && negb ins then
    Tok parts (cur ++ [char]) pd (bd + 1) ins sc
  else if ch "}"%char char && negb ins then
    Tok parts (cur ++ [char]) pd (bd - 1) ins sc
  else if ch ","%char char && negb ins && (pd =? 0)%Z && (bd =? 0)%Z then
    Tok (parts ++ [strip cur]) [] pd bd ins sc
  else
    Tok parts (cur ++ [char]) pd bd ins sc.

Definition tok_init : tokenizer := Tok [] [] 0 0 false None.

Definition tok_loop (t : tokenizer) (args : text) : tokenizer :=
  fold_left tok_char args t.

Definition nonempty (s : text) : bool :=
  match s with [] => false | _ => true end.

(** The Tokenizer: the loop, then the guarded append of the fragment in
    flight. *)
Definition split_args (args : text) : list text :=
  let t := tok_loop tok_init args in
  if nonempty (strip (current_arg t))
  then arg_parts t ++ [strip (current_arg t)]
  else arg_parts t.

(** The Tokenizer's own notion of nesting, used to state its properties:
    a position is at top level when the loop is outside any string with
    both depth counters at zero. *)
Definition at_top (t : tokenizer) : bool :=
  negb (in_string t) && (paren_depth t =? 0)%Z && (brace_depth t =? 0)%Z.

Fixpoint top_commas_from (t : tokenizer) (s : text) : nat :=
  match s with
  | [] => 0
  | c :: s' =>
      (if ch ","%char c && at_top t then 1 else 0)
      + top_commas_from (tok_char t c) s'
  end.

(** The number of top-level commas of an argument text. *)
Definition top_commas (s : text) : nat := top_commas_from tok_init s.

Fixpoint balanced_from (t : tokenizer) (s : text) : bool :=
  match s with
  | [] => at_top t
  | c :: s' =>
      let t' := tok_char t c in
      (0 <=? paren_depth t')%Z && (0 <=? brace_depth t')%Z
      && balanced_from t' s'
  end.

(** A well-formed text: every quote, parenthesis and brace is matched,
    none is closed before it is opened. *)
Definition well_formed (s : text) : bool := balanced_from tok_init s.

Fixpoint open_from (t : tokenizer) (s : text) : bool :=
  match s with
  | [] => true
  | c :: s' =>
      let t' := tok_char t c in
      (0 <=? paren_depth t')%Z && (0 <=? brace_depth t')%Z
      && open_from t' s'
  end.

(** The fragment in flight when the loop ends: the text after the last
    top-level comma. *)
Definition in_flight (args : text) : text :=
  current_arg (tok_loop tok_init args).

Fixpoint braces_open_from (t : tokenizer) (s : text) : bool :=
  match s with
  | [] => true
  | c :: s' =>
      let t' := tok_char t c in
      (0 <=? brace_depth t')%Z && braces_open_from t' s'
  end.

(** The brace depth is at least one before every character. *)
Fixpoint inside_from (t : tokenizer) (s : text) : bool :=
  match s with
  | [] => true
  | c :: s' => (1 <=? brace_depth t)%Z && inside_from (tok_char t c) s'
  end.

(** The nesting of [t] is that of [u], one brace deeper. *)
Definition deeper (t u : tokenizer) : Prop :=
  paren_depth t = paren_depth u
  /\ brace_depth t = (brace_depth u + 1)%Z
  /\ in_string t = in_string u
  /\ string_char t = string_char u.

(** No closing brace outside a string comes before its opening brace. *)
Definition no_stray_brace (s : text) : bool := braces_open_from tok_init s.

(** What the tests of the loop look at. *)
Definition nesting (t : tokenizer) : Z * Z * bool * option ascii :=
  (paren_depth t, brace_depth t, in_string t, string_char t).

(** The loop keeps [string_char] in step with [in_string]. *)
Definition quote_ok (t : tokenizer) : Prop :=
  (in_string t = false -> string_char t = None)
  /\ (forall q, string_char t = Some q -> is_quote q = true).

(** Two loop states that differ only by fragments already emitted. *)
Definition ahead (P : list text) (t u : tokenizer) : Prop :=
  arg_parts t = P ++ arg_parts u
  /\ current_arg t = current_arg u
  /\ nesting t = nesting u.

(** A character that no test but the separator test looks for. *)
Definition plain (c : ascii) : bool :=
  negb (is_quote c || ch "("%char c || ch ")"%char c
        || ch "{"%char c || ch "}"%char c).

(** The quotes, parentheses and braces of a text. *)
Definition skeleton (s : text) : text :=
  filter (fun c => negb (plain c)) s.

(** A piece of an argument text between two top-level commas: it holds
    no top-level comma and the loop is back at top level after it. *)
Definition piece (r : text) : Prop :=
  top_commas r = 0 /\ at_top (tok_loop tok_init r) = true.

(** The quotes and parentheses of a text. *)
Definition delimiters (s : text) : text :=
  filter (fun c => is_quote c || ch "("%char c || ch ")"%char c) s.

(** *** The contract of the Tokenizer, without the Tokenizer

    What the specification calls a string, a depth and a top-level
    comma, said of the text alone: none of the definitions below uses
    the loop. *)

(** A string literal runs from a quote character to the next occurrence
    of the same character; a backslash escapes nothing. *)
Definition quote_step (q : option ascii) (c : ascii) : option ascii :=
  match q with
  | None => if is_quote c then Some c else None
  | Some q' => if Ascii.eqb c q' then None else Some q'
  end.

(** The quote of the literal that is open after [pre], if one is. *)
Definition open_quote (pre : text) : option ascii :=
  fold_left quote_step pre None.

(** The characters of [s] that stand outside every string literal and
    are no quotes, [pre] being the text in front of [s]. *)
Fixpoint outside_from (pre s : text) : text :=
  match s with
  | [] => []
  | c :: s' =>
      match open_quote pre with
      | None =>
          if is_quote c then outside_from (pre ++ [c]) s'
          else c :: outside_from (pre ++ [c]) s'
      | Some _ => outside_from (pre ++ [c]) s'
      end
  end.

Definition outside_strings (s : text) : text := outside_from [] s.

Definition occurrences (c : ascii) (s : text) : Z :=
  Z.of_nat (length (filter (ch c) s)).

(** The brackets opened and not yet closed after [pre], strings left
    out. *)
Definition depth (opening closing : ascii) (pre : text) : Z :=
  (occurrences opening (outside_strings pre)
   - occurrences closing (outside_strings pre))%Z.

(** The position after [pre] is outside any string and at zero paren
    and brace depth. *)
Definition top_level (pre : text) : bool :=
  match open_quote pre with
  | None =>
      (depth "("%char ")"%char pre =? 0)%Z
      && (depth "{"%char "}"%char pre =? 0)%Z
  | Some _ => false
  end.

Fixpoint top_level_commas_from (pre s : text) : nat :=
  match s with
  | [] => 0
  | c :: s' =>
      (if ch ","%char c && top_level pre then 1 else 0)
      + top_level_commas_from (pre ++ [c]) s'
  end.

(** The number of top-level commas of a text. *)
Definition top_level_commas (s : text) : nat := top_level_commas_from [] s.

Fixpoint last_piece_from (pre cur s : text) : text :=
  match s with
  | [] => cur
  | c :: s' =>
      if ch ","%char c && top_level pre
      then last_piece_from (pre ++ [c]) [] s'
      else last_piece_from (pre ++ [c]) (cur ++ [c]) s'
  end.

(** The text after the last top-level comma. *)
Definition last_piece (s : text) : text := last_piece_from [] [] s.

Fixpoint balanced_after (pre s : text) : bool :=
  match s with
  | [] => top_level pre
  | c :: s' =>
      (0 <=? depth "("%char ")"%char (pre ++ [c]))%Z
      && (0 <=? depth "{"%char "}"%char (pre ++ [c]))%Z
      && balanced_after (pre ++ [c]) s'
  end.

(** Balanced quotes, parens and braces: no paren or brace is closed
    before it is opened, and at the end no string, paren or brace is
    open. *)
Definition balanced (s : text) : bool := balanced_after [] s.

(** [^[a-zA-Z_][a-zA-Z0-9_]*$] *)
Definition identifier_re : regex :=
  chain [Bos; Cls ident_start; Rep ident_char; Eos].

(** The loop [for i, arg in enumerate(rest_args)]. *)
Fixpoint metadata_loop (i : nat) (rest_args : list text)
    (metadata_entries : list text) : list text :=
  match rest_args with
  | [] => metadata_entries
  | arg :: rest =>
      let arg := strip arg in
      if found (re_match identifier_re arg)
      then metadata_loop (S i) rest (metadata_entries ++ [arg])
      else metadata_loop (S i) rest
             (metadata_entries ++
              [py "arg" ++ str_of_nat (i + 1) ++ py ": " ++ arg])
  end.

(** The part of [fix_logger_call] after the split: [whole] is
    [match.group(0)]. *)
Definition rewrite_call (level whole : text) (arg_parts : list text) : text :=
  if length arg_parts <=? 1 then whole
  else if (length arg_parts =? 2)
          && (let second_arg := strip (nth 1 arg_parts []) in
              startswith (py "{") second_arg && endswith (py "}") second_arg)
  then whole
  else
    let message := nth 0 arg_parts [] in
    let rest_args := skipn 1 arg_parts in
    let metadata_entries := metadata_loop 0 rest_args [] in
    let metadata_obj := py "{ " ++ join (py ", ") metadata_entries ++ py " }" in
    py "log." ++ level ++ py "(" ++ message ++ py ", " ++ metadata_obj ++ py ")".

Definition fix_logger_call (m : match_obj) : text :=
  let level := group m 1 in
  let args := group m 2 in
  rewrite_call level (group m 0) (split_args args).

(** The pattern of [fix_file], written here with blanks between its
    parts: [log\. (error|warn|info|debug) \( ( [^)]+ (?: \( [^)]* \) )? [^)]* ) \)] *)
Definition pattern : regex :=
  chain [lit "log.";
       Grp 1 (Alt (lit "error") (Alt (lit "warn") (Alt (lit "info") (lit "debug"))));
       lit "(";
       Grp 2 (chain [plus (not_ch ")"%char);
                   Opt (chain [lit "("; Rep (not_ch ")"%char); lit ")"]);
                   Rep (not_ch ")"%char)]);
       lit ")"].

(** The text transformation of [fix_file]. *)
Definition fix_content (content : text) : text :=
  re_sub pattern fix_logger_call content.

(** What the loop keeps true of its state on a well-formed text: every
    fragment emitted is balanced, and the fragment in flight explains the
    nesting reached. *)
Definition tidy (t : tokenizer) : Prop :=
  quote_ok t
  /\ Forall (fun f => well_formed f = true) (arg_parts t)
  /\ nesting (tok_loop tok_init (current_arg t)) = nesting t
  /\ open_from tok_init (current_arg t) = true.

(** The identifier grammar in words: a letter or underscore, then
    letters, digits and underscores. *)
Definition is_identifier (s : text) : bool :=
  match s with
  | c :: s' => ident_start c && forallb ident_char s'
  | [] => false
  end.

(** The property synthesised for the element at 1-based position [n]. *)
Definition property (n : nat) (arg : text) : text :=
  if is_identifier arg then arg
  else py "arg" ++ str_of_nat n ++ py ": " ++ arg.

Definition object_literal (arg : text) : bool :=
  startswith (py "{") arg && endswith (py "}") arg.

(** The pattern of [fix_file] read as a scanner: [log.], a level and an
    opening parenthesis, then the longest run of characters other than a
    closing parenthesis, which must not be empty and must be followed by
    one.  It returns the level, the argument text and what follows the
    call. *)
Definition levels : list string := ["error"; "warn"; "info"; "debug"]%string.

Fixpoint first_level (ls : list string) (s : text) : option (text * text) :=
  match ls with
  | [] => None
  | l :: ls' =>
      match strip_prefix (py l ++ py "(") s with
      | Some rest => Some (py l, rest)
      | None => first_level ls' s
      end
  end.

Definition call_at (s : text) : option (text * text * text) :=
  match strip_prefix (py "log.") s with
  | None => None
  | Some s1 =>
      match first_level levels s1 with
      | None => None
      | Some (level, s2) =>
          match span (not_ch ")"%char) s2 with
          | ((_ :: _) as args, _ :: rest) => Some (level, args, rest)
          | _ => None
          end
      end
  end.

Definition call_text (level args : text) : text :=
  py "log." ++ level ++ py "(" ++ args ++ py ")".

(** The groups of a match of the pattern. *)
Definition call_groups (level args : text) : groups :=
  [(2, (5 + length level, 5 + length level + length args));
   (1, (4, 4 + length level))].

(** Every text the pattern matches, at whatever position of the content,
    has argument text without a stray closing brace. *)
Fixpoint calls_braced (content : text) : bool :=
  match call_at content with
  | Some (_, args, _) => no_stray_brace args
  | None => true
  end
  && match content with
     | [] => true
     | _ :: rest => calls_braced rest
     end.

(** [fix_file]: progress messages apart, only the failure report is
    kept of what it prints. *)
Definition fix_file (file_path : path) : io bool :=
  try_except
    (content <- read_file file_path ;;
     let original_content := content in
     let content := fix_content content in
     if negb (text_eqb content original_content) then
       write_file file_path content ;;;
       ret true
     else ret false)
    (fun e => emit (ErrorProcessing file_path e) ;;; ret false).

(** The loop of [main] over the files to fix; it returns [fixed_count]. *)
Fixpoint fix_all (files : list path) (fixed_count : nat) : io nat :=
  match files with
  | [] => ret fixed_count
  | file_path :: rest =>
      present <- path_exists file_path ;;
      if negb present then fix_all rest fixed_count
      else
        fixed <- fix_file file_path ;;
        if fixed then fix_all rest (fixed_count + 1)
        else fix_all rest fixed_count
  end.

(** [s.split(c)] for a separator of one character. *)
Fixpoint split_on (c : ascii) (s : text) : list text :=
  match s with
  | [] => [[]]
  | x :: s' =>
      if Ascii.eqb x c then [] :: split_on c s'
      else match split_on c s' with
           | h :: t => (x :: h) :: t
           | [] => [[x]]
           end
  end.

(** [a < b] on strings: the order of the code points, a proper prefix
    first. *)
Fixpoint text_ltb (a b : text) : bool :=
  match a, b with
  | _, [] => false
  | [], _ :: _ => true
  | x :: a', y :: b' =>
      (nat_of_ascii x <? nat_of_ascii y)
      || (Ascii.eqb x y && text_ltb a' b')
  end.

(** [files.add(x)] on a set kept in the order [sorted] gives it. *)
Fixpoint set_add (x : text) (l : list text) : list text :=
  match l with
  | [] => [x]
  | y :: l' =>
      if text_ltb x y then x :: l
      else if text_eqb x y then l
      else y :: set_add x l'
  end.

(** [error_lines] of [main]: the lines of the compiler's error output
    that start with [src/]. *)
Definition error_lines (stderr : text) : list text :=
  filter (startswith (py "src/")) (split_on newline stderr).

(** One turn of [for line in error_lines]. *)
Definition add_line (files : list text) (line : text) : list text :=
  if contains (py "(") line
  then let file_path := hd [] (split_on "("%char line) in
       set_add file_path files
  else files.

(** [sorted(files)] for the set [files] that the first loop of [main]
    fills: of each error line with an opening parenthesis, the text in
    front of the first one. *)
Definition error_files (stderr : text) : list text :=
  fold_left add_line (error_lines stderr) [].

Definition path_of (t : text) : path := string_of_list_ascii t.

Definition remaining_log : path := "/tmp/remaining-logger-errors.log"%string.

Section Main.

(** One run of [npx tsc --noEmit]: the error output it captures, or the
    exception [subprocess.run] raises. *)
Variable tsc : io text.

(** [main], without its progress messages; it returns the exit status. *)
Definition main : io Z :=
  try_except
    (stderr <- tsc ;;
     let files := error_files stderr in
     match files with
     | [] => ret 0%Z
     | _ :: _ =>
         fixed_count <- fix_all (map path_of files) 0 ;;
         stderr <- tsc ;;
         let remaining_errors := length (error_lines stderr) in
         if remaining_errors =? 0 then ret 0%Z
         else
           write_file remaining_log stderr ;;;
           ret 1%Z
     end)
    (fun e => ret 1%Z).

End Main.

End Logger.

(** ** migrate-params.py *)

Module Params.

Definition detect_param_name (content : text) : text :=
  if contains (py "[trackingNumber]") content
     || contains (py "trackingNumber") content
  then py "trackingNumber"
  else py "id".

Definition already_migrated (content : text) : bool :=
  contains (py "use(params)") content
  || contains (py "const resolvedParams = use(params)") content.

(** [params:\s*\{] *)
Definition params_type_re : regex :=
  chain [lit "params:"; ws; lit "{"].

(** [}\s*{\s*params\s*}:] *)
Definition braces_params_re : regex :=
  chain [lit "}"; ws; lit "{"; ws; lit "params"; ws; lit "}:"].

(** [function.*\{\s*params\s*}:] *)
Definition function_params_re : regex :=
  chain [lit "function"; Rep dot; lit "{"; ws; lit "params"; ws; lit "}:"].

Definition uses_params_prop (content : text) : bool :=
  found (re_search params_type_re content)
  || found (re_search braces_params_re content)
  || found (re_search function_params_re content).

(** [}\s*from\s*[QUOTE]react[QUOTE]], where [QUOTE] is either quote
    character *)
Definition from_react : list regex :=
  [lit "}"; ws; lit "from"; ws; Cls quote_class; lit "react"; Cls quote_class].

(** [import\s*\{[^}]*\buse\b[^}]*] followed by [from_react] *)
Definition use_imported_re : regex :=
  chain ([lit "import"; ws; lit "{"; Rep (not_ch "}"%char);
        WordB; lit "use"; WordB; Rep (not_ch "}"%char)] ++ from_react).

(** [(import\s*\{)] then the group [[^}]*] then the group [from_react] *)
Definition react_import_re : regex :=
  chain [Grp 1 (chain [lit "import"; ws; lit "{"]);
       Grp 2 (Rep (not_ch "}"%char));
       Grp 3 (chain from_react)].

(** The template [\1 use, \2\3] *)
Definition add_use (m : match_obj) : text :=
  group m 1 ++ py " use, " ++ group m 2 ++ group m 3.

(** Step 1: add [use] to the React import if not present. *)
Definition add_use_import (content : text) : text :=
  if contains (py "from " ++ dquote :: py "react" ++ [dquote]) content
     || contains (py "from 'react'") content
  then
    if negb (found (re_search use_imported_re content))
    then re_sub_count react_import_re add_use content 1
    else content
  else content.

(** [export\s+default\s+function\s+\w+] *)
Definition export_default_function : list regex :=
  [lit "export"; ws1; lit "default"; ws1; lit "function"; ws1; word1].

(** [params:\s*\{\s*NAME:\s*string\s*\}] *)
Definition params_annotation_re (param_name : text) : regex :=
  chain [lit "params:"; ws; lit "{"; ws; lit_text param_name; lit ":"; ws;
       lit "string"; ws; lit "}"].

(** [(export\s+default\s+function\s+\w+\s*\([^)]*params[^)]*\)\s*\{)] *)
Definition component_with_params_re : regex :=
  Grp 1 (chain (export_default_function ++
              [ws; lit "("; Rep (not_ch ")"%char); lit "params";
               Rep (not_ch ")"%char); lit ")"; ws; lit "{"])).

(** [\bparams\.NAME\b] *)
Definition params_access_re (param_name : text) : regex :=
  chain [WordB; lit "params."; lit_text param_name; WordB].

(** [m.end()] *)
Definition match_end (m : match_obj) : nat := m_start m + length (m_text m).

Definition unwrap_statement (param_name : text) : text :=
  py "  " ++ py "const { " ++ param_name ++ py " } = use(params);"
  ++ [newline].

(** The insertion of the unwrap statement after the first newline that
    follows the opening brace of the component function. *)
Definition insert_unwrap (param_name : text) (func_match : match_obj)
    (content : text) : text :=
  let func_end := match_end func_match in
  match find_from newline content func_end with
  | Some next_newline =>
      firstn (next_newline + 1) content ++ unwrap_statement param_name
      ++ skipn (next_newline + 1) content
  | None => content
  end.

(** Step 2: the params prop pattern. *)
Definition migrate_params_prop (param_name content : text) : text :=
  let content :=
    re_sub (params_annotation_re param_name)
           (fun _ => py "params: Promise<{ " ++ param_name ++ py ": string }>")
           content in
  match re_search component_with_params_re content with
  | Some func_match =>
      let content := insert_unwrap param_name func_match content in
      re_sub (params_access_re param_name) (fun _ => param_name) content
  | None => content
  end.

(** [const\s+VAR\s*=\s*params\.FIELD\s+as\s+string;\s*\n]; [access] is
    the text between [params] and the field, a dot or a question mark and
    a dot *)
Definition extraction_re (var access field : text) : regex :=
  chain [lit "const"; ws1; lit_text var; ws; lit "="; ws; lit "params";
       lit_text access; lit_text field; ws1; lit "as"; ws1; lit "string;";
       ws; Cls (ch newline)].

Definition old_id_names : list string :=
  ["taskId"; "orderId"; "paymentId"; "invoiceId"; "shipmentId";
   "inspectionId"; "jobId"; "documentId"]%string.

Definition old_id_patterns (param_name : text) : list regex :=
  extraction_re param_name (py ".") param_name
  :: extraction_re param_name (py "?.") param_name
  :: map (fun v => extraction_re (py v) (py ".") (py "id")) old_id_names.

Definition erase (_ : match_obj) : text := [].

(** [(export\s+const\s+dynamic\s*=.*?;\s*\n+)?(export\s+default\s+function\s+\w+)]
    under DOTALL *)
Definition component_re : regex :=
  chain [Opt (Grp 1 (chain [lit "export"; ws1; lit "const"; ws1; lit "dynamic";
                        ws; lit "="; RepLazy any_char; lit ";"; ws;
                        plus (ch newline)]));
       Grp 2 (chain export_default_function)].

Definition interface_code (param_name : text) : text :=
  py "interface PageProps {" ++ [newline]
  ++ py "  params: Promise<{ " ++ param_name ++ py ": string }>;" ++ [newline]
  ++ py "}" ++ [newline] ++ [newline].

(** [(export\s+default\s+function\s+\w+)\(\)] *)
Definition empty_signature_re : regex :=
  chain [Grp 1 (chain export_default_function); lit "()"].

(** [(export\s+default\s+function\s+\w+\([^)]*\)\s*\{)] *)
Definition component_open_re : regex :=
  Grp 1 (chain (export_default_function ++
              [lit "("; Rep (not_ch ")"%char); lit ")"; ws; lit "{"])).

(** [id_replacements], in the order of the dictionary *)
Definition id_replacements : list (string * string) :=
  map (fun v => (v, "id"%string)) old_id_names.

(** [\bNAME\b] *)
Definition whole_word_re (name : text) : regex :=
  chain [WordB; lit_text name; WordB].

(** Step 3: the [useParams()] hook pattern. *)
Definition migrate_hook (param_name content : text) : text :=
  (* ,?\s*useParams\s*   and   useParams\s*,?\s* *)
  let content :=
    re_sub (chain [Opt (lit ","); ws; lit "useParams"; ws]) erase content in
  let content :=
    re_sub (chain [lit "useParams"; ws; Opt (lit ","); ws]) erase content in
  (* const\s+params\s*=\s*useParams\(\);\s*\n *)
  let content :=
    re_sub (chain [lit "const"; ws1; lit "params"; ws; lit "="; ws;
                 lit "useParams();"; ws; Cls (ch newline)]) erase content in
  let content :=
    fold_left (fun content pattern => re_sub pattern erase content)
              (old_id_patterns param_name) content in
  let content :=
    match re_search component_re content with
    | Some func_match =>
        let insert_pos :=
          match group_start func_match 2 with Some p => p | None => 0 end in
        let content :=
          firstn insert_pos content ++ interface_code param_name
          ++ skipn insert_pos content in
        let content :=
          re_sub_count empty_signature_re
            (fun m => group m 1 ++ py "({ params }: PageProps)") content 1 in
        match re_search component_open_re content with
        | Some func_match => insert_unwrap param_name func_match content
        | None => content
        end
    | None => content
    end in
  fold_left (fun content '(old_var, new_var) =>
               re_sub (whole_word_re (py old_var)) (fun _ => py new_var) content)
            id_replacements content.

(** What [migrate_file] computes between reading and writing: [None]
    where it returns [False] at once (already migrated, unknown pattern),
    otherwise the content it compares with the original. *)
Definition migrate_content (original_content : text) : option text :=
  if already_migrated original_content then None
  else
    let content := original_content in
    let param_name := detect_param_name content in
    let content := add_use_import content in
    if uses_params_prop content then
      Some (migrate_params_prop param_name content)
    else if contains (py "useParams()") content then
      Some (migrate_hook param_name content)
    else None.

(** The text [migrate_file] leaves in a file whose text was
    [original_content], when reading and writing succeed. *)
Definition migrate_text (original_content : text) : text :=
  match migrate_content original_content with
  | Some content => content
  | None => original_content
  end.

Inductive FileVariant : Type :=
| AlreadyMigrated
| ParamsPropPattern
| HookPattern
| Unrecognized.

(** The branch [migrate_file] takes; the tests for the prop and hook
    patterns see the content after Step 1. *)
Definition classify (original_content : text) : FileVariant :=
  if already_migrated original_content then AlreadyMigrated
  else
    let content := add_use_import original_content in
    if uses_params_prop content then ParamsPropPattern
    else if contains (py "useParams()") content then HookPattern
    else Unrecognized.

(** The rules of the classifier, each with the negation of those before
    it. *)
Definition selected (original_content : text) (v : FileVariant) : Prop :=
  let migrated := contains (py "use(params)") original_content in
  let content := add_use_import original_content in
  match v with
  | AlreadyMigrated => migrated = true
  | ParamsPropPattern => migrated = false /\ uses_params_prop content = true
  | HookPattern =>
      migrated = false /\ uses_params_prop content = false
      /\ contains (py "useParams()") content = true
  | Unrecognized =>
      migrated = false /\ uses_params_prop content = false
      /\ contains (py "useParams()") content = false
  end.

(** A page that reads its route parameter through the hook. *)
Definition hook_page : text :=
  unlines ["'use client';";
           "import { useParams } from 'next/navigation';";
           "";
           "export default function TaskPage() {";
           "  const params = useParams();";
           "  const taskId = params.id as string;";
           "  return <div>{taskId}</div>;";
           "}"]%string.

(** What the migration makes of [hook_page]. *)
Definition hook_page_migrated : text :=
  unlines ["'use client';";
           "import {} from 'next/navigation';";
           "";
           "interface PageProps {";
           "  params: Promise<{ id: string }>;";
           "}";
           "";
           "export default function TaskPage({ params }: PageProps) {";
           "  const { id } = use(params);";
           "  const params =();";
           "    return <div>{id}</div>;";
           "}"]%string.

(** The same page with a React import in front. *)
Definition hook_page_react (react_import : string) : text :=
  unlines ["'use client';";
           react_import;
           "import { useParams } from 'next/navigation';";
           "";
           "export default function TaskPage() {";
           "  const params = useParams();";
           "  const taskId = params.id as string;";
           "  return <div>{taskId}</div>;";
           "}"]%string.

(** A page that takes its route parameter as a prop. *)
Definition prop_page : text :=
  unlines ["interface PageProps { params: { id: string } }";
           "export default function Page({ params }: PageProps) {";
           "  return params.id; }"]%string.

(** [migrate_file], without its progress messages: there is no [try] in
    it, a failure of [open], [read] or [write] leaves the function as an
    exception. *)
Definition migrate_file (file_path : path) : io bool :=
  original_content <- read_file file_path ;;
  match migrate_content original_content with
  | None => ret false
  | Some content =>
      if negb (text_eqb content original_content) then
        write_file file_path content ;;;
        ret true
      else ret false
  end.

(** The loop of [main]: it returns [modified_files] and [skipped_files]. *)
Fixpoint migrate_all (files : list path)
    (modified_files skipped_files : list path) : io (list path * list path) :=
  match files with
  | [] => ret (modified_files, skipped_files)
  | file_path :: rest =>
      present <- path_exists file_path ;;
      if present then
        migrated <- migrate_file file_path ;;
        if migrated
        then migrate_all rest (modified_files ++ [file_path]) skipped_files
        else migrate_all rest modified_files (skipped_files ++ [file_path])
      else
        emit (NotFoundNotice file_path) ;;;
        migrate_all rest modified_files (skipped_files ++ [file_path])
  end.

(** [files] of [main] *)
Definition files_to_migrate : list path :=
  ["/Users/eko3/limn-systems-enterprise/src/app/crm/contacts/[id]/page.tsx";
   "/Users/eko3/limn-systems-enterprise/src/app/crm/customers/[id]/page.tsx";
   "/Users/eko3/limn-systems-enterprise/src/app/crm/leads/[id]/page.tsx";
   "/Users/eko3/limn-systems-enterprise/src/app/crm/projects/[id]/page.tsx";
   "/Users/eko3/limn-systems-enterprise/src/app/crm/prospects/[id]/page.tsx";
   "/Users/eko3/limn-systems-enterprise/src/app/design/boards/[id]/page.tsx";
   "/Users/eko3/limn-systems-enterprise/src/app/design/briefs/[id]/page.tsx";
   "/Users/eko3/limn-systems-enterprise/src/app/design/projects/[id]/page.tsx";
   "/Users/eko3/limn-systems-enterprise/src/app/documents/[id]/page.tsx";
   "/Users/eko3/limn-systems-enterprise/src/app/financials/invoices/[id]/page.tsx";
   "/Users/eko3/limn-systems-enterprise/src/app/financials/payments/[id]/page.tsx";
   "/Users/eko3/limn-systems-enterprise/src/app/partners/designers/[id]/page.tsx";
   "/Users/eko3/limn-systems-enterprise/src/app/partners/factories/[id]/page.tsx";
   "/Users/eko3/limn-systems-enterprise/src/app/portal/designer/projects/[id]/page.tsx";
   "/Users/eko3/limn-systems-enterprise/src/app/portal/factory/orders/[id]/page.tsx";
   "/Users/eko3/limn-systems-enterprise/src/app/portal/orders/[id]/page.tsx";
   "/Users/eko3/limn-systems-enterprise/src/app/production/factory-reviews/[id]/page.tsx";
   "/Users/eko3/limn-systems-enterprise/src/app/production/orders/[id]/page.tsx";
   "/Users/eko3/limn-systems-enterprise/src/app/production/packing/[id]/page.tsx";
   "/Users/eko3/limn-systems-enterprise/src/app/production/prototypes/[id]/page.tsx";
   "/Users/eko3/limn-systems-enterprise/src/app/production/qc/[id]/page.tsx";
   "/Users/eko3/limn-systems-enterprise/src/app/production/shop-drawings/[id]/page.tsx";
   "/Users/eko3/limn-systems-enterprise/src/app/products/catalog/[id]/page.tsx";
   "/Users/eko3/limn-systems-enterprise/src/app/products/collections/[id]/page.tsx";
   "/Users/eko3/limn-systems-enterprise/src/app/products/concepts/[id]/page.tsx";
   "/Users/eko3/limn-systems-enterprise/src/app/products/prototypes/[id]/page.tsx";
   "/Users/eko3/limn-systems-enterprise/src/app/shipping/shipments/[id]/page.tsx";
   "/Users/eko3/limn-systems-enterprise/src/app/shipping/tracking/[trackingNumber]/page.tsx";
   "/Users/eko3/limn-systems-enterprise/src/app/tasks/[id]/page.tsx"]%string.

(** [main], without its progress messages; it returns the exit status. *)
Definition main : io Z :=
  lists <- migrate_all files_to_migrate [] [] ;;
  let '(modified_files, skipped_files) := lists in
  ret (if 0 <? length modified_files then 0%Z else 1%Z).

(** A world with a page that cannot be read and a page that can. *)
Definition two_pages : world :=
  World (fun p =>
           if String.eqb p "locked/page.tsx"
           then Some (File (inl PermissionDenied) true)
           else if String.eqb p "tasks/page.tsx"
           then Some (File (inr hook_page) true)
           else None)
        [].

(** A world with two files that can be read but not written: a source
    file with a logging call of three arguments, and a hook page. *)
Definition read_only_files : world :=
  World (fun p =>
           if String.eqb p "src/a.ts"
           then Some (File (inr (py "log.error('failed', err, userId)")) false)
           else if String.eqb p "tasks/page.tsx"
           then Some (File (inr hook_page) false)
           else None)
        [].

End Params.

(** * Properties *)

(** ** Texts *)

Lemma text_eqb_eq (a b : text) : text_eqb a b = true <-> a = b.
Proof.
  revert b; induction a as [|x a IH]; intros [|y b]; simpl; split;
    try congruence; try reflexivity.
  - rewrite andb_true_iff, Ascii.eqb_eq, IH. intros [-> ->]. reflexivity.
  - intros E. injection E as -> ->.
    rewrite andb_true_iff, Ascii.eqb_eq, IH. auto.
Qed.

Lemma text_eqb_refl (a : text) : text_eqb a a = true.
Proof. apply text_eqb_eq. reflexivity. Qed.

Lemma text_eqb_neq (a b : text) : text_eqb a b = false <-> a <> b.
Proof.
  rewrite <- text_eqb_eq. destruct (text_eqb a b); split; congruence.
Qed.

Lemma startswith_spec (p s : text) :
  startswith p s = true <-> exists t, s = p ++ t.
Proof.
  revert s; induction p as [|x p IH]; intros s; simpl.
  - split; [exists s; reflexivity | reflexivity].
  - destruct s as [|y s].
    + split; [discriminate | intros [t E]; discriminate].
    + rewrite andb_true_iff, Ascii.eqb_eq, IH. split.
      * intros [-> [t ->]]. exists t. reflexivity.
      * intros [t E]. injection E as -> ->. split; [reflexivity | eauto].
Qed.

Lemma startswith_app (p s : text) : startswith p (p ++ s) = true.
Proof. apply startswith_spec. eauto. Qed.

Lemma contains_spec (p s : text) :
  contains p s = true <-> exists a b, s = a ++ p ++ b.
Proof.
  induction s as [|y s IH].
  - simpl. rewrite orb_false_r, startswith_spec. split.
    + intros [t E]. exists [], t. exact E.
    + intros [a [b E]]. destruct a; simpl in E.
      * eauto.
      * discriminate.
  - cbn [contains]. rewrite orb_true_iff, startswith_spec, IH. split.
    + intros [[t E] | [a [b E]]].
      * exists [], t. exact E.
      * exists (y :: a), b. rewrite E. reflexivity.
    + intros [a [b E]]. destruct a as [|x a]; simpl in E.
      * left. eauto.
      * right. injection E as _ E. eauto.
Qed.

Lemma contains_longer (a p b s : text) :
  contains (a ++ p ++ b) s = true -> contains p s = true.
Proof.
  rewrite !contains_spec. intros [u [v ->]].
  exists (u ++ a), (b ++ v). rewrite <- !app_assoc. reflexivity.
Qed.

(** ** Trimming *)

Lemma lstrip_blank (w s : text) :
  forallb is_space w = true -> lstrip (w ++ s) = lstrip s.
Proof.
  induction w as [|c w IH]; simpl; [reflexivity|].
  rewrite andb_true_iff. intros [-> H]. auto.
Qed.

Lemma lstrip_split (s : text) :
  exists w, s = w ++ lstrip s /\ forallb is_space w = true.
Proof.
  induction s as [|c s [w [E H]]]; simpl.
  - exists []. auto.
  - destruct (is_space c) eqn:Hc.
    + exists (c :: w). simpl. rewrite Hc, H. split; [congruence | reflexivity].
    + exists []. auto.
Qed.

Lemma lstrip_fixed (c : ascii) (s : text) :
  is_space c = false -> lstrip (c :: s) = c :: s.
Proof. simpl. intros ->. reflexivity. Qed.

Lemma lstrip_keeps_last (s : text) (c : ascii) :
  is_space c = false -> exists a, lstrip (s ++ [c]) = a ++ [c].
Proof.
  intros Hc. induction s as [|x s [a E]]; simpl.
  - rewrite Hc. exists []. reflexivity.
  - destruct (is_space x).
    + eauto.
    + exists (x :: s). reflexivity.
Qed.

Lemma lstrip_idem (s : text) : lstrip (lstrip s) = lstrip s.
Proof.
  induction s as [|c s IH]; simpl; [reflexivity|].
  destruct (is_space c) eqn:Hc; [exact IH|].
  simpl. rewrite Hc. reflexivity.
Qed.

Lemma rstrip_blank (s w : text) :
  forallb is_space w = true -> rstrip (s ++ w) = rstrip s.
Proof.
  intros H. unfold rstrip. rewrite rev_app_distr, lstrip_blank; [reflexivity|].
  rewrite forallb_forall in *. intros x Hx. apply H, in_rev, Hx.
Qed.

Lemma rstrip_fixed (s : text) (c : ascii) :
  is_space c = false -> rstrip (s ++ [c]) = s ++ [c].
Proof.
  intros Hc. unfold rstrip. rewrite rev_app_distr. simpl. rewrite Hc.
  simpl. rewrite rev_involutive. reflexivity.
Qed.

Lemma rstrip_keeps_first (c : ascii) (s : text) :
  is_space c = false -> exists a, rstrip (c :: s) = c :: a.
Proof.
  intros Hc. unfold rstrip. simpl.
  destruct (lstrip_keeps_last (rev s) c Hc) as [a ->].
  exists (rev a). rewrite rev_app_distr. reflexivity.
Qed.

Lemma rstrip_split (s : text) :
  exists w, s = rstrip s ++ w /\ forallb is_space w = true.
Proof.
  destruct (lstrip_split (rev s)) as [w [E H]].
  exists (rev w). split.
  - unfold rstrip. rewrite <- rev_app_distr, <- E, rev_involutive. reflexivity.
  - rewrite forallb_forall in *. intros x Hx. apply H, in_rev, Hx.
Qed.

Lemma strip_split (s : text) :
  exists w1 w2, s = w1 ++ strip s ++ w2
                /\ forallb is_space w1 = true /\ forallb is_space w2 = true.
Proof.
  destruct (lstrip_split s) as [w1 [E1 H1]].
  destruct (rstrip_split (lstrip s)) as [w2 [E2 H2]].
  exists w1, w2. unfold strip. rewrite <- E2. auto.
Qed.

Lemma strip_blank (w : text) : forallb is_space w = true -> strip w = [].
Proof.
  intros H. unfold strip.
  rewrite <- (app_nil_r w), lstrip_blank by exact H. reflexivity.
Qed.

Lemma strip_around (w1 s w2 : text) :
  forallb is_space w1 = true -> forallb is_space w2 = true ->
  strip (w1 ++ s ++ w2) = strip s.
Proof.
  intros H1 H2. unfold strip. rewrite lstrip_blank by exact H1.
  destruct (lstrip_split s) as [w [E Hw]].
  destruct (lstrip s) as [|c t] eqn:El.
  - rewrite app_nil_r in E. subst w.
    rewrite <- (app_nil_r (s ++ w2)), lstrip_blank; [reflexivity|].
    rewrite forallb_app, Hw, H2. reflexivity.
  - assert (Hc : is_space c = false).
    { destruct (is_space c) eqn:Hc; [|reflexivity].
      pose proof (lstrip_idem s) as I. rewrite El in I. simpl in I.
      rewrite Hc in I. pose proof (lstrip_split t) as [w' [E' _]].
      assert (L : length (lstrip t) <= length t).
      { rewrite E' at 2. rewrite length_app. lia. }
      rewrite I in L. simpl in L. lia. }
    rewrite E at 1. rewrite <- app_assoc, lstrip_blank by exact Hw.
    simpl. rewrite Hc. rewrite (app_comm_cons t w2 c).
    apply rstrip_blank, H2.
Qed.

Lemma strip_fixed (c : ascii) (s : text) (d : ascii) :
  is_space c = false -> is_space d = false ->
  strip (c :: s ++ [d]) = c :: s ++ [d].
Proof.
  intros Hc Hd. unfold strip. rewrite lstrip_fixed by exact Hc.
  rewrite app_comm_cons. apply rstrip_fixed, Hd.
Qed.

Lemma strip_single (c : ascii) : is_space c = false -> strip [c] = [c].
Proof.
  intros Hc. unfold strip. rewrite lstrip_fixed by exact Hc.
  apply (rstrip_fixed [] c Hc).
Qed.

Lemma trimmed_strip (s : text) : trimmed (strip s).
Proof.
  unfold strip. destruct (lstrip s) as [|c t] eqn:El; [constructor|].
  assert (Hc : is_space c = false).
  { destruct (is_space c) eqn:Hc; [|reflexivity].
    pose proof (lstrip_idem s) as I. rewrite El in I. simpl in I.
    rewrite Hc in I. pose proof (lstrip_split t) as [w' [E' _]].
    assert (L : length (lstrip t) <= length t).
    { rewrite E' at 2. rewrite length_app. lia. }
    rewrite I in L. simpl in L. lia. }
  destruct (rstrip_keeps_first c t Hc) as [a Ea]. rewrite Ea.
  destruct (rstrip_split (c :: t)) as [w [E Hw]]. rewrite Ea in E.
  destruct a as [|x a _] using rev_ind; [constructor; exact Hc|].
  constructor; [exact Hc|].
  destruct (is_space x) eqn:Hx; [|reflexivity].
  exfalso.
  assert (R : rstrip (c :: t) = rstrip (c :: a)).
  { rewrite E. rewrite app_comm_cons, <- app_assoc.
    apply rstrip_blank. simpl. rewrite Hx. exact Hw. }
  rewrite Ea in R.
  destruct (rstrip_split (c :: a)) as [w' [E' _]].
  rewrite <- R in E'.
  apply (f_equal (@length ascii)) in E'.
  repeat (rewrite ?length_app in E'; simpl in E'). lia.
Qed.

Lemma strip_trimmed (s : text) : trimmed s -> strip s = s.
Proof.
  intros [|c Hc|c t d Hc Hd].
  - reflexivity.
  - apply strip_single, Hc.
  - apply strip_fixed; assumption.
Qed.

Lemma strip_idem (s : text) : strip (strip s) = strip s.
Proof. apply strip_trimmed, trimmed_strip. Qed.

(** ** The Tokenizer *)

Import Logger.

Ltac fields :=
  cbn [arg_parts current_arg paren_depth brace_depth in_string string_char].

Ltac tok_cases :=
  repeat match goal with
         | |- context [if ?b then _ else _] => destruct b eqn:?
         end.

Lemma tok_loop_app (t : tokenizer) (a b : text) :
  tok_loop t (a ++ b) = tok_loop (tok_loop t a) b.
Proof. apply fold_left_app. Qed.

Lemma tok_loop_cons (t : tokenizer) (c : ascii) (s : text) :
  tok_loop t (c :: s) = tok_loop (tok_char t c) s.
Proof. reflexivity. Qed.

Lemma tok_loop_snoc (t : tokenizer) (s : text) (c : ascii) :
  tok_loop t (s ++ [c]) = tok_char (tok_loop t s) c.
Proof. rewrite tok_loop_app. reflexivity. Qed.

(** The separator branch runs exactly on a comma at top level. *)
Lemma tok_char_split (t : tokenizer) (c : ascii) :
  (ch ","%char c && at_top t) = true ->
  tok_char t c =
  Tok (arg_parts t ++ [strip (current_arg t)]) []
      (paren_depth t) (brace_depth t) (in_string t) (string_char t).
Proof.
  destruct t as [parts cur pd bd ins sc]. unfold at_top, ch. fields.
  rewrite !andb_true_iff, Ascii.eqb_eq, negb_true_iff.
  intros [<- [[-> Hp] Hb]]. unfold tok_char. simpl.
  rewrite !andb_false_r. simpl. rewrite Hp, Hb. reflexivity.
Qed.

Lemma tok_char_keep (t : tokenizer) (c : ascii) :
  (ch ","%char c && at_top t) = false ->
  arg_parts (tok_char t c) = arg_parts t
  /\ current_arg (tok_char t c) = current_arg t ++ [c].
Proof.
  destruct t as [parts cur pd bd ins sc]. unfold at_top. fields.
  intros H. unfold tok_char. tok_cases; fields; auto.
  exfalso.
  destruct (ch ","%char c), ins, (pd =? 0)%Z, (bd =? 0)%Z;
    simpl in *; discriminate.
Qed.

Lemma nesting_tok_char (t u : tokenizer) (c : ascii) :
  nesting t = nesting u -> nesting (tok_char t c) = nesting (tok_char u c).
Proof.
  destruct t as [p1 c1 pd bd ins sc], u as [p2 c2 pd' bd' ins' sc'].
  unfold nesting. simpl. intros E. injection E as -> -> -> ->.
  unfold tok_char. tok_cases; reflexivity.
Qed.

Lemma nesting_tok_loop (s : text) (t u : tokenizer) :
  nesting t = nesting u -> nesting (tok_loop t s) = nesting (tok_loop u s).
Proof.
  revert t u; induction s as [|c s IH]; intros t u E; [exact E|].
  rewrite !tok_loop_cons. apply IH, nesting_tok_char, E.
Qed.

Lemma at_top_nesting (t u : tokenizer) :
  nesting t = nesting u -> at_top t = at_top u.
Proof.
  unfold nesting, at_top. intros E. injection E as -> -> -> _. reflexivity.
Qed.

Lemma quote_ok_init : quote_ok tok_init.
Proof. split; [reflexivity | discriminate]. Qed.

Lemma quote_ok_tok_char (t : tokenizer) (c : ascii) :
  quote_ok t -> quote_ok (tok_char t c).
Proof.
  destruct t as [parts cur pd bd ins sc]. unfold quote_ok. simpl.
  intros [H1 H2]. unfold tok_char. tok_cases; simpl; split;
    try assumption; try discriminate; try reflexivity.
  intros q E. injection E as <-.
  rewrite andb_true_iff in *. tauto.
Qed.

Lemma quote_ok_tok_loop (s : text) (t : tokenizer) :
  quote_ok t -> quote_ok (tok_loop t s).
Proof.
  revert t; induction s as [|c s IH]; intros t H; [exact H|].
  rewrite tok_loop_cons. apply IH, quote_ok_tok_char, H.
Qed.

(** Blank and other plain characters leave the nesting as it is. *)
Lemma nesting_plain (t : tokenizer) (c : ascii) :
  quote_ok t -> plain c = true -> nesting (tok_char t c) = nesting t.
Proof.
  destruct t as [parts cur pd bd ins sc]. unfold quote_ok, plain. simpl.
  rewrite negb_true_iff, !orb_false_iff.
  intros [H1 H2] [[[[Hq Ha] Hb] Hc] Hd].
  unfold tok_char. rewrite Hq, Ha, Hb, Hc, Hd. simpl.
  destruct sc as [q|]; simpl.
  - destruct (Ascii.eqb c q) eqn:E; simpl.
    + apply Ascii.eqb_eq in E. subst q.
      rewrite (H2 c eq_refl) in Hq. discriminate.
    + tok_cases; reflexivity.
  - tok_cases; reflexivity.
Qed.

Lemma space_plain (c : ascii) : is_space c = true -> plain c = true.
Proof.
  unfold is_space, between, code, plain, is_quote, ch, dquote.
  rewrite !orb_true_iff, !andb_true_iff, !Nat.leb_le, !Nat.eqb_eq.
  intros H. rewrite negb_true_iff, !orb_false_iff, !Ascii.eqb_neq.
  repeat split; intros <-; vm_compute in H; lia.
Qed.

Lemma nesting_plain_loop (s : text) (t : tokenizer) :
  quote_ok t -> forallb plain s = true -> nesting (tok_loop t s) = nesting t.
Proof.
  revert t; induction s as [|c s IH]; intros t Q H; [reflexivity|].
  simpl in H. rewrite andb_true_iff in H. destruct H as [Hc Hs].
  rewrite tok_loop_cons, IH by (auto using quote_ok_tok_char).
  apply nesting_plain; assumption.
Qed.

Lemma ahead_tok_char (P : list text) (t u : tokenizer) (c : ascii) :
  ahead P t u -> ahead P (tok_char t c) (tok_char u c).
Proof.
  intros [Hp [Hc Hn]].
  destruct (ch ","%char c && at_top t) eqn:E.
  - assert (E' : (ch ","%char c && at_top u) = true)
      by (rewrite <- (at_top_nesting _ _ Hn); exact E).
    rewrite (tok_char_split _ _ E), (tok_char_split _ _ E').
    unfold ahead, nesting in *. fields.
    rewrite Hp, Hc, app_assoc. auto.
  - assert (E' : (ch ","%char c && at_top u) = false)
      by (rewrite <- (at_top_nesting _ _ Hn); exact E).
    destruct (tok_char_keep _ _ E) as [K1 K2].
    destruct (tok_char_keep _ _ E') as [K1' K2'].
    unfold ahead. rewrite K1, K2, K1', K2', Hp, Hc.
    auto using nesting_tok_char.
Qed.

Lemma ahead_tok_loop (P : list text) (s : text) (t u : tokenizer) :
  ahead P t u -> ahead P (tok_loop t s) (tok_loop u s).
Proof.
  revert t u; induction s as [|c s IH]; intros t u H; [exact H|].
  rewrite !tok_loop_cons. apply IH, ahead_tok_char, H.
Qed.

Lemma top_commas_from_nesting (s : text) (t u : tokenizer) :
  nesting t = nesting u -> top_commas_from t s = top_commas_from u s.
Proof.
  revert t u; induction s as [|c s IH]; intros t u E; [reflexivity|].
  simpl. rewrite (at_top_nesting _ _ E).
  f_equal. apply IH, nesting_tok_char, E.
Qed.

Lemma parts_count (s : text) (t : tokenizer) :
  length (arg_parts (tok_loop t s))
  = length (arg_parts t) + top_commas_from t s.
Proof.
  revert t; induction s as [|c s IH]; intros t.
  - simpl. lia.
  - rewrite tok_loop_cons, IH. cbn [top_commas_from].
    destruct (ch ","%char c && at_top t) eqn:E.
    + rewrite (tok_char_split _ _ E) at 1. fields.
      rewrite length_app. simpl. lia.
    + destruct (tok_char_keep _ _ E) as [-> _]. lia.
Qed.

(** Without a top-level comma the loop only fills [current_arg]. *)
Lemma no_comma_loop (s : text) (t : tokenizer) :
  top_commas_from t s = 0 ->
  arg_parts (tok_loop t s) = arg_parts t
  /\ current_arg (tok_loop t s) = current_arg t ++ s.
Proof.
  revert t; induction s as [|c s IH]; intros t H.
  - simpl. rewrite app_nil_r. auto.
  - cbn [top_commas_from] in H. rewrite tok_loop_cons.
    destruct (ch ","%char c && at_top t) eqn:E; [discriminate|].
    destruct (tok_char_keep _ _ E) as [K1 K2].
    destruct (IH (tok_char t c) H) as [-> ->].
    rewrite K1, K2, <- app_assoc. auto.
Qed.

Lemma at_top_init (t : tokenizer) :
  quote_ok t -> at_top t = true -> nesting t = nesting tok_init.
Proof.
  destruct t as [parts cur pd bd ins sc]. unfold quote_ok, at_top, nesting.
  fields. rewrite !andb_true_iff, negb_true_iff, !Z.eqb_eq.
  intros [H _] [[-> ->] ->]. rewrite (H eq_refl). reflexivity.
Qed.

(** The loop after a separator at top level: the fragments before it are
    emitted, the rest is split as if it stood alone. *)
Lemma loop_after_separator (a b : text) :
  at_top (tok_loop tok_init a) = true ->
  ahead (arg_parts (tok_loop tok_init a)
         ++ [strip (current_arg (tok_loop tok_init a))])
        (tok_loop tok_init (a ++ ","%char :: b)) (tok_loop tok_init b).
Proof.
  intros H. rewrite tok_loop_app, tok_loop_cons.
  apply ahead_tok_loop.
  assert (Q := quote_ok_tok_loop a tok_init quote_ok_init).
  rewrite tok_char_split by (rewrite H; reflexivity).
  unfold ahead. fields. rewrite app_nil_r.
  split; [reflexivity|]. split; [reflexivity|].
  apply (at_top_init _ Q H).
Qed.

Lemma split_args_after_separator (a b : text) :
  at_top (tok_loop tok_init a) = true ->
  split_args (a ++ ","%char :: b)
  = arg_parts (tok_loop tok_init a)
    ++ strip (in_flight a) :: split_args b.
Proof.
  intros H. destruct (loop_after_separator a b H) as [Hp [Hc _]].
  unfold split_args, in_flight. rewrite Hp, Hc.
  destruct (nonempty _); rewrite <- ?app_assoc; reflexivity.
Qed.

(** C5: empty and blank argument texts split into no fragment; the text
    before a top-level comma is always emitted, trimmed, even when it trims
    to the empty text; only the fragment in flight at the end is dropped
    when it is blank. *)
Theorem tokenizer_drops_only_trailing_blank :
  split_args [] = []
  /\ (forall w, forallb is_space w = true -> split_args w = [])
  /\ (forall a b,
        top_commas a = 0 -> at_top (tok_loop tok_init a) = true ->
        split_args (a ++ py "," ++ b) = strip a :: split_args b)
  /\ (forall a,
        top_commas a = 0 ->
        split_args a = if nonempty (strip a) then [strip a] else []).
Proof.
  assert (L : forall a, top_commas a = 0 ->
            arg_parts (tok_loop tok_init a) = []
            /\ current_arg (tok_loop tok_init a) = a).
  { intros a H. apply (no_comma_loop a tok_init H). }
  assert (T : forall a, top_commas a = 0 ->
            split_args a = if nonempty (strip a) then [strip a] else []).
  { intros a H. destruct (L a H) as [Hp Hc].
    unfold split_args. rewrite Hp, Hc. reflexivity. }
  split; [reflexivity|]. split; [|split].
  - intros w Hw.
    assert (P : forallb plain w = true).
    { rewrite forallb_forall in *. auto using space_plain. }
    assert (H : top_commas w = 0).
    { unfold top_commas. clear T L. generalize quote_ok_init.
      generalize tok_init. induction w as [|c w IH]; intros t Q; [reflexivity|].
      simpl in Hw, P. rewrite andb_true_iff in Hw, P.
      cbn [top_commas_from].
      replace (ch ","%char c) with false.
      - simpl. apply IH; try tauto. apply quote_ok_tok_char, Q.
      - destruct Hw as [Hc _]. unfold ch. symmetry. apply Ascii.eqb_neq.
        intros <-. discriminate. }
    rewrite (T w H), (strip_blank w Hw). reflexivity.
  - intros a b H Ht. simpl.
    rewrite (split_args_after_separator a b Ht). unfold in_flight.
    destruct (L a H) as [-> ->]. reflexivity.
  - exact T.
Qed.

(** An instance of C5: a blank fragment between two top-level commas is
    kept as an empty argument, the blank tail is dropped. *)
Lemma tokenizer_drops_only_trailing_blank_witness :
  split_args (py "msg" ++ py "," ++ py " , x,  ") = py "msg" :: [[]; py "x"].
Proof.
  rewrite (proj1 (proj2 (proj2 tokenizer_drops_only_trailing_blank))
             (py "msg") (py " , x,  ") eq_refl eq_refl).
  reflexivity.
Defined.

(** ** Balance of the fragments *)

Lemma balanced_from_nesting (s : text) (t u : tokenizer) :
  nesting t = nesting u -> balanced_from t s = balanced_from u s.
Proof.
  revert t u; induction s as [|c s IH]; intros t u E.
  - apply at_top_nesting, E.
  - cbn [balanced_from].
    pose proof (nesting_tok_char t u c E) as E'.
    rewrite (IH _ _ E'). unfold nesting in E'. injection E' as -> -> _ _.
    reflexivity.
Qed.

Lemma open_from_nesting (s : text) (t u : tokenizer) :
  nesting t = nesting u -> open_from t s = open_from u s.
Proof.
  revert t u; induction s as [|c s IH]; intros t u E; [reflexivity|].
  cbn [open_from].
  pose proof (nesting_tok_char t u c E) as E'.
  rewrite (IH _ _ E'). unfold nesting in E'. injection E' as -> -> _ _.
  reflexivity.
Qed.

Lemma balanced_from_app (a b : text) (t : tokenizer) :
  balanced_from t (a ++ b) = open_from t a && balanced_from (tok_loop t a) b.
Proof.
  revert t; induction a as [|c a IH]; intros t; [reflexivity|].
  cbn [app balanced_from open_from]. rewrite IH, tok_loop_cons.
  rewrite !andb_assoc. reflexivity.
Qed.

Lemma open_from_app (a b : text) (t : tokenizer) :
  open_from t (a ++ b) = open_from t a && open_from (tok_loop t a) b.
Proof.
  revert t; induction a as [|c a IH]; intros t; [reflexivity|].
  cbn [app open_from]. rewrite IH, tok_loop_cons.
  rewrite !andb_assoc. reflexivity.
Qed.

Lemma balanced_open (s : text) (t : tokenizer) :
  balanced_from t s = open_from t s && at_top (tok_loop t s).
Proof.
  rewrite <- (app_nil_r s) at 1. rewrite balanced_from_app. reflexivity.
Qed.

Lemma depths_nesting (t u : tokenizer) :
  nesting t = nesting u ->
  paren_depth t = paren_depth u /\ brace_depth t = brace_depth u.
Proof. unfold nesting. intros E. injection E as -> -> _ _. auto. Qed.

(** Plain characters in front of a text do not change its balance. *)
Lemma open_from_plain (w : text) (t : tokenizer) :
  quote_ok t -> forallb plain w = true ->
  (0 <= paren_depth t)%Z -> (0 <= brace_depth t)%Z ->
  open_from t w = true.
Proof.
  revert t; induction w as [|c w IH]; intros t Q H Hp Hb; [reflexivity|].
  simpl in H. rewrite andb_true_iff in H. destruct H as [Hc Hw].
  cbn [open_from].
  destruct (depths_nesting _ _ (nesting_plain t c Q Hc)) as [E1 E2].
  rewrite IH; auto using quote_ok_tok_char; lia.
Qed.

Lemma at_top_depths (t : tokenizer) :
  at_top t = true -> paren_depth t = 0%Z /\ brace_depth t = 0%Z.
Proof.
  unfold at_top. rewrite !andb_true_iff, !Z.eqb_eq. tauto.
Qed.

Lemma well_formed_strip (s : text) :
  well_formed s = true -> well_formed (strip s) = true.
Proof.
  destruct (strip_split s) as [w1 [w2 [E [H1 H2]]]].
  assert (P1 : forallb plain w1 = true)
    by (rewrite forallb_forall in *; auto using space_plain).
  assert (P2 : forallb plain w2 = true)
    by (rewrite forallb_forall in *; auto using space_plain).
  unfold well_formed. rewrite E at 1.
  rewrite balanced_from_app, andb_true_iff. intros [_ H].
  rewrite (balanced_from_nesting _ _ tok_init) in H
    by (apply nesting_plain_loop; auto using quote_ok_init).
  rewrite balanced_from_app, andb_true_iff in H. destruct H as [Ho H].
  rewrite balanced_open, andb_true_iff in H. destruct H as [_ H].
  assert (Q := quote_ok_tok_loop (strip s) tok_init quote_ok_init).
  rewrite (at_top_nesting _ _ (nesting_plain_loop w2 _ Q P2)) in H.
  rewrite balanced_open, Ho, H. reflexivity.
Qed.

Lemma tidy_init : tidy tok_init.
Proof.
  repeat split; try discriminate; constructor.
Qed.

Lemma tidy_tok_char (t : tokenizer) (c : ascii) :
  tidy t ->
  (0 <= paren_depth (tok_char t c))%Z ->
  (0 <= brace_depth (tok_char t c))%Z ->
  tidy (tok_char t c).
Proof.
  intros [Q [F [N O]]] Hp Hb.
  destruct (ch ","%char c && at_top t) eqn:E.
  - rewrite (tok_char_split _ _ E) in *.
    apply andb_true_iff in E. destruct E as [_ Et].
    unfold tidy. fields. split; [|split; [|split]].
    + destruct Q as [Q1 Q2]. split; assumption.
    + apply Forall_app. split; [exact F|]. constructor; [|constructor].
      apply well_formed_strip. unfold well_formed.
      rewrite balanced_open, O, (at_top_nesting _ _ N), Et. reflexivity.
    + symmetry. apply (at_top_init t Q Et).
    + reflexivity.
  - destruct (tok_char_keep _ _ E) as [K1 K2].
    unfold tidy. rewrite K1, K2. split; [|split; [|split]].
    + apply quote_ok_tok_char, Q.
    + exact F.
    + rewrite tok_loop_snoc. apply nesting_tok_char, N.
    + rewrite open_from_app, O. cbn [open_from andb].
      destruct (depths_nesting _ _ (nesting_tok_char _ _ c N)) as [-> ->].
      rewrite andb_true_r, andb_true_iff, !Z.leb_le. auto.
Qed.

Lemma tidy_tok_loop (s : text) (t : tokenizer) :
  tidy t -> open_from t s = true -> tidy (tok_loop t s).
Proof.
  revert t; induction s as [|c s IH]; intros t T H; [exact T|].
  cbn [open_from] in H. rewrite !andb_true_iff, !Z.leb_le in H.
  rewrite tok_loop_cons. apply IH; [apply tidy_tok_char|]; tauto.
Qed.

(** The count and the shape of the fragments, in the terms of the loop. *)
Lemma fragment_count_by_the_loop (s : text) :
  well_formed s = true ->
  length (split_args s)
  = top_commas s + (if nonempty (strip (in_flight s)) then 1 else 0)
  /\ Forall (fun f => well_formed f = true) (split_args s).
Proof.
  intros W. unfold split_args, in_flight. split.
  - pose proof (parts_count s tok_init) as C. simpl in C.
    destruct (nonempty _).
    + rewrite length_app, C. reflexivity.
    + rewrite C. unfold top_commas. lia.
  - unfold well_formed in W. rewrite balanced_open, andb_true_iff in W.
    destruct W as [O A].
    destruct (tidy_tok_loop s tok_init tidy_init O) as [Q [F [N O']]].
    destruct (nonempty _); [|exact F].
    apply Forall_app. split; [exact F|]. constructor; [|constructor].
    apply well_formed_strip. unfold well_formed.
    rewrite balanced_open, O', (at_top_nesting _ _ N), A. reflexivity.
Qed.

(** *** The loop keeps the depths and the open string of the text *)

Lemma open_quote_snoc (pre : text) (c : ascii) :
  open_quote (pre ++ [c]) = quote_step (open_quote pre) c.
Proof. unfold open_quote. rewrite fold_left_app. reflexivity. Qed.

Lemma outside_from_snoc (s : text) (c : ascii) :
  forall pre,
    outside_from pre (s ++ [c])
    = outside_from pre s
      ++ match open_quote (pre ++ s) with
         | None => if is_quote c then [] else [c]
         | Some _ => []
         end.
Proof.
  induction s as [|x s IH]; intros pre.
  - cbn [app outside_from]. rewrite app_nil_r.
    destruct (open_quote pre); [reflexivity|].
    destruct (is_quote c); reflexivity.
  - cbn [app outside_from]. rewrite !IH, <- app_assoc. cbn [app].
    destruct (open_quote pre); [reflexivity|].
    destruct (is_quote x); reflexivity.
Qed.

Lemma occurrences_app (c : ascii) (a b : text) :
  occurrences c (a ++ b) = (occurrences c a + occurrences c b)%Z.
Proof. unfold occurrences. rewrite filter_app, length_app. lia. Qed.

Lemma depth_snoc (o cl : ascii) (pre : text) (c : ascii) :
  depth o cl (pre ++ [c])
  = (depth o cl pre
     + match open_quote pre with
       | None =>
           if is_quote c then 0
           else (if ch o c then 1 else 0) - (if ch cl c then 1 else 0)
       | Some _ => 0
       end)%Z.
Proof.
  unfold depth, outside_strings. rewrite outside_from_snoc. cbn [app].
  rewrite !occurrences_app.
  destruct (open_quote pre); [unfold occurrences; simpl; lia|].
  destruct (is_quote c); [unfold occurrences; simpl; lia|].
  unfold occurrences. cbn [filter].
  destruct (ch o c), (ch cl c); simpl; lia.
Qed.

Lemma bracket_no_quote (b c : ascii) :
  is_quote b = false -> ch b c = true -> is_quote c = false.
Proof. unfold ch. rewrite Ascii.eqb_eq. intros H <-. exact H. Qed.

Lemma ch_other (a b c : ascii) :
  Ascii.eqb a b = false -> ch a c = true -> ch b c = false.
Proof.
  unfold ch. rewrite Ascii.eqb_eq. intros H <-.
  rewrite Ascii.eqb_sym. exact H.
Qed.

(** After every prefix of the text, the counters and the string state of
    the loop are the depths and the open string of the prefix. *)
Lemma loop_tracks_text (pre : text) :
  string_char (tok_loop tok_init pre) = open_quote pre
  /\ in_string (tok_loop tok_init pre)
     = match open_quote pre with Some _ => true | None => false end
  /\ paren_depth (tok_loop tok_init pre) = depth "("%char ")"%char pre
  /\ brace_depth (tok_loop tok_init pre) = depth "{"%char "}"%char pre.
Proof.
  induction pre as [|c pre IH] using rev_ind.
  - repeat split.
  - rewrite tok_loop_snoc, open_quote_snoc, !depth_snoc.
    destruct IH as [Hs [Hi [Hp Hb]]].
    destruct (tok_loop tok_init pre) as [parts cur pd bd ins sc].
    cbn [string_char in_string paren_depth brace_depth] in *.
    rewrite <- Hs in Hi. rewrite <- Hs, <- Hp, <- Hb. clear Hs Hp Hb.
    destruct sc as [q|]; subst ins; unfold tok_char, quote_step;
      cbn [negb andb is_string_char].
    + rewrite !andb_false_r, andb_true_r. cbn [andb].
      destruct (Ascii.eqb c q); fields; repeat split; lia.
    + rewrite !andb_true_r. cbn [andb].
      destruct (is_quote c) eqn:Q; fields; [repeat split; lia|].
      destruct (ch "("%char c) eqn:A.
      { rewrite (ch_other "("%char ")"%char c eq_refl A),
          (ch_other "("%char "{"%char c eq_refl A),
          (ch_other "("%char "}"%char c eq_refl A).
        fields. repeat split; lia. }
      destruct (ch ")"%char c) eqn:B.
      { rewrite (ch_other ")"%char "{"%char c eq_refl B),
          (ch_other ")"%char "}"%char c eq_refl B).
        fields. repeat split; lia. }
      destruct (ch "{"%char c) eqn:C.
      { rewrite (ch_other "{"%char "}"%char c eq_refl C).
        fields. repeat split; lia. }
      destruct (ch "}"%char c) eqn:D.
      { fields. repeat split; lia. }
      destruct (ch ","%char c && (pd =? 0)%Z && (bd =? 0)%Z);
        fields; repeat split; lia.
Qed.

Lemma at_top_tracks (pre : text) :
  at_top (tok_loop tok_init pre) = top_level pre.
Proof.
  destruct (loop_tracks_text pre) as [_ [Hi [Hp Hb]]].
  unfold at_top, top_level. rewrite Hi, Hp, Hb.
  destruct (open_quote pre); reflexivity.
Qed.

Lemma top_commas_tracks (s : text) :
  forall pre,
    top_commas_from (tok_loop tok_init pre) s = top_level_commas_from pre s.
Proof.
  induction s as [|c s IH]; intros pre; [reflexivity|].
  cbn [top_commas_from top_level_commas_from].
  rewrite <- tok_loop_snoc, IH, at_top_tracks. reflexivity.
Qed.

Lemma balanced_tracks (s : text) :
  forall pre,
    balanced_from (tok_loop tok_init pre) s = balanced_after pre s.
Proof.
  induction s as [|c s IH]; intros pre; cbn [balanced_from balanced_after].
  - apply at_top_tracks.
  - rewrite <- tok_loop_snoc, IH.
    destruct (loop_tracks_text (pre ++ [c])) as [_ [_ [-> ->]]].
    reflexivity.
Qed.

Lemma in_flight_tracks (s : text) :
  forall pre t,
    nesting t = nesting (tok_loop tok_init pre) ->
    current_arg (tok_loop t s) = last_piece_from pre (current_arg t) s.
Proof.
  induction s as [|c s IH]; intros pre t N; [reflexivity|].
  rewrite tok_loop_cons. cbn [last_piece_from].
  assert (N' : nesting (tok_char t c)
               = nesting (tok_loop tok_init (pre ++ [c])))
    by (rewrite tok_loop_snoc; apply nesting_tok_char, N).
  rewrite (IH _ _ N').
  rewrite <- at_top_tracks, <- (at_top_nesting _ _ N).
  destruct (ch ","%char c && at_top t) eqn:E.
  - rewrite (tok_char_split _ _ E). reflexivity.
  - destruct (tok_char_keep _ _ E) as [_ ->]. reflexivity.
Qed.

Lemma well_formed_balanced (s : text) : well_formed s = balanced s.
Proof. apply (balanced_tracks s []). Qed.

(** C4, as the code has it.  A string is read as running from a quote
    character to the next occurrence of the same character, and depths
    are counted outside strings.  On an argument text that is balanced
    in this sense the Tokenizer returns one fragment for each top-level
    comma, and one more when the text after the last top-level comma is
    not blank; every fragment returned is itself balanced.  Top-level
    commas, last piece and balance are those of the text, defined
    without the loop. *)
Theorem tokenizer_fragment_count (s : text) :
  balanced s = true ->
  length (split_args s)
  = top_level_commas s + (if nonempty (strip (last_piece s)) then 1 else 0)
  /\ Forall (fun f => balanced f = true) (split_args s).
Proof.
  intros B. rewrite <- well_formed_balanced in B.
  destruct (fragment_count_by_the_loop s B) as [C F].
  split.
  - rewrite C. unfold top_commas, top_level_commas, in_flight, last_piece.
    pose proof (top_commas_tracks s []) as X.
    change (tok_loop tok_init []) with tok_init in X.
    rewrite X, (in_flight_tracks s [] tok_init eq_refl).
    reflexivity.
  - rewrite Forall_forall in *. intros f I.
    rewrite <- well_formed_balanced. apply F, I.
Qed.

Lemma tokenizer_fragment_count_witness :
  length (split_args (py "'a,b', f(x, y), {p: 1, q: 2},"))
  = 3 + 0
  /\ Forall (fun f => balanced f = true)
            (split_args (py "'a,b', f(x, y), {p: 1, q: 2},")).
Proof.
  apply (tokenizer_fragment_count (py "'a,b', f(x, y), {p: 1, q: 2},")).
  vm_compute. reflexivity.
Defined.

(** C4 as stated fails on a trailing comma: three top-level commas,
    three fragments.  It also fails when balance is read with escaped
    quotes: in ['it\'s', a] the Tokenizer ends the string at the
    backslash-quote, never comes back to top level and returns the whole
    text as one fragment. *)
Lemma tokenizer_fragment_count_counterexample :
  balanced (py "'failed', err, userId,") = true
  /\ top_level_commas (py "'failed', err, userId,") = 3
  /\ split_args (py "'failed', err, userId,")
     = [py "'failed'"; py "err"; py "userId"]
  /\ length (split_args (py "'failed', err, userId,"))
     <> top_level_commas (py "'failed', err, userId,") + 1
  /\ split_args (py "'it\'s', a") = [py "'it\'s', a"]
  /\ balanced (py "'it\'s', a") = false.
Proof.
  repeat split; try reflexivity. vm_compute. discriminate.
Qed.

(** ** The identifier test and the metadata loop *)

Lemma rep_greedy_eos (s : text) (prev : option ascii) (i : nat) (gs : groups) :
  (forall a, s <> a ++ [newline]) ->
  rep_greedy ident_char (run Eos accept) prev s i gs
  = if forallb ident_char s then Some (i + length s, gs) else None.
Proof.
  revert prev i; induction s as [|c s IH]; intros prev i H.
  - simpl. rewrite Nat.add_0_r. reflexivity.
  - assert (H' : forall a, s <> a ++ [newline]).
    { intros a E. apply (H (c :: a)). rewrite E. reflexivity. }
    cbn [rep_greedy forallb]. destruct (ident_char c) eqn:Hc.
    + rewrite (IH (Some c) (S i) H'). simpl andb.
      destruct (forallb ident_char s) eqn:Hs.
      * simpl. f_equal. f_equal. lia.
      * simpl. destruct s as [|d s]; [discriminate|]. reflexivity.
    + simpl. destruct s as [|d s]; [|reflexivity].
      destruct (Ascii.eqb c newline) eqn:E; [|reflexivity].
      apply Ascii.eqb_eq in E. subst c. exfalso. apply (H []). reflexivity.
Qed.

Lemma trimmed_no_final_newline (s : text) :
  trimmed s -> forall a, s <> a ++ [newline].
Proof.
  intros T a E. subst s. inversion T as [E | c Hc E | c t d Hc Hd E].
  - destruct a; discriminate.
  - destruct a as [|x [|y a]]; try discriminate.
    injection E as ->. discriminate.
  - rewrite app_comm_cons in E. apply app_inj_tail in E.
    destruct E as [_ ->]. discriminate.
Qed.

Lemma trimmed_tail (c : ascii) (s : text) :
  trimmed (c :: s) -> forall a, s <> a ++ [newline].
Proof.
  intros T a E. apply (trimmed_no_final_newline _ T (c :: a)).
  rewrite E. reflexivity.
Qed.

(** On a trimmed text the pattern accepts exactly the identifiers. *)
Lemma identifier_re_spec (s : text) :
  trimmed s -> found (re_match identifier_re s) = is_identifier s.
Proof.
  intros T.
  assert (E : match_here identifier_re None s
              = match s with
                | [] => None
                | c :: s' =>
                    if ident_start c
                    then rep_greedy ident_char (run Eos accept) (Some c) s' 1 []
                    else None
                end) by (destruct s; reflexivity).
  unfold re_match. rewrite E. destruct s as [|c s]; [reflexivity|].
  cbn [is_identifier]. destruct (ident_start c); [|reflexivity].
  rewrite (rep_greedy_eos s (Some c) 1 [] (trimmed_tail c s T)).
  destruct (forallb ident_char s); reflexivity.
Qed.

Lemma metadata_loop_spec (rest : list text) (i : nat) (acc : list text) :
  metadata_loop i rest acc
  = acc ++ map (fun '(n, arg) => property n (strip arg))
               (combine (List.seq (i + 1) (length rest)) rest).
Proof.
  revert i acc; induction rest as [|arg rest IH]; intros i acc.
  - simpl. rewrite app_nil_r. reflexivity.
  - cbn [metadata_loop length List.seq combine map].
    rewrite (identifier_re_spec _ (trimmed_strip arg)).
    replace (S (i + 1)) with (S i + 1) by lia.
    destruct (is_identifier (strip arg)) eqn:Hi; rewrite IH, <- app_assoc;
      f_equal; simpl app; f_equal; unfold property; rewrite Hi; reflexivity.
Qed.

Lemma trimmed_parts (s : text) (t : tokenizer) :
  Forall trimmed (arg_parts t) -> Forall trimmed (arg_parts (tok_loop t s)).
Proof.
  revert t; induction s as [|c s IH]; intros t H; [exact H|].
  rewrite tok_loop_cons. apply IH.
  destruct (ch ","%char c && at_top t) eqn:E.
  - rewrite (tok_char_split _ _ E). fields.
    apply Forall_app. split; [exact H|].
    constructor; [apply trimmed_strip | constructor].
  - destruct (tok_char_keep _ _ E) as [-> _]. exact H.
Qed.

Lemma trimmed_split_args (args : text) : Forall trimmed (split_args args).
Proof.
  unfold split_args.
  pose proof (trimmed_parts args tok_init (Forall_nil _)) as H.
  destruct (nonempty _); [|exact H].
  apply Forall_app. split; [exact H|].
  constructor; [apply trimmed_strip | constructor].
Qed.

Lemma map_property_trimmed (rest : list text) (ns : list nat) :
  Forall trimmed rest ->
  map (fun '(n, arg) => property n (strip arg)) (combine ns rest)
  = map (fun '(n, arg) => property n arg) (combine ns rest).
Proof.
  intros H. revert ns; induction H as [|arg rest Ha _ IH]; intros ns.
  - destruct ns; reflexivity.
  - destruct ns as [|n ns]; [reflexivity|].
    cbn [combine map]. rewrite IH, (strip_trimmed _ Ha). reflexivity.
Qed.

(** The rewrite in closed form, on any list of trimmed fragments. *)
Lemma rewrite_call_spec (level whole : text) (parts : list text) :
  Forall trimmed parts ->
  rewrite_call level whole parts =
  match parts with
  | [] | [_] => whole
  | message :: rest =>
      if (length rest =? 1) && object_literal (nth 0 rest [])
      then whole
      else py "log." ++ level ++ py "(" ++ message ++ py ", { "
           ++ join (py ", ")
                (map (fun '(n, arg) => property n arg)
                     (combine (List.seq 1 (length rest)) rest))
           ++ py " })"
  end.
Proof.
  intros T. unfold rewrite_call.
  destruct parts as [|message [|second rest]]; try reflexivity.
  inversion T as [|? ? _ T']. inversion T' as [|? ? T2 _]. subst.
  cbn [length Nat.leb Nat.eqb nth skipn].
  rewrite (strip_trimmed _ T2). unfold object_literal.
  destruct (_ && _); [reflexivity|].
  rewrite metadata_loop_spec, (map_property_trimmed _ _ T'). simpl app.
  rewrite <- !app_assoc. reflexivity.
Qed.

(** C2: the rewrite of a matched call, by the number and the shape of its
    tokenized arguments; and the identifier-folding example. *)
Theorem logging_rewrite_by_cases :
  (forall m : match_obj,
     fix_logger_call m =
     match split_args (group m 2) with
     | [] | [_] => group m 0
     | message :: rest =>
         if (length rest =? 1) && object_literal (strip (nth 0 rest []))
         then group m 0
         else py "log." ++ group m 1 ++ py "(" ++ message ++ py ", { "
              ++ join (py ", ")
                   (map (fun '(n, arg) => property n arg)
                        (combine (List.seq 1 (length rest)) rest))
              ++ py " })"
     end)
  /\ fix_content (py "log.error('failed', err, userId)")
     = py "log.error('failed', { err, userId })".
Proof.
  split; [|reflexivity].
  intros m. unfold fix_logger_call.
  pose proof (trimmed_split_args (group m 2)) as T.
  rewrite (rewrite_call_spec _ _ _ T).
  destruct (split_args (group m 2)) as [|message [|second rest]];
    try reflexivity.
  inversion T as [|? ? _ T']. inversion T' as [|? ? T2 _]. subst.
  cbn [nth]. rewrite (strip_trimmed _ T2). reflexivity.
Qed.

(** ** The params migration: classification and drivers *)

Import Params.

Lemma already_migrated_spec (content : text) :
  already_migrated content = contains (py "use(params)") content.
Proof.
  unfold already_migrated.
  destruct (contains (py "use(params)") content) eqn:E; [reflexivity|].
  destruct (contains (py "const resolvedParams = use(params)") content) eqn:F;
    [|reflexivity].
  apply (contains_longer (py "const resolvedParams = ") (py "use(params)") [])
    in F.
  congruence.
Qed.

(** C7, as the code has it: the parameter name is [trackingNumber]
    exactly when the text contains the word [trackingNumber], in brackets
    or not, and [id] otherwise. *)
Theorem param_name_by_bare_word (content : text) :
  detect_param_name content
  = if contains (py "trackingNumber") content
    then py "trackingNumber" else py "id".
Proof.
  unfold detect_param_name.
  destruct (contains (py "[trackingNumber]") content) eqn:E;
    [|reflexivity].
  apply (contains_longer (py "[") (py "trackingNumber") (py "]")) in E.
  rewrite E. reflexivity.
Qed.

(** C7 as stated fails on a text that names the variable without the
    route-segment marker. *)
Lemma param_name_without_marker :
  contains (py "[trackingNumber]")
           (py "const trackingNumber = useParams().id;") = false
  /\ detect_param_name (py "const trackingNumber = useParams().id;")
     = py "trackingNumber"
  /\ detect_param_name (py "const trackingNumber = useParams().id;")
     <> py "id".
Proof.
  repeat split; try reflexivity. vm_compute. discriminate.
Qed.

Lemma classify_outcome (T : text) :
  match classify T with
  | AlreadyMigrated | Unrecognized => migrate_content T = None
  | ParamsPropPattern =>
      migrate_content T
      = Some (migrate_params_prop (detect_param_name T) (add_use_import T))
  | HookPattern =>
      migrate_content T
      = Some (migrate_hook (detect_param_name T) (add_use_import T))
  end.
Proof.
  unfold classify, migrate_content.
  destruct (already_migrated T); [reflexivity|].
  destruct (uses_params_prop _); [reflexivity|].
  destruct (contains (py "useParams()") _); reflexivity.
Qed.

(** C6: exactly one variant is selected, by the first rule that matches;
    a text with the unwrap call is AlreadyMigrated, no edit is attempted
    and the driver leaves the file alone. *)
Theorem classification_total_exclusive (T : text) :
  (forall v, selected T v <-> classify T = v)
  /\ (exists v, selected T v /\ forall v', selected T v' -> v' = v)
  /\ (contains (py "use(params)") T = true ->
      classify T = AlreadyMigrated
      /\ migrate_content T = None
      /\ forall w p, (exists f, files w p = Some f /\ readable f = inr T) ->
                     migrate_file p w = (inr false, w)).
Proof.
  assert (A : forall v, selected T v <-> classify T = v).
  { intros v. unfold selected, classify. rewrite already_migrated_spec.
    destruct (contains (py "use(params)") T);
      [|destruct (uses_params_prop _);
        [|destruct (contains (py "useParams()") _)]];
      destruct v; intuition congruence. }
  split; [exact A|]. split.
  - exists (classify T). split; [apply A; reflexivity|].
    intros v' H. apply A in H. congruence.
  - intros H.
    assert (C : classify T = AlreadyMigrated) by (apply A; exact H).
    pose proof (classify_outcome T) as O. rewrite C in O.
    repeat split; try assumption.
    intros w p [f [Hf Hr]]. unfold migrate_file, bind, read_file.
    rewrite Hf, Hr, O. reflexivity.
Qed.

Lemma classification_total_exclusive_witness :
  classify hook_page_migrated = AlreadyMigrated
  /\ migrate_content hook_page_migrated = None.
Proof.
  destruct (proj2 (proj2 (classification_total_exclusive hook_page_migrated))
              eq_refl) as [C [M _]].
  split; assumption.
Defined.

(** C3 at the hook page: the interface, the destructured parameter and
    the unwrap binding are inserted and [taskId] is renamed, but the first
    substitution has already taken [useParams] out of the assignment, so
    the line survives as [const params =();] and the import as an empty
    import. *)
Theorem hook_page_keeps_assignment_line :
  migrate_content hook_page = Some hook_page_migrated
  /\ contains (py "const params =();") hook_page_migrated = true
  /\ contains (py "import {} from 'next/navigation';") hook_page_migrated
     = true
  /\ contains (py "const { id } = use(params);") hook_page_migrated = true
  /\ contains (py "taskId") hook_page_migrated = false.
Proof. vm_compute. repeat split. Qed.

(** ** The drivers *)

Lemma fix_file_readable (p : path) (T : text) (w : world) :
  files w p = Some (File (inr T) true) ->
  Logger.fix_file p w
  = if text_eqb (Logger.fix_content T) T then (inr false, w)
    else (inr true, written p (Logger.fix_content T) w).
Proof.
  intros H. unfold Logger.fix_file, try_except, bind, read_file.
  rewrite H. cbn [readable].
  destruct (text_eqb (Logger.fix_content T) T); cbn [negb]; [reflexivity|].
  unfold write_file. rewrite H. reflexivity.
Qed.

Lemma migrate_file_readable (p : path) (T : text) (w : world) :
  files w p = Some (File (inr T) true) ->
  migrate_file p w
  = if text_eqb (migrate_text T) T then (inr false, w)
    else (inr true, written p (migrate_text T) w).
Proof.
  intros H. unfold migrate_file, migrate_text, bind, read_file.
  rewrite H. cbn [readable].
  destruct (migrate_content T) as [content|].
  - destruct (text_eqb content T); cbn [negb]; [reflexivity|].
    unfold write_file. rewrite H. reflexivity.
  - rewrite text_eqb_refl. reflexivity.
Qed.

(** C8: for a file that can be read and written, each driver writes the
    recipe's output exactly when it differs from the original text, and
    returns whether it differs; otherwise it writes nothing. *)
Theorem driver_writes_iff_changed (p : path) (T : text) (w : world) :
  files w p = Some (File (inr T) true) ->
  (Logger.fix_content T <> T ->
   Logger.fix_file p w = (inr true, written p (Logger.fix_content T) w))
  /\ (Logger.fix_content T = T -> Logger.fix_file p w = (inr false, w))
  /\ (migrate_text T <> T ->
      migrate_file p w = (inr true, written p (migrate_text T) w))
  /\ (migrate_text T = T -> migrate_file p w = (inr false, w)).
Proof.
  intros H.
  rewrite (fix_file_readable p T w H), (migrate_file_readable p T w H).
  repeat split; intros E.
  - apply text_eqb_neq in E. rewrite E. reflexivity.
  - apply text_eqb_eq in E. rewrite E. reflexivity.
  - apply text_eqb_neq in E. rewrite E. reflexivity.
  - apply text_eqb_eq in E. rewrite E. reflexivity.
Qed.

Lemma driver_writes_iff_changed_witness :
  migrate_file "tasks/page.tsx"%string two_pages
  = (inr true,
     written "tasks/page.tsx"%string (migrate_text hook_page) two_pages).
Proof.
  apply (driver_writes_iff_changed "tasks/page.tsx"%string hook_page two_pages).
  - reflexivity.
  - vm_compute. discriminate.
Defined.

(** C8 as stated fails for a file that can be read but not written: the
    output of each recipe differs from the original text, yet the logging
    driver writes nothing and answers [False], and the params driver
    raises before it answers. *)
Lemma driver_does_not_write_read_only_file :
  Logger.fix_content (py "log.error('failed', err, userId)")
  <> py "log.error('failed', err, userId)"
  /\ Logger.fix_file "src/a.ts"%string read_only_files
     = (inr false,
        World (files read_only_files)
              [ErrorProcessing "src/a.ts"%string PermissionDenied])
  /\ migrate_text hook_page <> hook_page
  /\ migrate_file "tasks/page.tsx"%string read_only_files
     = (inl PermissionDenied, read_only_files).
Proof.
  repeat split; try reflexivity; vm_compute; discriminate.
Qed.

Lemma fix_file_total (p : path) (w : world) :
  exists changed w', Logger.fix_file p w = (inr changed, w').
Proof.
  unfold Logger.fix_file, try_except, bind, read_file.
  destruct (files w p) as [[[e|T] wr]|]; cbn [readable];
    try (unfold emit, ret; eauto).
  destruct (negb _); [|unfold ret; eauto].
  unfold write_file.
  destruct (files w p) as [[r [|]]|]; unfold emit, ret; eauto.
Qed.

Lemma fix_all_total (fs : list path) (n : nat) (w : world) :
  exists fixed w', Logger.fix_all fs n w = (inr fixed, w').
Proof.
  revert n w; induction fs as [|p fs IH]; intros n w.
  - unfold Logger.fix_all, ret. eauto.
  - cbn [Logger.fix_all]. unfold bind at 1. unfold path_exists.
    destruct (files w p) eqn:F; cbn [negb]; [|apply IH].
    unfold bind. destruct (fix_file_total p w) as [b [w' ->]].
    destruct b; apply IH.
Qed.

(** C9: the logging driver absorbs every failure of a file and goes on
    with the next, but [migrate_file] has no handler: a page that exists
    and cannot be read ends the whole batch with the exception, and the
    page after it is never migrated.  Only a missing page is passed over,
    by the test of [main]. *)
Theorem params_batch_aborts_on_unreadable_page :
  (forall fs n w, exists fixed w', Logger.fix_all fs n w = (inr fixed, w'))
  /\ Logger.fix_all ["locked/page.tsx"; "tasks/page.tsx"]%string 0 two_pages
     = (inr 0, World (files two_pages)
                     [ErrorProcessing "locked/page.tsx"%string PermissionDenied])
  /\ migrate_file "locked/page.tsx"%string two_pages
     = (inl PermissionDenied, two_pages)
  /\ migrate_all ["locked/page.tsx"; "tasks/page.tsx"]%string [] [] two_pages
     = (inl PermissionDenied, two_pages)
  /\ migrate_all ["gone/page.tsx"; "tasks/page.tsx"]%string [] [] two_pages
     = (inr (["tasks/page.tsx"], ["gone/page.tsx"])%string,
        written "tasks/page.tsx"%string hook_page_migrated
          (World (files two_pages) [NotFoundNotice "gone/page.tsx"%string])).
Proof.
  split; [exact fix_all_total|]. repeat split; reflexivity.
Qed.

(** ** The matcher *)

Lemma prev_after_app (prev : option ascii) (a b : text) :
  prev_after prev (a ++ b) = prev_after (prev_after prev a) b.
Proof. apply fold_left_app. Qed.

Lemma orelse_some {A} (x y : option A) (v : A) :
  orelse x y = Some v -> x = Some v \/ (x = None /\ y = Some v).
Proof. destruct x; simpl; auto. Qed.

Lemma sound_empty (r : regex) (k : cont) prev s i gs res :
  matches r [] -> k prev s i gs = Some res ->
  exists a b gs',
    s = a ++ b /\ matches r a
    /\ k (prev_after prev a) b (i + length a) gs' = Some res
    /\ (group_free r = true -> gs' = gs).
Proof.
  intros M H. exists [], s, gs. simpl. rewrite Nat.add_0_r. auto.
Qed.

Lemma rep_greedy_sound (p : ascii -> bool) : sound_for (Rep p).
Proof.
  intros k prev s. revert prev.
  induction s as [|c s IH]; intros prev i gs res H; cbn [run] in *.
  - apply sound_empty; [constructor; reflexivity | exact H].
  - cbn [rep_greedy] in H. destruct (p c) eqn:Hc.
    + apply orelse_some in H. destruct H as [H | [_ H]].
      * destruct (IH _ _ _ _ H) as [a [b [gs' [E [M [K G]]]]]].
        exists (c :: a), b, gs'. subst s. inversion M; subst.
        split; [reflexivity|]. split; [|split; [|exact G]].
        -- constructor. simpl. rewrite Hc. assumption.
        -- cbn [length]. rewrite <- Nat.add_succ_comm. exact K.
      * apply sound_empty; [constructor; reflexivity | exact H].
    + apply sound_empty; [constructor; reflexivity | exact H].
Qed.

Lemma rep_lazy_sound (p : ascii -> bool) : sound_for (RepLazy p).
Proof.
  intros k prev s. revert prev.
  induction s as [|c s IH]; intros prev i gs res H; cbn [run] in *.
  - cbn [rep_lazy] in H. destruct (k prev [] i gs) eqn:K; [|discriminate].
    apply sound_empty; [constructor; reflexivity | congruence].
  - cbn [rep_lazy] in H. destruct (k prev (c :: s) i gs) eqn:K.
    + apply sound_empty; [constructor; reflexivity | congruence].
    + destruct (p c) eqn:Hc; [|discriminate].
      destruct (IH _ _ _ _ H) as [a [b [gs' [E [M [K' G]]]]]].
      exists (c :: a), b, gs'. subst s. inversion M; subst.
      split; [reflexivity|]. split; [|split; [|exact G]].
      * constructor. simpl. rewrite Hc. assumption.
      * cbn [length]. rewrite <- Nat.add_succ_comm. exact K'.
Qed.

Lemma run_sound (r : regex) : sound_for r.
Proof.
  induction r as [|p|r1 IH1 r2 IH2|r1 IH1 r2 IH2|r1 IH1|p|p|n r1 IH1| | |];
    try (intros k prev s i gs res H; cbn [run] in H).
  - apply sound_empty; [constructor | exact H].
  - destruct s as [|c s]; [discriminate|].
    destruct (p c) eqn:Hc; [|discriminate].
    exists [c], s, gs. simpl. rewrite Nat.add_1_r.
    repeat split; auto. constructor. exact Hc.
  - destruct (IH1 _ _ _ _ _ _ H) as [a1 [b1 [gs1 [E1 [M1 [K1 G1]]]]]].
    destruct (IH2 _ _ _ _ _ _ K1) as [a2 [b2 [gs2 [E2 [M2 [K2 G2]]]]]].
    exists (a1 ++ a2), b2, gs2. subst s b1.
    rewrite <- app_assoc, prev_after_app, length_app, Nat.add_assoc.
    repeat split; auto.
    + constructor; assumption.
    + simpl. rewrite andb_true_iff. intros [F1 F2].
      rewrite (G2 F2). apply G1, F1.
  - apply orelse_some in H. destruct H as [H | [_ H]].
    + destruct (IH1 _ _ _ _ _ _ H) as [a [b [gs' [E [M [K G]]]]]].
      exists a, b, gs'. repeat split; auto.
      * apply matches_alt_l, M.
      * simpl. rewrite andb_true_iff. intros [F _]. auto.
    + destruct (IH2 _ _ _ _ _ _ H) as [a [b [gs' [E [M [K G]]]]]].
      exists a, b, gs'. repeat split; auto.
      * apply matches_alt_r, M.
      * simpl. rewrite andb_true_iff. intros [_ F]. auto.
  - apply orelse_some in H. destruct H as [H | [_ H]].
    + destruct (IH1 _ _ _ _ _ _ H) as [a [b [gs' [E [M [K G]]]]]].
      exists a, b, gs'. repeat split; auto. apply matches_opt_some, M.
    + apply sound_empty; [apply matches_opt_none | exact H].
  - exact (rep_greedy_sound p k prev s i gs res H).
  - exact (rep_lazy_sound p k prev s i gs res H).
  - destruct (IH1 _ _ _ _ _ _ H) as [a [b [gs' [E [M [K G]]]]]].
    exists a, b, ((n, (i, i + length a)) :: gs').
    repeat split; auto; [constructor; exact M | discriminate].
  - destruct (xorb _ _); [|discriminate].
    apply sound_empty; [constructor | exact H].
  - destruct prev; [discriminate|].
    apply sound_empty; [constructor | exact H].
  - destruct s as [|c [|d s]]; try discriminate.
    + apply sound_empty; [constructor | exact H].
    + destruct (Ascii.eqb c newline); [|discriminate].
      apply sound_empty; [constructor | exact H].
Qed.

(** A match found at the current position is a prefix of the input that
    the pattern matches. *)
Lemma match_here_sound (r : regex) prev (s : text) len gs :
  match_here r prev s = Some (len, gs) ->
  exists a b, s = a ++ b /\ len = length a /\ matches r a.
Proof.
  intros H. destruct (run_sound r _ _ _ _ _ _ H) as [a [b [gs' [E [M [K _]]]]]].
  unfold accept in K. injection K as <- _. eauto.
Qed.

Lemma firstn_length_app {A} (a b : list A) : firstn (length a) (a ++ b) = a.
Proof.
  rewrite firstn_app, Nat.sub_diag, firstn_all. simpl. apply app_nil_r.
Qed.

Lemma skipn_length_app {A} (a b : list A) : skipn (length a) (a ++ b) = b.
Proof.
  rewrite skipn_app, Nat.sub_diag, skipn_all. reflexivity.
Qed.

(** ** The scan of [re.sub] *)

Lemma sub_from_skip r repl limit (a b : text) prev pos :
  sub_from r repl limit (length a) prev (a ++ b) pos
  = sub_from r repl limit 0 (prev_after prev a) b (pos + length a).
Proof.
  revert prev pos; induction a as [|c a IH]; intros prev pos.
  - simpl. rewrite Nat.add_0_r. reflexivity.
  - cbn [length app]. cbn [sub_from]. rewrite IH.
    simpl. rewrite <- Nat.add_succ_comm. reflexivity.
Qed.

(** One replacement: the replacement text, then the scan goes on after
    the match. *)
Lemma sub_from_match r repl limit prev (s : text) pos len gs :
  exhausted limit = false ->
  match_here r prev s = Some (len, gs) -> 0 < len ->
  exists a b,
    s = a ++ b /\ len = length a /\ matches r a
    /\ sub_from r repl limit 0 prev s pos
       = repl (Match pos a gs)
         ++ sub_from r repl (spend limit) 0 (prev_after prev a) b (pos + len).
Proof.
  intros L H Hlen.
  destruct (match_here_sound _ _ _ _ _ H) as [a [b [E [El M]]]].
  exists a, b. repeat split; auto. subst s len.
  destruct a as [|c a]; [simpl in Hlen; lia|].
  cbn [app]. cbn [sub_from]. rewrite L. cbn [app] in H. rewrite H.
  cbn [length]. rewrite Nat.sub_succ, Nat.sub_0_r. cbn [Nat.eqb app].
  rewrite sub_from_skip.
  change (firstn (S (length a)) (c :: a ++ b))
    with (c :: firstn (length a) (a ++ b)).
  rewrite firstn_length_app, <- Nat.add_succ_comm. reflexivity.
Qed.

Lemma sub_from_miss r repl limit prev (s : text) pos :
  match_here r prev s = None ->
  sub_from r repl limit 0 prev s pos
  = match s with
    | [] => []
    | c :: s' => c :: sub_from r repl limit 0 (Some c) s' (S pos)
    end.
Proof.
  intros H. destruct s; cbn [sub_from]; rewrite H;
    destruct (exhausted limit); reflexivity.
Qed.

Lemma sub_from_exhausted r repl skip prev (s : text) pos :
  sub_from r repl (Some 0) skip prev s pos = skipn skip s.
Proof.
  revert skip prev pos; induction s as [|c s IH]; intros skip prev pos.
  - destruct skip; reflexivity.
  - destruct skip; cbn [sub_from exhausted skipn]; rewrite IH; reflexivity.
Qed.

Lemma search_from_start r prev (s : text) pos m :
  search_from r prev s pos = Some m -> pos <= m_start m.
Proof.
  revert prev pos; induction s as [|c s IH]; intros prev pos;
    cbn [search_from]; destruct (match_here _ _ _) as [[len gs]|].
  - intros E. injection E as <-. simpl. lia.
  - discriminate.
  - intros E. injection E as <-. simpl. lia.
  - intros H. apply IH in H. lia.
Qed.

(** [count=1]: the first match is replaced, the rest of the text is
    kept. *)
Lemma sub_from_once r repl prev (s : text) pos :
  sub_from r repl (Some 1) 0 prev s pos
  = match search_from r prev s pos with
    | Some m =>
        firstn (m_start m - pos) s ++ repl m
        ++ skipn (m_start m - pos + length (m_text m)) s
    | None => s
    end.
Proof.
  revert prev pos; induction s as [|c s IH]; intros prev pos.
  - cbn [sub_from search_from exhausted].
    destruct (match_here r prev []) as [[len gs]|]; [|reflexivity].
    cbn [m_start]. rewrite Nat.sub_diag, skipn_nil, app_nil_r. reflexivity.
  - cbn [sub_from search_from exhausted].
    destruct (match_here r prev (c :: s)) as [[len gs]|] eqn:H.
    + cbn [m_start m_text]. rewrite Nat.sub_diag. cbn [firstn app Nat.add].
      f_equal. cbn [spend option_map Nat.pred].
      rewrite sub_from_exhausted.
      destruct (match_here_sound _ _ _ _ _ H) as [a [b [E [El M]]]].
      rewrite E, El, firstn_length_app.
      destruct a as [|x a];
        [simpl in E; subst b; symmetry; apply skipn_length_app with (a := [])|].
      cbn [length Nat.eqb app]. rewrite Nat.sub_succ, Nat.sub_0_r.
      cbn [app] in E. injection E as _ ->. reflexivity.
    + rewrite IH. destruct (search_from r (Some c) s (S pos)) eqn:F;
        [|reflexivity].
      apply search_from_start in F.
      replace (m_start m - pos) with (S (m_start m - S pos)) by lia.
      reflexivity.
Qed.

Lemma re_sub_count_once r repl (s : text) :
  re_sub_count r repl s 1
  = match re_search r s with
    | Some m =>
        firstn (m_start m) s ++ repl m
        ++ skipn (m_start m + length (m_text m)) s
    | None => s
    end.
Proof.
  unfold re_sub_count, re_search. rewrite sub_from_once.
  destruct (search_from r None s 0); [|reflexivity].
  rewrite Nat.sub_0_r. reflexivity.
Qed.

(** ** The matcher on known cases

    The values on the right are those of Python's [re] and [str] on the
    same inputs. *)

Example sub_empty_matches :
  re_sub (Rep (ch "x"%char)) (fun _ => py "-") (py "abxd") = py "-a-b--d-".
Proof. reflexivity. Qed.

Example sub_erases_hook_name :
  re_sub (chain [Opt (lit ","); ws; lit "useParams"; ws]) (fun _ => [])
         (unlines ["import { useParams } from 'n';";
                   "  const params = useParams();"]%string)
  = unlines ["import {} from 'n';"; "  const params =();"]%string.
Proof. reflexivity. Qed.

Example sub_template_groups :
  re_sub_count Params.react_import_re Params.add_use
               (py "import { useState } from 'react';") 1
  = py "import { use,  useState } from 'react';".
Proof. reflexivity. Qed.

Example sub_backtracks_over_blanks :
  re_sub (Params.extraction_re (py "taskId") (py ".") (py "id")) (fun _ => [])
         (unlines ["  const taskId = params.id as string;";
                   "  return x;"]%string)
  = unlines ["    return x;"]%string.
Proof. reflexivity. Qed.

Example search_optional_lazy_group :
  option_map (fun m => (m_start m, group_start m 2))
    (re_search Params.component_re
       (unlines ["a"; "export const dynamic = 'x';"; ""]%string
        ++ py "export default function P() {"))
  = Some (2, Some 31).
Proof. reflexivity. Qed.

Example sub_call_boundaries :
  re_sub Logger.pattern (fun m => py "<" ++ group m 2 ++ py ">")
         (py "log.info(f(a, b), c) log.warn() log.error(x")
  = py "<f(a, b>, c) log.warn() log.error(x".
Proof. reflexivity. Qed.

Example match_dollar_before_final_newline :
  found (re_match Logger.identifier_re (py "abc" ++ [newline])) = true.
Proof. reflexivity. Qed.

Example strip_separators :
  strip (ascii_of_nat 28 :: py " a " ++ [ascii_of_nat 133; ascii_of_nat 160])
  = py "a".
Proof. reflexivity. Qed.

(** The scenarios of the logging recipe. *)
Example logging_one_argument :
  Logger.fix_content (py "log.error(" ++ dquote :: py "boom" ++ dquote :: py ")")
  = py "log.error(" ++ dquote :: py "boom" ++ dquote :: py ")".
Proof. reflexivity. Qed.

Example logging_object_present :
  Logger.fix_content (py "log.warn('slow', { ms: 200 })")
  = py "log.warn('slow', { ms: 200 })".
Proof. reflexivity. Qed.

Example logging_expression_folding :
  Logger.fix_content (py "log.warn('slow', `took ${ms}ms`)")
  = py "log.warn('slow', { arg1: `took ${ms}ms` })".
Proof. reflexivity. Qed.

(** The prop-pattern scenario of the params recipe. *)
Example params_prop_scenario :
  Params.migrate_content
    (unlines ["interface PageProps { params: { id: string } }";
              "export default function Page({ params }: PageProps) {";
              "  return params.id; }"]%string)
  = Some (unlines
            ["interface PageProps { params: Promise<{ id: string }> }";
             "export default function Page({ params }: PageProps) {";
             "  const { id } = use(params);";
             "  return id; }"]%string).
Proof. reflexivity. Qed.

(** ** The React import of the params migration *)

Lemma matches_lit_text (l a : text) : matches (lit_text l) a -> a = l.
Proof.
  revert a; induction l as [|c l IH]; intros a M.
  - inversion M. reflexivity.
  - destruct l as [|d l].
    + inversion M as [|p x Hx| | | | | | | | | | |]; subst.
      apply Ascii.eqb_eq in Hx. subst. reflexivity.
    + cbn [lit_text] in M.
      inversion M as [| |r1 r2 x y Mx My| | | | | | | | | |]; subst.
      inversion Mx as [|p z Hz| | | | | | | | | | |]; subst.
      apply Ascii.eqb_eq in Hz. subst.
      rewrite (IH _ My). reflexivity.
Qed.

Lemma matches_rep_inv (p : ascii -> bool) (a : text) :
  matches (Rep p) a -> forallb p a = true.
Proof. intros M. inversion M. assumption. Qed.

Lemma matches_cat_inv (r1 r2 : regex) (a : text) :
  matches (Cat r1 r2) a ->
  exists x y, a = x ++ y /\ matches r1 x /\ matches r2 y.
Proof. intros M. inversion M; subst. eauto. Qed.

Lemma search_from_found r prev (s : text) pos m :
  search_from r prev s pos = Some m ->
  exists pre a b prev',
    s = pre ++ a ++ b /\ m_start m = pos + length pre /\ m_text m = a
    /\ match_here r prev' (a ++ b) = Some (length a, m_groups m).
Proof.
  revert prev pos; induction s as [|c s IH]; intros prev pos;
    cbn [search_from]; destruct (match_here _ _ _) as [[len gs]|] eqn:H;
    try discriminate.
  - intros E. injection E as <-.
    destruct (match_here_sound _ _ _ _ _ H) as [a [b [E [El M]]]].
    exists [], a, b, prev. subst len.
    cbn [m_start m_text m_groups length app].
    split; [exact E|]. split; [lia|].
    split; [rewrite E; apply firstn_length_app | rewrite <- E; exact H].
  - intros E. injection E as <-.
    destruct (match_here_sound _ _ _ _ _ H) as [a [b [E [El M]]]].
    exists [], a, b, prev. subst len.
    cbn [m_start m_text m_groups length app].
    split; [exact E|]. split; [lia|].
    split; [rewrite E; apply firstn_length_app | rewrite <- E; exact H].
  - intros F. destruct (IH _ _ F) as [pre [a [b [prev' [E [Es [Et Hm]]]]]]].
    exists (c :: pre), a, b, prev'. subst s. simpl.
    rewrite <- Nat.add_succ_comm. auto.
Qed.

(** A match of the import pattern is its three groups one after the
    other. *)
Lemma react_import_groups prev (s : text) len gs :
  match_here react_import_re prev s = Some (len, gs) ->
  exists a1 a2 a3,
    firstn len s = a1 ++ a2 ++ a3
    /\ matches (chain [lit "import"; ws; lit "{"]) a1
    /\ matches (Rep (not_ch "}"%char)) a2
    /\ matches (chain from_react) a3
    /\ forall start,
         group (Match start (firstn len s) gs) 1 = a1
         /\ group (Match start (firstn len s) gs) 2 = a2
         /\ group (Match start (firstn len s) gs) 3 = a3.
Proof.
  intros H.
  change (run (chain [lit "import"; ws; lit "{"])
            (fun p1 s1 i1 gs1 =>
               run (Rep (not_ch "}"%char))
                 (fun p2 s2 i2 gs2 =>
                    run (chain from_react)
                      (fun p3 s3 i3 gs3 =>
                         accept p3 s3 i3 ((3, (i2, i3)) :: gs3))
                      p2 s2 i2 ((2, (i1, i2)) :: gs2))
                 p1 s1 i1 ((1, (0, i1)) :: gs1))
            prev s 0 [] = Some (len, gs)) in H.
  destruct (run_sound _ _ _ _ _ _ _ H) as [a1 [b1 [gs1 [E1 [M1 [H1 G1]]]]]].
  rewrite (G1 eq_refl) in H1. clear H G1 gs1.
  destruct (run_sound _ _ _ _ _ _ _ H1) as [a2 [b2 [gs2 [E2 [M2 [H2 G2]]]]]].
  rewrite (G2 eq_refl) in H2. clear H1 G2 gs2.
  destruct (run_sound _ _ _ _ _ _ _ H2) as [a3 [b3 [gs3 [E3 [M3 [H G3]]]]]].
  rewrite (G3 eq_refl) in H. clear H2 G3 gs3.
  unfold accept in H. injection H as <- <-.
  exists a1, a2, a3. subst s b1 b2.
  assert (F : firstn (length a1 + length a2 + length a3)
                (a1 ++ a2 ++ a3 ++ b3) = a1 ++ a2 ++ a3).
  { replace (length a1 + length a2 + length a3)
      with (length (a1 ++ a2 ++ a3)) by (rewrite !length_app; lia).
    rewrite !app_assoc, firstn_length_app. reflexivity. }
  rewrite F.
  repeat split; try assumption; unfold group; cbn [lookup_group Nat.eqb m_groups m_text].
  - rewrite Nat.sub_0_r. apply firstn_length_app.
  - simpl Nat.add. rewrite skipn_length_app.
    replace (length a1 + length a2 - length a1) with (length a2) by lia.
    apply firstn_length_app.
  - simpl Nat.add. rewrite app_assoc, <- length_app, skipn_length_app.
    replace (length (a1 ++ a2) + length a3 - length (a1 ++ a2))
      with (length a3) by lia.
    rewrite <- (app_nil_r a3) at 2. apply firstn_length_app.
Qed.

Lemma import_head_shape (a : text) :
  matches (chain [lit "import"; ws; lit "{"]) a ->
  exists w, a = py "import" ++ w ++ py "{" /\ forallb is_space w = true.
Proof.
  cbn [chain]. intros M.
  apply matches_cat_inv in M. destruct M as [x [y [-> [Mx M]]]].
  apply matches_cat_inv in M. destruct M as [w [z [-> [Mw Mz]]]].
  apply matches_lit_text in Mx, Mz. apply matches_rep_inv in Mw.
  subst. eauto.
Qed.

Lemma from_react_shape (a : text) :
  matches (chain from_react) a ->
  exists w2 w3 q1 q2,
    a = py "}" ++ w2 ++ py "from" ++ w3 ++ q1 :: py "react" ++ [q2]
    /\ forallb is_space w2 = true /\ forallb is_space w3 = true
    /\ quote_class q1 = true /\ quote_class q2 = true.
Proof.
  unfold from_react. cbn [chain]. intros M.
  apply matches_cat_inv in M. destruct M as [a1 [r1 [-> [M1 M]]]].
  apply matches_cat_inv in M. destruct M as [w2 [r2 [-> [M2 M]]]].
  apply matches_cat_inv in M. destruct M as [a3 [r3 [-> [M3 M]]]].
  apply matches_cat_inv in M. destruct M as [w3 [r4 [-> [M4 M]]]].
  apply matches_cat_inv in M. destruct M as [x1 [r5 [-> [M5 M]]]].
  apply matches_cat_inv in M. destruct M as [a6 [x2 [-> [M6 M7]]]].
  apply matches_lit_text in M1, M3, M6. subst a1 a3 a6.
  apply matches_rep_inv in M2, M4.
  inversion M5 as [|p q1 H1| | | | | | | | | | |]; subst.
  inversion M7 as [|p q2 H2| | | | | | | | | | |]; subst.
  exists w2, w3, q1, q2. auto.
Qed.

(** C10, as the code has it: when the text is not already migrated,
    names React in a [from] clause, has no React import that lists [use]
    and has a React import whose brace list follows the word [import]
    directly, then a text classified HookPattern is handed to the hook
    edits with [use] inserted right after that opening brace. *)
Theorem use_injected_before_hook_edits (T : text) :
  already_migrated T = false ->
  (contains (py "from " ++ dquote :: py "react" ++ [dquote]) T
   || contains (py "from 'react'") T) = true ->
  found (re_search use_imported_re T) = false ->
  found (re_search react_import_re T) = true ->
  classify T = HookPattern ->
  exists pre w names w2 w3 q1 q2 post,
    T = pre ++ py "import" ++ w ++ py "{" ++ names
        ++ py "}" ++ w2 ++ py "from" ++ w3 ++ q1 :: py "react" ++ q2 :: post
    /\ forallb is_space (w ++ w2 ++ w3) = true
    /\ forallb (not_ch "}"%char) names = true
    /\ quote_class q1 = true /\ quote_class q2 = true
    /\ add_use_import T
       = pre ++ py "import" ++ w ++ py "{" ++ py " use, " ++ names
         ++ py "}" ++ w2 ++ py "from" ++ w3 ++ q1 :: py "react" ++ q2 :: post
    /\ migrate_content T
       = Some (migrate_hook (detect_param_name T) (add_use_import T)).
Proof.
  intros A Hfrom Huse Himp C.
  pose proof (classify_outcome T) as O. rewrite C in O.
  destruct (re_search react_import_re T) as [m|] eqn:S; [|discriminate].
  assert (I : add_use_import T
              = firstn (m_start m) T ++ add_use m
                ++ skipn (m_start m + length (m_text m)) T).
  { unfold add_use_import. rewrite Hfrom, Huse. cbn [negb].
    rewrite re_sub_count_once, S. reflexivity. }
  unfold re_search in S.
  destruct (search_from_found _ _ _ _ _ S)
    as [pre [a [b [prev' [E [Es [Et Hm]]]]]]].
  destruct (react_import_groups _ _ _ _ Hm) as [a1 [a2 [a3 [Ea [M1 [M2 [M3 G]]]]]]].
  rewrite firstn_length_app in Ea, G.
  destruct (G (m_start m)) as [G1 [G2 G3]].
  destruct (import_head_shape _ M1) as [w [E1 Hw]].
  assert (Em : m = Match (m_start m) a (m_groups m))
    by (destruct m; simpl in *; congruence).
  assert (F1 : firstn (m_start m) T = pre)
    by (rewrite Es, E; apply firstn_length_app).
  assert (F2 : skipn (m_start m + length (m_text m)) T = b).
  { rewrite Es, Et, E. cbn [Nat.add].
    rewrite <- length_app, app_assoc. apply skipn_length_app. }
  assert (F3 : add_use m = a1 ++ py " use, " ++ a2 ++ a3).
  { unfold add_use. rewrite Em, G1, G2, G3. reflexivity. }
  rewrite F1, F2, F3 in I. apply matches_rep_inv in M2.
  destruct (from_react_shape _ M3) as [w2 [w3 [q1 [q2 [E3 [H2 [H3 [Q1 Q2]]]]]]]].
  exists pre, w, a2, w2, w3, q1, q2, b. repeat split; try assumption.
  - rewrite E, Ea, E1, E3. cbn [app]. rewrite <- !app_assoc.
    cbn [app]. rewrite <- !app_assoc. reflexivity.
  - rewrite !forallb_app, Hw, H2, H3. reflexivity.
  - rewrite I, E1, E3. cbn [app]. rewrite <- !app_assoc.
    cbn [app]. rewrite <- !app_assoc. reflexivity.
Qed.

Lemma use_injected_before_hook_edits_witness :
  exists pre w names w2 w3 q1 q2 post,
    hook_page_react "import { useState } from 'react';"
    = pre ++ py "import" ++ w ++ py "{" ++ names
      ++ py "}" ++ w2 ++ py "from" ++ w3 ++ q1 :: py "react" ++ q2 :: post
    /\ forallb is_space (w ++ w2 ++ w3) = true
    /\ forallb (not_ch "}"%char) names = true
    /\ quote_class q1 = true /\ quote_class q2 = true
    /\ add_use_import (hook_page_react "import { useState } from 'react';")
       = pre ++ py "import" ++ w ++ py "{" ++ py " use, " ++ names
         ++ py "}" ++ w2 ++ py "from" ++ w3 ++ q1 :: py "react" ++ q2 :: post
    /\ migrate_content (hook_page_react "import { useState } from 'react';")
       = Some (migrate_hook
                 (detect_param_name
                    (hook_page_react "import { useState } from 'react';"))
                 (add_use_import
                    (hook_page_react "import { useState } from 'react';"))).
Proof.
  apply (use_injected_before_hook_edits
           (hook_page_react "import { useState } from 'react';"));
    reflexivity.
Defined.

(** C10 as stated fails on a React import whose brace list comes after
    a default import: the page is classified HookPattern, the import
    lacks [use], and the migration leaves the import as it was. *)
Lemma use_not_injected_after_default_import :
  already_migrated
    (hook_page_react "import React, { useState } from 'react';") = false
  /\ classify (hook_page_react "import React, { useState } from 'react';")
     = HookPattern
  /\ add_use_import (hook_page_react "import React, { useState } from 'react';")
     = hook_page_react "import React, { useState } from 'react';"
  /\ (exists out,
        migrate_content
          (hook_page_react "import React, { useState } from 'react';")
        = Some out
        /\ contains (py "import React, { useState } from 'react';") out = true
        /\ contains (py "use,") out = false).
Proof.
  repeat split; try reflexivity.
  eexists. repeat split; vm_compute; reflexivity.
Qed.

(** ** The pattern of the logging recipe as a scanner *)

Lemma strip_prefix_spec (p s r : text) :
  strip_prefix p s = Some r <-> s = p ++ r.
Proof.
  unfold strip_prefix. destruct (startswith p s) eqn:E.
  - apply startswith_spec in E. destruct E as [t ->].
    rewrite skipn_length_app. split.
    + intros H. injection H as ->. reflexivity.
    + intros H. apply app_inv_head in H. subst. reflexivity.
  - split; [discriminate|]. intros ->.
    rewrite startswith_app in E. discriminate.
Qed.

Lemma strip_prefix_app (p r : text) : strip_prefix p (p ++ r) = Some r.
Proof. apply strip_prefix_spec. reflexivity. Qed.

Lemma run_lit_text (l : text) (k : cont) prev (s : text) i gs :
  run (lit_text l) k prev s i gs
  = match strip_prefix l s with
    | Some r => k (prev_after prev l) r (i + length l) gs
    | None => None
    end.
Proof.
  revert prev s i; induction l as [|c l IH]; intros prev s i.
  - simpl. unfold strip_prefix. simpl. rewrite Nat.add_0_r. reflexivity.
  - assert (E : run (lit_text (c :: l)) k prev s i gs
                = match s with
                  | x :: s' =>
                      if ch c x then run (lit_text l) k (Some x) s' (S i) gs
                      else None
                  | [] => None
                  end).
    { destruct l; destruct s; reflexivity. }
    rewrite E. destruct s as [|x s]; [reflexivity|].
    unfold strip_prefix, ch. cbn [startswith].
    destruct (Ascii.eqb c x) eqn:Hc; [|reflexivity].
    apply Ascii.eqb_eq in Hc. subst x. rewrite IH. unfold strip_prefix.
    cbn [andb length skipn]. destruct (startswith l s); [|reflexivity].
    simpl. rewrite <- Nat.add_succ_comm. reflexivity.
Qed.

Lemma span_spec (p : ascii -> bool) (s : text) :
  s = fst (span p s) ++ snd (span p s)
  /\ forallb p (fst (span p s)) = true
  /\ match snd (span p s) with [] => True | c :: _ => p c = false end.
Proof.
  induction s as [|c s [E [F N]]]; simpl; auto.
  destruct (p c) eqn:Hc.
  - destruct (span p s) as [a b]. simpl in *. rewrite Hc, F.
    repeat split; [congruence | exact N].
  - simpl. auto.
Qed.

Lemma span_app (p : ascii -> bool) (a : text) (c : ascii) (r : text) :
  forallb p a = true -> p c = false -> span p (a ++ c :: r) = (a, c :: r).
Proof.
  intros F Hc. induction a as [|x a IH]; simpl.
  - rewrite Hc. reflexivity.
  - simpl in F. rewrite andb_true_iff in F. destruct F as [-> F].
    rewrite (IH F). reflexivity.
Qed.

(** A greedy repetition whose continuation succeeds after the longest
    run returns that. *)
Lemma rep_greedy_max (p : ascii -> bool) (k : cont) (a b : text) prev i gs res :
  forallb p a = true ->
  match b with [] => True | c :: _ => p c = false end ->
  k (prev_after prev a) b (i + length a) gs = Some res ->
  rep_greedy p k prev (a ++ b) i gs = Some res.
Proof.
  revert prev i; induction a as [|x a IH]; intros prev i F N K.
  - simpl in *. rewrite Nat.add_0_r in K.
    destruct b as [|c b]; [exact K|]. simpl. rewrite N. exact K.
  - simpl in F. rewrite andb_true_iff in F. destruct F as [Hx F].
    cbn [app rep_greedy]. rewrite Hx.
    rewrite (IH (Some x) (S i) F N); [reflexivity|].
    simpl in K. rewrite <- Nat.add_succ_comm in K. exact K.
Qed.

Lemma not_rparen_rparen : not_ch ")"%char ")"%char = false.
Proof. reflexivity. Qed.

Lemma call_at_sound (s level args rest : text) :
  call_at s = Some (level, args, rest) ->
  In level (map py levels)
  /\ s = call_text level args ++ rest
  /\ args <> []
  /\ forallb (not_ch ")"%char) args = true.
Proof.
  unfold call_at.
  destruct (strip_prefix (py "log.") s) as [s1|] eqn:E1; [|discriminate].
  apply strip_prefix_spec in E1.
  destruct (first_level levels s1) as [[lv s2]|] eqn:E2; [|discriminate].
  assert (L : In lv (map py levels) /\ s1 = lv ++ py "(" ++ s2).
  { clear E1. unfold levels in *. cbn [first_level] in E2.
    repeat match type of E2 with
    | match strip_prefix ?p s1 with _ => _ end = _ =>
        let F := fresh in
        destruct (strip_prefix p s1) eqn:F;
          [apply strip_prefix_spec in F; injection E2 as <- <-;
           split; [simpl; tauto | rewrite F, <- app_assoc; reflexivity]|]
    end.
    discriminate. }
  destruct L as [L ->].
  pose proof (span_spec (not_ch ")"%char) s2) as [E [F N]].
  destruct (span (not_ch ")"%char) s2) as [[|a0 a] [|c r]]; try discriminate.
  intros H. inversion H; subst level args rest. clear H. simpl in E, F, N.
  assert (c = ")"%char).
  { unfold not_ch in N. apply negb_false_iff, Ascii.eqb_eq in N. auto. }
  subst c. repeat split; try assumption; try discriminate.
  rewrite E1, E. unfold call_text. rewrite <- !app_assoc. reflexivity.
Qed.

Lemma call_at_complete (level args rest : text) :
  In level (map py levels) -> args <> [] ->
  forallb (not_ch ")"%char) args = true ->
  call_at (call_text level args ++ rest) = Some (level, args, rest).
Proof.
  intros L Ha F. unfold call_at, call_text.
  rewrite <- !app_assoc, strip_prefix_app.
  assert (E : first_level levels (level ++ py "(" ++ args ++ py ")" ++ rest)
              = Some (level, args ++ py ")" ++ rest)).
  { simpl in L. decompose [or] L; try contradiction; subst level; reflexivity. }
  rewrite E. simpl app. rewrite (span_app _ _ _ _ F not_rparen_rparen).
  destruct args; [contradiction|reflexivity].
Qed.

Lemma group_of_call start (level args : text) :
  let m := Match start (call_text level args) (call_groups level args) in
  group m 0 = call_text level args /\ group m 1 = level /\ group m 2 = args.
Proof.
  unfold group, call_groups, call_text.
  cbn [lookup_group Nat.eqb m_groups m_text].
  repeat split.
  - change (py "log.") with (firstn 4 (py "log.") ++ []).
    simpl skipn.
    replace (4 + length level - 4) with (length level) by lia.
    apply firstn_length_app.
  - replace (5 + length level + length args - (5 + length level))
      with (length args) by lia.
    replace (py "log." ++ level ++ py "(" ++ args ++ py ")")
      with ((py "log." ++ level ++ py "(") ++ args ++ py ")")
      by (rewrite <- !app_assoc; reflexivity).
    replace (5 + length level) with (length (py "log." ++ level ++ py "("))
      by (rewrite !length_app; simpl; lia).
    rewrite skipn_length_app. apply firstn_length_app.
Qed.

Lemma pattern_at_call prev (level args rest : text) :
  In level (map py levels) -> args <> [] ->
  forallb (not_ch ")"%char) args = true ->
  match_here pattern prev (call_text level args ++ rest)
  = Some (length (call_text level args), call_groups level args).
Proof.
  intros L Ha F. destruct args as [|c args]; [contradiction|].
  cbn [forallb] in F. rewrite andb_true_iff in F. destruct F as [Hc F].
  unfold match_here, call_groups.
  replace (call_text level (c :: args) ++ rest)
    with (py "log." ++ level ++ py "(" ++ c :: args ++ ")"%char :: rest)
    by (unfold call_text; rewrite <- !app_assoc; reflexivity).
  unfold call_text.
  simpl in L. decompose [or] L; try contradiction; subst level;
    cbn -[not_ch rep_greedy]; rewrite Hc;
    (erewrite rep_greedy_max;
     [ | exact F | reflexivity | cbn -[not_ch]; reflexivity ]);
    cbn [orelse]; rewrite !length_app; cbn [length];
    repeat f_equal; lia.
Qed.

Lemma span_long (p : ascii -> bool) (x z : text) :
  x <> [] -> forallb p x = true -> forallb p z = false ->
  exists a0 a c r, span p (x ++ z) = (a0 :: a, c :: r).
Proof.
  intros Hx F Z. destruct x as [|x0 x]; [contradiction|]. clear Hx.
  simpl in F. rewrite andb_true_iff in F. destruct F as [H0 F].
  simpl. rewrite H0.
  assert (T : exists a c r, span p (x ++ z) = (a, c :: r)).
  { clear H0. induction x as [|y x IH]; simpl.
    - clear F. induction z as [|y z IH]; [discriminate|].
      simpl in *. destruct (p y); [|eauto].
      destruct (IH Z) as [a [c [r ->]]]. eauto.
    - simpl in F. rewrite andb_true_iff in F. destruct F as [-> F].
      destruct (IH F) as [a [c [r ->]]]. eauto. }
  destruct T as [a [c [r ->]]]. eauto.
Qed.

Lemma first_level_found (level r : text) :
  In level (map py levels) ->
  first_level levels (level ++ py "(" ++ r) = Some (level, r).
Proof.
  intros L. simpl in L.
  decompose [or] L; try contradiction; subst level; reflexivity.
Qed.

(** What the pattern can match: a call whose argument text starts with a
    run free of closing parentheses. *)
Lemma pattern_shape (a : text) :
  matches pattern a ->
  exists level x y,
    In level (map py levels) /\ x <> []
    /\ forallb (not_ch ")"%char) x = true
    /\ a = py "log." ++ level ++ py "(" ++ x ++ y ++ py ")".
Proof.
  unfold pattern. cbn [chain]. intros M.
  apply matches_cat_inv in M. destruct M as [a1 [r1 [-> [M1 M]]]].
  apply matches_cat_inv in M. destruct M as [a2 [r2 [-> [M2 M]]]].
  apply matches_cat_inv in M. destruct M as [a3 [r3 [-> [M3 M]]]].
  apply matches_cat_inv in M. destruct M as [a4 [a5 [-> [M4 M5]]]].
  apply matches_lit_text in M1, M3, M5. subst a1 a3 a5.
  inversion M4 as [| | | | | | | | |n r g Mg| | |]; subst. clear M4.
  apply matches_cat_inv in Mg. destruct Mg as [x [y [-> [Mx My]]]].
  unfold plus in Mx.
  apply matches_cat_inv in Mx. destruct Mx as [x1 [x2 [-> [Mx1 Mx2]]]].
  inversion Mx1 as [|p c Hc| | | | | | | | | | |]; subst. clear Mx1.
  apply matches_rep_inv in Mx2.
  exists a2, (c :: x2), y. repeat split.
  - inversion M2 as [| | | | | | | | |n r g Mg| | |]; subst. clear M2.
    repeat match goal with
    | H : matches (Alt _ _) _ |- _ => inversion H; subst; clear H
    | H : matches (lit _) _ |- _ => apply matches_lit_text in H; subst
    end; simpl; tauto.
  - discriminate.
  - simpl. rewrite Hc. exact Mx2.
  - rewrite <- !app_assoc. reflexivity.
Qed.

Lemma pattern_miss prev (s : text) :
  call_at s = None -> match_here pattern prev s = None.
Proof.
  intros C. destruct (match_here pattern prev s) as [[len gs]|] eqn:H;
    [|reflexivity].
  exfalso.
  destruct (match_here_sound _ _ _ _ _ H) as [a [b [E [_ M]]]].
  destruct (pattern_shape _ M) as [level [x [y [L [Hx [F Ea]]]]]].
  subst a s. unfold call_at in C.
  rewrite <- !app_assoc, strip_prefix_app in C.
  rewrite (first_level_found level _ L) in C.
  destruct (span_long (not_ch ")"%char) x (y ++ py ")" ++ b) Hx F)
    as [a0 [a [c [r S]]]].
  - rewrite forallb_app, forallb_app. simpl.
    rewrite andb_false_r. reflexivity.
  - rewrite S in C. discriminate.
Qed.

Lemma app_same_length {A} (a b c d : list A) :
  a ++ b = c ++ d -> length a = length c -> a = c /\ b = d.
Proof.
  revert c; induction a as [|x a IH]; intros [|y c] E L;
    try discriminate; simpl in *.
  - auto.
  - injection E as -> E. injection L as L.
    destruct (IH _ E L) as [-> ->]. auto.
Qed.

(** One step of the rewrite of a whole text. *)
Lemma fix_scan_step prev (s : text) pos :
  sub_from pattern fix_logger_call None 0 prev s pos
  = match call_at s with
    | Some (level, args, rest) =>
        rewrite_call level (call_text level args) (split_args args)
        ++ sub_from pattern fix_logger_call None 0
             (prev_after prev (call_text level args)) rest
             (pos + length (call_text level args))
    | None =>
        match s with
        | [] => []
        | c :: s' =>
            c :: sub_from pattern fix_logger_call None 0 (Some c) s' (S pos)
        end
    end.
Proof.
  destruct (call_at s) as [[[level args] rest]|] eqn:C.
  - destruct (call_at_sound _ _ _ _ C) as [L [E [Ha F]]].
    pose proof (pattern_at_call prev level args rest L Ha F) as H.
    rewrite <- E in H.
    destruct (sub_from_match pattern fix_logger_call None prev s pos
                _ _ eq_refl H) as [a [b [Es [El [_ ->]]]]].
    { unfold call_text. rewrite !length_app. simpl. lia. }
    rewrite E in Es.
    destruct (app_same_length _ _ _ _ Es El) as [<- <-].
    unfold fix_logger_call.
    destruct (group_of_call pos level args) as [-> [-> ->]].
    reflexivity.
  - apply sub_from_miss, pattern_miss, C.
Qed.

Lemma call_at_rest_shorter (s level args rest : text) :
  call_at s = Some (level, args, rest) -> length rest < length s.
Proof.
  intros C. destruct (call_at_sound _ _ _ _ C) as [_ [-> _]].
  unfold call_text. rewrite !length_app. simpl. lia.
Qed.

Lemma fix_scan_indep (n : nat) :
  forall (s : text), length s <= n ->
  forall prev pos,
    sub_from pattern fix_logger_call None 0 prev s pos = fix_content s.
Proof.
  induction n as [|n IH]; intros s Hn prev pos;
    unfold fix_content, re_sub; rewrite (fix_scan_step prev),
      (fix_scan_step None);
    destruct (call_at s) as [[[level args] rest]|] eqn:C.
  - apply call_at_rest_shorter in C. lia.
  - destruct s; [reflexivity | simpl in Hn; lia].
  - apply call_at_rest_shorter in C.
    rewrite !IH by lia. reflexivity.
  - destruct s as [|c s]; [reflexivity|].
    simpl in Hn. rewrite !IH by lia. reflexivity.
Qed.

(** The rewrite of a whole text, call by call. *)
Lemma fix_content_step (s : text) :
  fix_content s
  = match call_at s with
    | Some (level, args, rest) =>
        rewrite_call level (call_text level args) (split_args args)
        ++ fix_content rest
    | None =>
        match s with
        | [] => []
        | c :: s' => c :: fix_content s'
        end
    end.
Proof.
  unfold fix_content at 1. unfold re_sub. rewrite fix_scan_step.
  destruct (call_at s) as [[[level args] rest]|].
  - rewrite (fix_scan_indep (length rest)) by lia. reflexivity.
  - destruct s as [|c s]; [reflexivity|].
    rewrite (fix_scan_indep (length s)) by lia. reflexivity.
Qed.

(** ** Nesting seen through the skeleton of a text *)

Lemma skeleton_app (a b : text) : skeleton (a ++ b) = skeleton a ++ skeleton b.
Proof. apply filter_app. Qed.

Lemma skeleton_plain (w : text) : forallb plain w = true -> skeleton w = [].
Proof.
  induction w as [|c w IH]; [reflexivity|]. simpl.
  rewrite andb_true_iff. intros [-> H]. simpl. auto.
Qed.

Lemma skeleton_blank (w : text) : forallb is_space w = true -> skeleton w = [].
Proof.
  intros H. apply skeleton_plain. rewrite forallb_forall in *.
  auto using space_plain.
Qed.

Lemma skeleton_strip (s : text) : skeleton (strip s) = skeleton s.
Proof.
  destruct (strip_split s) as [w1 [w2 [E [H1 H2]]]].
  rewrite E at 2.
  rewrite !skeleton_app, (skeleton_blank _ H1), (skeleton_blank _ H2).
  rewrite app_nil_r. reflexivity.
Qed.

Lemma nesting_skeleton (s : text) (t : tokenizer) :
  quote_ok t -> nesting (tok_loop t s) = nesting (tok_loop t (skeleton s)).
Proof.
  revert t; induction s as [|c s IH]; intros t Q; [reflexivity|].
  cbn [skeleton filter]. fold (skeleton s).
  destruct (plain c) eqn:P; cbn [negb].
  - rewrite tok_loop_cons, <- (IH t Q).
    apply nesting_tok_loop, nesting_plain; assumption.
  - rewrite !tok_loop_cons. apply IH, quote_ok_tok_char, Q.
Qed.

Lemma brace_nesting (t u : tokenizer) :
  nesting t = nesting u -> brace_depth t = brace_depth u.
Proof. intros E. apply depths_nesting in E. tauto. Qed.

Lemma braces_open_nesting (s : text) (t u : tokenizer) :
  nesting t = nesting u -> braces_open_from t s = braces_open_from u s.
Proof.
  revert t u; induction s as [|c s IH]; intros t u E; [reflexivity|].
  cbn [braces_open_from].
  pose proof (nesting_tok_char t u c E) as E'.
  rewrite (IH _ _ E'), (brace_nesting _ _ E'). reflexivity.
Qed.

Lemma braces_open_app (a b : text) (t : tokenizer) :
  braces_open_from t (a ++ b)
  = braces_open_from t a && braces_open_from (tok_loop t a) b.
Proof.
  revert t; induction a as [|c a IH]; intros t; [reflexivity|].
  cbn [app braces_open_from]. rewrite IH, tok_loop_cons, andb_assoc.
  reflexivity.
Qed.

Lemma braces_open_skeleton (s : text) (t : tokenizer) :
  quote_ok t -> (0 <= brace_depth t)%Z ->
  braces_open_from t s = true -> braces_open_from t (skeleton s) = true.
Proof.
  revert t; induction s as [|c s IH]; intros t Q B H; [reflexivity|].
  cbn [braces_open_from] in H. rewrite andb_true_iff, Z.leb_le in H.
  destruct H as [Hc H].
  cbn [skeleton filter]. fold (skeleton s).
  destruct (plain c) eqn:P; cbn [negb].
  - rewrite (braces_open_nesting _ _ (tok_char t c))
      by (symmetry; apply nesting_plain; assumption).
    apply IH; auto using quote_ok_tok_char.
  - cbn [braces_open_from]. rewrite andb_true_iff, Z.leb_le.
    split; [exact Hc|]. apply IH; auto using quote_ok_tok_char.
Qed.

Lemma skeleton_open_braces (s : text) (t : tokenizer) :
  quote_ok t -> (0 <= brace_depth t)%Z ->
  braces_open_from t (skeleton s) = true -> braces_open_from t s = true.
Proof.
  revert t; induction s as [|c s IH]; intros t Q B H; [reflexivity|].
  cbn [skeleton filter] in H. fold (skeleton s) in H.
  cbn [braces_open_from]. destruct (plain c) eqn:P; cbn [negb] in H.
  - pose proof (nesting_plain t c Q P) as N.
    rewrite (brace_nesting _ _ N), andb_true_iff, Z.leb_le.
    split; [exact B|].
    apply IH; auto using quote_ok_tok_char.
    + rewrite (brace_nesting _ _ N). exact B.
    + rewrite (braces_open_nesting _ _ t N). exact H.
  - cbn [braces_open_from] in H. rewrite andb_true_iff, Z.leb_le in *.
    destruct H as [Hc H]. split; [exact Hc|].
    apply IH; auto using quote_ok_tok_char.
Qed.

(** One brace deeper, the loop goes through the same nestings, one brace
    deeper. *)
Lemma deeper_tok_char (t u : tokenizer) (c : ascii) :
  deeper t u -> deeper (tok_char t c) (tok_char u c).
Proof.
  destruct t as [p1 c1 pd bd ins sc], u as [p2 c2 pd' bd' ins' sc'].
  unfold deeper. fields. intros [-> [-> [-> ->]]].
  unfold tok_char. tok_cases; fields; repeat split; lia.
Qed.

Lemma inside_deeper (s : text) (c : ascii) (t u : tokenizer) :
  deeper t u -> (0 <= brace_depth u)%Z ->
  braces_open_from u s = true -> inside_from t (s ++ [c]) = true.
Proof.
  revert t u; induction s as [|x s IH]; intros t u D B H.
  - simpl. destruct D as [_ [-> _]]. rewrite andb_true_r. apply Z.leb_le. lia.
  - cbn [braces_open_from] in H. rewrite andb_true_iff, Z.leb_le in H.
    destruct H as [Hx H]. cbn [app inside_from].
    rewrite (IH _ _ (deeper_tok_char _ _ x D) Hx H), andb_true_r.
    destruct D as [_ [-> _]]. apply Z.leb_le. lia.
Qed.

Lemma inside_no_comma (s : text) (t : tokenizer) :
  inside_from t s = true -> top_commas_from t s = 0.
Proof.
  revert t; induction s as [|c s IH]; intros t H; [reflexivity|].
  cbn [inside_from] in H. rewrite andb_true_iff, Z.leb_le in H.
  destruct H as [B H]. cbn [top_commas_from]. rewrite (IH _ H).
  replace (at_top t) with false; [rewrite andb_false_r; reflexivity|].
  symmetry. unfold at_top. apply andb_false_iff. right.
  apply Z.eqb_neq. lia.
Qed.

Lemma top_commas_app (a b : text) (t : tokenizer) :
  top_commas_from t (a ++ b)
  = top_commas_from t a + top_commas_from (tok_loop t a) b.
Proof.
  revert t; induction a as [|c a IH]; intros t; [reflexivity|].
  cbn [app top_commas_from]. rewrite IH, tok_loop_cons. lia.
Qed.

(** ** What the fragments keep of the argument text *)

Lemma skeleton_loop (s : text) (t : tokenizer) :
  skeleton (concat (arg_parts (tok_loop t s)) ++ current_arg (tok_loop t s))
  = skeleton (concat (arg_parts t) ++ current_arg t) ++ skeleton s.
Proof.
  revert t; induction s as [|c s IH]; intros t.
  - simpl. rewrite app_nil_r. reflexivity.
  - rewrite tok_loop_cons, IH.
    destruct (ch ","%char c && at_top t) eqn:E.
    + rewrite (tok_char_split _ _ E). fields.
      apply andb_true_iff in E. destruct E as [E _].
      apply Ascii.eqb_eq in E. subst c.
      change ("," :: s)%char with ([","%char] ++ s).
      rewrite concat_app, !skeleton_app. simpl concat.
      rewrite !app_nil_r, skeleton_strip. reflexivity.
    + destruct (tok_char_keep _ _ E) as [-> ->].
      change (c :: s) with ([c] ++ s).
      rewrite !skeleton_app, <- !app_assoc. reflexivity.
Qed.

Lemma nonempty_false (s : text) : nonempty s = false -> s = [].
Proof. destruct s; [reflexivity | discriminate]. Qed.

Lemma skeleton_split_args (a : text) :
  skeleton (concat (split_args a)) = skeleton a.
Proof.
  pose proof (skeleton_loop a tok_init) as H. simpl in H.
  unfold split_args. destruct (nonempty _) eqn:N.
  - rewrite concat_app, skeleton_app. simpl concat.
    rewrite app_nil_r, skeleton_strip, <- skeleton_app. exact H.
  - apply nonempty_false in N. rewrite skeleton_app in H.
    rewrite <- (skeleton_strip (current_arg _)), N, app_nil_r in H. exact H.
Qed.

(** The first fragment emitted is the trimmed text before the first
    top-level comma. *)
Lemma first_split (s : text) (t : tokenizer) (M : text) (rest : list text) :
  arg_parts t = [] ->
  arg_parts (tok_loop t s) = M :: rest ->
  exists x y,
    s = x ++ ","%char :: y
    /\ top_commas_from t x = 0
    /\ at_top (tok_loop t x) = true
    /\ M = strip (current_arg t ++ x).
Proof.
  revert t; induction s as [|c s IH]; intros t P H.
  - simpl in H. congruence.
  - rewrite tok_loop_cons in H.
    destruct (ch ","%char c && at_top t) eqn:E.
    + exists [], s. apply andb_true_iff in E as E'. destruct E' as [Ec Et].
      apply Ascii.eqb_eq in Ec. subst c.
      pose proof (ahead_tok_loop [strip (current_arg t)] s
                    (tok_char t ","%char)
                    (Tok [] [] (paren_depth t) (brace_depth t)
                         (in_string t) (string_char t))) as A.
      destruct A as [A _].
      { rewrite (tok_char_split _ _ E), P. repeat split. }
      rewrite A in H. injection H as <- _.
      rewrite app_nil_r. auto.
    + destruct (tok_char_keep _ _ E) as [K1 K2].
      destruct (IH (tok_char t c)) as [x [y [Es [Hc [Ht Hm]]]]];
        [congruence | exact H |].
      exists (c :: x), y. subst s. cbn [top_commas_from]. rewrite E, Hc.
      rewrite tok_loop_cons. rewrite K2, <- app_assoc in Hm. auto.
Qed.

Lemma parts_chars (q : ascii -> bool) (s : text) (t : tokenizer) :
  forallb q s = true ->
  Forall (fun f => forallb q f = true) (arg_parts t) ->
  forallb q (current_arg t) = true ->
  Forall (fun f => forallb q f = true) (arg_parts (tok_loop t s))
  /\ forallb q (current_arg (tok_loop t s)) = true.
Proof.
  assert (St : forall x, forallb q x = true -> forallb q (strip x) = true).
  { intros x H. destruct (strip_split x) as [w1 [w2 [E _]]].
    rewrite E, !forallb_app, !andb_true_iff in H. tauto. }
  revert t; induction s as [|c s IH]; intros t H P C; [auto|].
  simpl in H. rewrite andb_true_iff in H. destruct H as [Hc H].
  rewrite tok_loop_cons. apply IH; [exact H| |].
  - destruct (ch ","%char c && at_top t) eqn:E.
    + rewrite (tok_char_split _ _ E). fields.
      apply Forall_app. split; [exact P|]. constructor; auto.
    + destruct (tok_char_keep _ _ E) as [-> _]. exact P.
  - destruct (ch ","%char c && at_top t) eqn:E.
    + rewrite (tok_char_split _ _ E). reflexivity.
    + destruct (tok_char_keep _ _ E) as [_ ->].
      rewrite forallb_app, C. simpl. rewrite Hc. reflexivity.
Qed.

Lemma split_args_chars (q : ascii -> bool) (a : text) :
  forallb q a = true -> Forall (fun f => forallb q f = true) (split_args a).
Proof.
  intros H.
  destruct (parts_chars q a tok_init H (Forall_nil _) eq_refl) as [P C].
  unfold split_args. destruct (nonempty _); [|exact P].
  apply Forall_app. split; [exact P|]. constructor; [|constructor].
  destruct (strip_split (current_arg (tok_loop tok_init a)))
    as [w1 [w2 [E _]]].
  rewrite E, !forallb_app, !andb_true_iff in C. tauto.
Qed.

(** ** A rewritten call is left alone by a second rewrite *)

Lemma digit_chars (q : ascii -> bool) :
  (forall c, is_digit c = true -> q c = true) ->
  forall n, forallb q (str_of_nat n) = true.
Proof.
  intros Q n. unfold str_of_nat.
  assert (D : forall d, forallb q (py (NilEmpty.string_of_uint d)) = true).
  { induction d; simpl; rewrite ?IHd, ?andb_true_r; try reflexivity;
      apply Q; reflexivity. }
  destruct (Nat.to_uint n) eqn:E; try apply D.
  simpl. rewrite andb_true_r. apply Q. reflexivity.
Qed.

Lemma digit_plain (c : ascii) : is_digit c = true -> plain c = true.
Proof.
  unfold is_digit, between, code, plain, is_quote, ch, dquote.
  rewrite !andb_true_iff, !Nat.leb_le.
  intros H. rewrite negb_true_iff, !orb_false_iff, !Ascii.eqb_neq.
  repeat split; intros <-; vm_compute in H; lia.
Qed.

Lemma digit_not_rparen (c : ascii) :
  is_digit c = true -> not_ch ")"%char c = true.
Proof.
  unfold is_digit, between, code, not_ch.
  rewrite !andb_true_iff, !Nat.leb_le.
  intros H. rewrite negb_true_iff, Ascii.eqb_neq.
  intros <-. vm_compute in H. lia.
Qed.

Lemma property_chars (q : ascii -> bool) (n : nat) (f : text) :
  (forall c, is_digit c = true -> q c = true) ->
  forallb q (py "arg: ") = true ->
  forallb q f = true -> forallb q (property n f) = true.
Proof.
  intros Q A F. unfold property. destruct (is_identifier f); [exact F|].
  rewrite !forallb_app, F, (digit_chars q Q).
  simpl in *. rewrite !andb_true_iff in *. tauto.
Qed.

Lemma skeleton_property (n : nat) (f : text) :
  skeleton (property n f) = skeleton f.
Proof.
  unfold property. destruct (is_identifier f); [reflexivity|].
  rewrite !skeleton_app.
  rewrite (skeleton_plain (str_of_nat n)) by apply (digit_chars plain digit_plain).
  reflexivity.
Qed.

Lemma join_chars (q : ascii -> bool) (sep : text) (l : list text) :
  forallb q sep = true -> Forall (fun f => forallb q f = true) l ->
  forallb q (join sep l) = true.
Proof.
  intros S H. induction H as [|f l Hf _ IH]; [reflexivity|].
  destruct l as [|g l]; [exact Hf|].
  change (join sep (f :: g :: l)) with (f ++ sep ++ join sep (g :: l)).
  rewrite !forallb_app, Hf, S, IH. reflexivity.
Qed.

Lemma skeleton_join (l : list text) :
  skeleton (join (py ", ") l) = skeleton (concat l).
Proof.
  induction l as [|f l IH]; [reflexivity|].
  destruct l as [|g l].
  - simpl. rewrite app_nil_r. reflexivity.
  - change (join (py ", ") (f :: g :: l))
      with (f ++ py ", " ++ join (py ", ") (g :: l)).
    change (concat (f :: g :: l)) with (f ++ concat (g :: l)).
    rewrite !skeleton_app, IH. reflexivity.
Qed.

Lemma skeleton_properties (rest : list text) (i : nat) :
  skeleton (concat (map (fun '(n, arg) => property n arg)
                        (combine (List.seq i (length rest)) rest)))
  = skeleton (concat rest).
Proof.
  revert i; induction rest as [|f rest IH]; intros i; [reflexivity|].
  cbn [length List.seq combine map concat].
  rewrite !skeleton_app, skeleton_property, IH. reflexivity.
Qed.

Lemma properties_chars (q : ascii -> bool) (rest : list text) (i : nat) :
  (forall c, is_digit c = true -> q c = true) ->
  forallb q (py "arg: ") = true ->
  Forall (fun f => forallb q f = true) rest ->
  Forall (fun f => forallb q f = true)
         (map (fun '(n, arg) => property n arg)
              (combine (List.seq i (length rest)) rest)).
Proof.
  intros Q A H. revert i; induction H as [|f rest Hf _ IH]; intros i.
  - constructor.
  - cbn [length List.seq combine map]. constructor; [|apply IH].
    apply property_chars; assumption.
Qed.

(** The heart of the matter: the synthesised argument text splits into
    the message and the object literal. *)
Lemma resplit (a M : text) (rest : list text) (J : text) :
  no_stray_brace a = true ->
  split_args a = M :: rest -> rest <> [] ->
  skeleton J = skeleton (concat rest) ->
  split_args (M ++ py ", { " ++ J ++ py " }") = [M; py "{ " ++ J ++ py " }"].
Proof.
  intros B S R K.
  (* the first fragment was cut at a top-level comma *)
  assert (P : exists rest0, arg_parts (tok_loop tok_init a) = M :: rest0).
  { unfold split_args in S.
    destruct (arg_parts (tok_loop tok_init a)) as [|f fs].
    - destruct (nonempty _); simpl in S; [|discriminate].
      injection S as _ <-. contradiction.
    - destruct (nonempty _); simpl in S; injection S as -> _; eauto. }
  destruct P as [rest0 P].
  destruct (first_split a tok_init M rest0 eq_refl P)
    as [x [y [Ea [Cx [Tx Mx]]]]].
  simpl in Mx.
  assert (Q0 := quote_ok_init).
  destruct (strip_split x) as [w1 [w2 [Ex [H1 H2]]]]. rewrite <- Mx in Ex.
  assert (P1 : forallb plain w1 = true)
    by (rewrite forallb_forall in *; auto using space_plain).
  assert (TM : top_commas_from tok_init M = 0).
  { rewrite Ex, !top_commas_app in Cx.
    rewrite <- (top_commas_from_nesting M (tok_loop tok_init w1))
      by (apply nesting_plain_loop; assumption).
    lia. }
  assert (SM : skeleton M = skeleton x)
    by (rewrite Mx; apply skeleton_strip).
  assert (NM : nesting (tok_loop tok_init M) = nesting tok_init).
  { rewrite (nesting_skeleton M), SM, <- (nesting_skeleton x) by assumption.
    apply at_top_init; [apply quote_ok_tok_loop; assumption | exact Tx]. }
  assert (AM : at_top (tok_loop tok_init M) = true)
    by (rewrite (at_top_nesting _ _ NM); reflexivity).
  (* the second split, up to the comma *)
  replace (M ++ py ", { " ++ J ++ py " }")
    with (M ++ ","%char :: py " {" ++ (py " " ++ J ++ py " ") ++ ["}"%char])
    by (simpl; rewrite <- !app_assoc; reflexivity).
  rewrite (split_args_after_separator M _ AM). unfold in_flight.
  destruct (no_comma_loop M tok_init TM) as [-> ->].
  change (arg_parts tok_init) with (@nil text).
  change (current_arg tok_init) with (@nil ascii). cbn [app].
  assert (EM : strip M = M) by (rewrite Mx; apply strip_idem).
  rewrite EM. f_equal.
  (* inside the braces nothing is split *)
  assert (BJ : braces_open_from tok_init (py " " ++ J ++ py " ") = true).
  { apply skeleton_open_braces; [assumption | simpl; lia |].
    rewrite !skeleton_app. simpl (skeleton (py " ")).
    rewrite app_nil_r. simpl app. rewrite K.
    unfold no_stray_brace in B.
    apply (braces_open_skeleton a tok_init Q0) in B; [|simpl; lia].
    rewrite <- skeleton_split_args, S in B. cbn [concat] in B.
    rewrite skeleton_app, braces_open_app, andb_true_iff in B.
    destruct B as [_ B].
    rewrite <- (braces_open_nesting _ (tok_loop tok_init (skeleton M)));
      [exact B|].
    rewrite <- nesting_skeleton by assumption. exact NM. }
  assert (I : inside_from (tok_loop tok_init (py " {"))
                ((py " " ++ J ++ py " ") ++ ["}"%char]) = true).
  { apply (inside_deeper _ _ _ tok_init); [|simpl; lia|exact BJ].
    repeat split. }
  apply inside_no_comma in I.
  unfold split_args. rewrite tok_loop_app.
  destruct (no_comma_loop _ _ I) as [-> ->].
  change (current_arg (tok_loop tok_init (py " {"))) with (py " {").
  change (arg_parts (tok_loop tok_init (py " {"))) with (@nil text).
  assert (E : strip (py " {" ++ (py " " ++ J ++ py " ") ++ ["}"%char])
              = py "{ " ++ J ++ py " }").
  { replace (py " {" ++ (py " " ++ J ++ py " ") ++ ["}"%char])
      with (py " " ++ ("{"%char :: (py " " ++ J ++ py " ") ++ ["}"%char]) ++ [])
      by (rewrite app_nil_r; reflexivity).
    rewrite strip_around by reflexivity.
    rewrite strip_fixed by reflexivity.
    simpl. rewrite <- !app_assoc. reflexivity. }
  rewrite E. reflexivity.
Qed.

Ltac app_norm :=
  repeat (progress (rewrite <- ?app_assoc; cbn [app py list_ascii_of_string]));
  try reflexivity.

Lemma rewrite_call_stable (level a : text) :
  no_stray_brace a = true ->
  forallb (not_ch ")"%char) a = true -> a <> [] ->
  exists a',
    rewrite_call level (call_text level a) (split_args a) = call_text level a'
    /\ a' <> []
    /\ forallb (not_ch ")"%char) a' = true
    /\ rewrite_call level (call_text level a') (split_args a')
       = call_text level a'.
Proof.
  intros B F Ha.
  pose proof (trimmed_split_args a) as T.
  pose proof (split_args_chars _ a F) as C.
  rewrite (rewrite_call_spec level _ _ T).
  destruct (split_args a) as [|M [|X rest]] eqn:S.
  - exists a. rewrite S, (rewrite_call_spec level _ _ T). auto.
  - exists a. rewrite S, (rewrite_call_spec level _ _ T). auto.
  - destruct ((length (X :: rest) =? 1) && object_literal (nth 0 (X :: rest) []))
      eqn:O.
    + exists a. rewrite S, (rewrite_call_spec level _ _ T), O. auto.
    + set (J := join (py ", ")
                  (map (fun '(n, arg) => property n arg)
                       (combine (List.seq 1 (length (X :: rest))) (X :: rest)))).
      assert (K : skeleton J = skeleton (concat (X :: rest)))
        by (unfold J; rewrite skeleton_join; apply skeleton_properties).
      inversion C as [|? ? CM CR]; subst.
      assert (FJ : forallb (not_ch ")"%char) J = true).
      { unfold J. apply join_chars; [reflexivity|].
        apply properties_chars;
          [exact digit_not_rparen | reflexivity | exact CR]. }
      exists (M ++ py ", { " ++ J ++ py " }"). split; [|split; [|split]].
      * unfold call_text. rewrite <- !app_assoc. reflexivity.
      * destruct M; discriminate.
      * rewrite !forallb_app, CM, FJ. reflexivity.
      * assert (R : X :: rest <> []) by discriminate.
        rewrite (resplit a M (X :: rest) J B S R K).
        unfold rewrite_call. cbn [length Nat.leb Nat.eqb nth andb].
        assert (E : strip (py "{ " ++ J ++ py " }") = py "{ " ++ J ++ py " }").
        { replace (py "{ " ++ J ++ py " }")
            with ("{"%char :: (py " " ++ J ++ py " ") ++ ["}"%char])
            by (simpl; rewrite <- !app_assoc; reflexivity).
          apply strip_fixed; reflexivity. }
        rewrite E.
        assert (O' : startswith (py "{") (py "{ " ++ J ++ py " }")
                     && endswith (py "}") (py "{ " ++ J ++ py " }") = true).
        { unfold endswith. rewrite !rev_app_distr. reflexivity. }
        rewrite O'. reflexivity.
Qed.

(** ** The rewrite of a whole text, applied twice *)

Lemma rewrite_call_head (level a : text) (parts : list text) :
  exists r, rewrite_call level (call_text level a) parts = "l"%char :: r.
Proof.
  unfold rewrite_call.
  destruct (length parts <=? 1); [unfold call_text; simpl; eauto|].
  destruct (_ && _); unfold call_text; simpl; eauto.
Qed.

Lemma call_at_head (c : ascii) (s : text) :
  c <> "l"%char -> call_at (c :: s) = None.
Proof.
  intros H. unfold call_at, strip_prefix. cbn [py list_ascii_of_string startswith].
  destruct (Ascii.eqb "l" c) eqn:E; [|reflexivity].
  apply Ascii.eqb_eq in E. congruence.
Qed.

(** A prefix without the letter [l] of the output is a prefix of the
    input, copied as it was. *)
Lemma fix_content_prefix (u : text) :
  forallb (not_ch "l"%char) u = true ->
  forall s Y, fix_content s = u ++ Y ->
  exists Y0, s = u ++ Y0 /\ Y = fix_content Y0.
Proof.
  induction u as [|c u IH]; intros F s Y H.
  - exists s. auto.
  - simpl in F. rewrite andb_true_iff in F. destruct F as [Hc F].
    unfold not_ch in Hc. rewrite negb_true_iff, Ascii.eqb_neq in Hc.
    rewrite fix_content_step in H.
    destruct (call_at s) as [[[level args] rest]|] eqn:C.
    + destruct (rewrite_call_head level args (split_args args)) as [r E].
      rewrite E in H. simpl in H. congruence.
    + destruct s as [|x s]; [discriminate|].
      simpl in H. injection H as -> H.
      destruct (IH F s Y H) as [Y0 [-> ->]]. exists Y0. auto.
Qed.

Lemma call_needs_rparen (s : text) :
  forallb (not_ch ")"%char) s = true -> call_at s = None.
Proof.
  intros F. destruct (call_at s) as [[[level args] rest]|] eqn:C;
    [|reflexivity].
  destruct (call_at_sound _ _ _ _ C) as [_ [E _]]. subst s.
  unfold call_text in F. rewrite !forallb_app in F. simpl in F.
  rewrite !andb_false_r in F. discriminate.
Qed.

Lemma fix_content_no_rparen (s : text) :
  forallb (not_ch ")"%char) s = true -> fix_content s = s.
Proof.
  induction s as [|c s IH]; intros F; rewrite fix_content_step,
    (call_needs_rparen _ F); [reflexivity|].
  simpl in F. rewrite andb_true_iff in F. rewrite IH; tauto.
Qed.

Lemma level_no_l (level : text) :
  In level (map py levels) ->
  forallb (not_ch "l"%char) (py "og." ++ level ++ py "(") = true.
Proof.
  intros L. simpl in L.
  decompose [or] L; try contradiction; subst level; reflexivity.
Qed.

(** Where the pattern does not match the input, it does not match the
    output either. *)
Lemma call_at_miss_stable (s : text) :
  call_at s = None -> call_at (fix_content s) = None.
Proof.
  intros C. rewrite fix_content_step, C.
  destruct s as [|c s]; [reflexivity|].
  destruct (call_at (c :: fix_content s)) as [[[level args] rest]|] eqn:C';
    [|reflexivity].
  exfalso.
  destruct (call_at_sound _ _ _ _ C') as [L [E [Ha F]]].
  assert (E2 : call_text level args ++ rest
               = "l"%char :: (py "og." ++ level ++ py "(")
                 ++ (args ++ py ")" ++ rest)).
  { unfold call_text. app_norm. }
  rewrite E2 in E. clear E2. injection E as -> E.
  destruct (fix_content_prefix _ (level_no_l _ L) _ _ E) as [Y0 [-> EY]].
  destruct (forallb (not_ch ")"%char) Y0) eqn:FY.
  - rewrite (fix_content_no_rparen _ FY) in EY. subst Y0.
    rewrite !forallb_app in FY. simpl in FY.
    rewrite !andb_false_r in FY. discriminate.
  - destruct Y0 as [|y Y1]; [discriminate|].
    destruct (not_ch ")"%char y) eqn:Hy.
    + simpl in FY. rewrite Hy in FY. simpl in FY.
      destruct (span_long (not_ch ")"%char) [y] Y1) as [a0 [a [d [r S]]]];
        [discriminate | simpl; rewrite Hy; reflexivity | exact FY |].
      unfold call_at in C.
      replace ("l"%char :: (py "og." ++ level ++ py "(") ++ y :: Y1)
        with (py "log." ++ (level ++ py "(" ++ y :: Y1)) in C
        by app_norm.
      rewrite strip_prefix_app in C.
      rewrite (first_level_found level _ L) in C.
      change (y :: Y1) with ([y] ++ Y1) in C. rewrite S in C. discriminate.
    + unfold not_ch in Hy. rewrite negb_false_iff, Ascii.eqb_eq in Hy.
      subst y. rewrite fix_content_step in EY.
      rewrite call_at_head in EY by discriminate.
      destruct args as [|a0 args]; [contradiction|].
      simpl in EY. injection EY as -> _. simpl in F. discriminate.
Qed.

Lemma calls_braced_tail (p s : text) :
  calls_braced (p ++ s) = true -> calls_braced s = true.
Proof.
  induction p as [|c p IH]; [auto|].
  cbn [app calls_braced]. rewrite andb_true_iff. intros [_ H]. auto.
Qed.

Lemma fix_content_idem (n : nat) :
  forall s, length s <= n -> calls_braced s = true ->
  fix_content (fix_content s) = fix_content s.
Proof.
  induction n as [|n IH]; intros s Hn B.
  - destruct s; [reflexivity | simpl in Hn; lia].
  - rewrite (fix_content_step s).
    destruct (call_at s) as [[[level args] rest]|] eqn:C.
    + destruct (call_at_sound _ _ _ _ C) as [L [E [Ha F]]].
      assert (Br : calls_braced rest = true)
        by (rewrite E in B; apply (calls_braced_tail _ _ B)).
      assert (Ba : no_stray_brace args = true).
      { destruct s; cbn [calls_braced] in B; rewrite C in B;
          apply andb_true_iff in B; tauto. }
      destruct (rewrite_call_stable level args Ba F Ha)
        as [a' [-> [Ha' [F' S']]]].
      rewrite fix_content_step, (call_at_complete level a' _ L Ha' F'), S'.
      apply call_at_rest_shorter in C.
      rewrite IH by (assumption || lia). reflexivity.
    + pose proof (call_at_miss_stable s C) as M.
      rewrite fix_content_step, C in M.
      destruct s as [|c s]; [reflexivity|].
      cbn [calls_braced] in B. apply andb_true_iff in B.
      rewrite fix_content_step, M.
      simpl in Hn. rewrite IH by (tauto || lia). reflexivity.
Qed.

(** C1, as the code has it.  The logging rewrite is idempotent on every
    text in which no text matched by the call pattern has a stray closing
    brace in its arguments; the params migration is idempotent on every
    text whose migrated form carries the unwrap call, and on every text it
    leaves as it is. *)
Theorem recipes_idempotent_when_guarded (T : text) :
  (calls_braced T = true ->
   fix_content (fix_content T) = fix_content T)
  /\ (contains (py "use(params)") (migrate_text T) = true
      \/ migrate_text T = T ->
      migrate_text (migrate_text T) = migrate_text T).
Proof.
  split.
  - apply (fix_content_idem (length T)). lia.
  - intros [H | H].
    + unfold migrate_text at 1. unfold migrate_content.
      rewrite already_migrated_spec, H. reflexivity.
    + rewrite !H. reflexivity.
Qed.

Lemma recipes_idempotent_when_guarded_witness :
  fix_content (fix_content (py "if (e) { log.error('failed', err, userId); }"))
  = fix_content (py "if (e) { log.error('failed', err, userId); }")
  /\ migrate_text (migrate_text hook_page) = migrate_text hook_page.
Proof.
  split.
  - apply (recipes_idempotent_when_guarded
             (py "if (e) { log.error('failed', err, userId); }")).
    reflexivity.
  - apply (recipes_idempotent_when_guarded hook_page).
    left. reflexivity.
Defined.

(** C1 as stated fails.  A string argument holding an escaped quote and
    a closing brace is rewritten again by a second pass of the logging
    recipe; a text that spells the hook name inside itself is migrated
    again by a second pass of the params recipe. *)
Lemma recipes_not_idempotent :
  fix_content (py "log.info(msg, '\'}\'', a)")
  = py "log.info(msg, { arg1: '\'}\'', a })"
  /\ fix_content (py "log.info(msg, { arg1: '\'}\'', a })")
     = py "log.info(msg, { arg1: { arg1: '\'}\'', arg2: a } })"
  /\ fix_content (fix_content (py "log.info(msg, '\'}\'', a)"))
     <> fix_content (py "log.info(msg, '\'}\'', a)")
  /\ migrate_text (py "useParams() useuseuseParamsParamsParams()")
     = py "() useParams()"
  /\ migrate_text (migrate_text (py "useParams() useuseuseParamsParamsParams()"))
     <> migrate_text (py "useParams() useuseuseParamsParamsParams()").
Proof.
  repeat split; try reflexivity; vm_compute; discriminate.
Qed.

(** * Further properties of the two scripts *)

(** ** The Tokenizer: pieces and fragments *)

Lemma join_cons (sep f : text) (l : list text) :
  l <> [] -> join sep (f :: l) = f ++ sep ++ join sep l.
Proof. destruct l; [contradiction | reflexivity]. Qed.

Lemma top_commas_snoc (s : text) (c : ascii) (t : tokenizer) :
  top_commas_from t (s ++ [c])
  = top_commas_from t s
    + (if ch ","%char c && at_top (tok_loop t s) then 1 else 0).
Proof. rewrite top_commas_app. simpl. lia. Qed.

(** The loop cuts the text it reads at its top-level commas and nowhere
    else. *)
Lemma loop_pieces (s : text) :
  forall t,
    quote_ok t ->
    top_commas (current_arg t) = 0 ->
    nesting (tok_loop tok_init (current_arg t)) = nesting t ->
    exists raws last,
      current_arg t ++ s = join (py ",") (raws ++ [last])
      /\ arg_parts (tok_loop t s) = arg_parts t ++ map strip raws
      /\ current_arg (tok_loop t s) = last
      /\ Forall piece raws
      /\ top_commas last = 0.
Proof.
  induction s as [|c s IH]; intros t Q C N.
  - exists [], (current_arg t). simpl. rewrite !app_nil_r. auto.
  - rewrite tok_loop_cons.
    destruct (ch ","%char c && at_top t) eqn:E.
    + apply andb_true_iff in E as E'. destruct E' as [Ec Et].
      apply Ascii.eqb_eq in Ec. subst c.
      pose proof (quote_ok_tok_char t ","%char Q) as Q'.
      rewrite (tok_char_split _ _ E) in *.
      destruct (IH _ Q' eq_refl) as [raws [last [Ej [Ep [Ec [Fp Cl]]]]]].
      { fields. symmetry. apply (at_top_init t Q Et). }
      exists (current_arg t :: raws), last.
      cbn [arg_parts current_arg] in Ep, Ej, Ec.
      repeat split; try assumption.
      * change ((current_arg t :: raws) ++ [last])
          with (current_arg t :: (raws ++ [last])).
        rewrite join_cons by (destruct raws; discriminate).
        cbn [app] in Ej. rewrite Ej at 1. reflexivity.
      * rewrite Ep, <- app_assoc. reflexivity.
      * constructor; [|exact Fp]. split; [exact C|].
        rewrite (at_top_nesting _ _ N). exact Et.
    + destruct (tok_char_keep _ _ E) as [K1 K2].
      destruct (IH (tok_char t c)) as [raws [last [Ej [Ep [Ec [Fp Cl]]]]]].
      * apply quote_ok_tok_char, Q.
      * rewrite K2. unfold top_commas in *.
        rewrite top_commas_snoc, C, (at_top_nesting _ _ N), E. reflexivity.
      * rewrite K2, tok_loop_snoc. apply nesting_tok_char, N.
      * exists raws, last. rewrite K2, <- app_assoc in Ej.
        rewrite K1 in Ep. auto.
Qed.

Lemma split_args_no_comma (a : text) :
  top_commas a = 0 ->
  split_args a = if nonempty (strip a) then [strip a] else [].
Proof.
  intros H. destruct (no_comma_loop a tok_init H) as [Hp Hc].
  unfold split_args. rewrite Hp, Hc. reflexivity.
Qed.

Lemma top_commas_strip (r : text) : top_commas r = 0 -> top_commas (strip r) = 0.
Proof.
  intros C. destruct (strip_split r) as [w1 [w2 [E [H1 _]]]].
  assert (P1 : forallb plain w1 = true)
    by (rewrite forallb_forall in *; auto using space_plain).
  unfold top_commas in *. rewrite E, !top_commas_app in C.
  rewrite <- (top_commas_from_nesting (strip r) (tok_loop tok_init w1))
    by (apply nesting_plain_loop; [exact quote_ok_init | exact P1]).
  lia.
Qed.

Lemma tokenizer_reconstruction_helper (a : text) :
  exists raws last,
    a = join (py ",") (raws ++ [last])
    /\ Forall piece raws /\ top_commas last = 0
    /\ split_args a
       = map strip raws ++ (if nonempty (strip last) then [strip last] else []).
Proof.
  destruct (loop_pieces a tok_init quote_ok_init eq_refl eq_refl)
    as [raws [last [Ej [Ep [Ec [Fp Cl]]]]]].
  exists raws, last. repeat split; try assumption.
  unfold split_args. rewrite Ep, Ec. simpl.
  destruct (nonempty (strip last)); [reflexivity | symmetry; apply app_nil_r].
Qed.

(** X1: the argument text is its pieces joined by commas, the pieces are
    cut exactly at the top-level commas, and the fragments returned are
    the trimmed pieces, the last one left out when blank. *)
Theorem tokenizer_reconstruction (a : text) :
  exists raws last,
    a = join (py ",") (raws ++ [last])
    /\ Forall piece raws /\ top_commas last = 0
    /\ split_args a
       = map strip raws ++ (if nonempty (strip last) then [strip last] else []).
Proof. exact (tokenizer_reconstruction_helper a). Qed.

(** X2: every fragment is trimmed, and splitting a fragment again gives
    the fragment back (nothing for an empty fragment). *)
Theorem fragments_are_fixed_points (a f : text) :
  In f (split_args a) ->
  strip f = f /\ split_args f = if nonempty f then [f] else [].
Proof.
  intros H.
  destruct (tokenizer_reconstruction_helper a) as [raws [last [_ [Fp [Cl E]]]]].
  rewrite E in H. apply in_app_or in H.
  assert (G : exists r, f = strip r /\ top_commas r = 0).
  { destruct H as [H | H].
    - apply in_map_iff in H. destruct H as [r [<- Hr]].
      rewrite Forall_forall in Fp. destruct (Fp r Hr) as [C _]. eauto.
    - destruct (nonempty (strip last)); [|contradiction].
      destruct H as [<- | []]. eauto. }
  destruct G as [r [-> C]].
  rewrite (split_args_no_comma _ (top_commas_strip r C)), strip_idem. auto.
Qed.

Lemma fragments_are_fixed_points_witness :
  strip (py "f(x, y)") = py "f(x, y)"
  /\ split_args (py "f(x, y)") = [py "f(x, y)"].
Proof.
  apply (fragments_are_fixed_points (py "a , f(x, y) ,'s,t'") (py "f(x, y)")).
  simpl. tauto.
Defined.

(** ** The logging recipe: what a call site is and what becomes of it *)

(** The pattern and the scanner agree at every position. *)
Lemma pattern_scanner prev (s : text) :
  match_here pattern prev s
  = match call_at s with
    | Some (level, args, _) =>
        Some (length (call_text level args), call_groups level args)
    | None => None
    end.
Proof.
  destruct (call_at s) as [[[level args] rest]|] eqn:C.
  - destruct (call_at_sound _ _ _ _ C) as [L [E [Ha F]]].
    rewrite E. apply pattern_at_call; assumption.
  - apply pattern_miss, C.
Qed.

(** X3: a call site found by the pattern is [log.], one of the four
    levels, and an argument text between parentheses that is not empty and
    holds no closing parenthesis: the match ends at the first closing
    parenthesis after the opening one, the optional nested pair of the
    pattern never takes part. *)
Theorem call_site_ends_at_first_rparen (T : text) :
  match re_search pattern T with
  | Some m =>
      In (group m 1) (map py levels)
      /\ group m 2 <> []
      /\ forallb (not_ch ")"%char) (group m 2) = true
      /\ group m 0 = call_text (group m 1) (group m 2)
      /\ exists before after,
           T = before ++ group m 0 ++ after /\ m_start m = length before
  | None => True
  end.
Proof.
  destruct (re_search pattern T) as [m|] eqn:S; [|exact I].
  unfold re_search in S.
  destruct (search_from_found _ _ _ _ _ S)
    as [pre [a [b [prev' [E [Es [Et Hm]]]]]]].
  rewrite pattern_scanner in Hm.
  destruct (call_at (a ++ b)) as [[[level args] rest]|] eqn:C; [|discriminate].
  injection Hm as El Eg.
  destruct (call_at_sound _ _ _ _ C) as [L [Ec [Ha F]]].
  destruct (app_same_length _ _ _ _ Ec (eq_sym El)) as [Ea Eb].
  assert (Em : m = Match (m_start m) (call_text level args)
                     (call_groups level args))
    by (destruct m; simpl in *; congruence).
  destruct (group_of_call (m_start m) level args) as [G0 [G1 G2]].
  rewrite <- Em in G0, G1, G2. rewrite G0, G1, G2.
  repeat split; try assumption.
  exists pre, b. rewrite E, Ea. auto.
Qed.

(** X4: a call that is rewritten has, when split again, exactly two
    arguments: the first fragment of the original call and one object
    literal.  The argument text must not close a brace it has not
    opened. *)
Theorem rewritten_call_has_two_arguments (level a M : text) (rest : list text) :
  no_stray_brace a = true ->
  split_args a = M :: rest -> rest <> [] ->
  (length rest =? 1) && object_literal (nth 0 rest []) = false ->
  exists obj,
    rewrite_call level (call_text level a) (split_args a)
    = call_text level (M ++ py ", " ++ obj)
    /\ object_literal obj = true
    /\ split_args (M ++ py ", " ++ obj) = [M; obj].
Proof.
  intros B S R O.
  pose proof (trimmed_split_args a) as T.
  rewrite (rewrite_call_spec level _ _ T), S.
  destruct rest as [|X rest]; [contradiction|]. rewrite O.
  set (J := join (py ", ")
              (map (fun '(n, arg) => property n arg)
                   (combine (List.seq 1 (length (X :: rest))) (X :: rest)))).
  assert (K : skeleton J = skeleton (concat (X :: rest)))
    by (unfold J; rewrite skeleton_join; apply skeleton_properties).
  exists (py "{ " ++ J ++ py " }"). split; [|split].
  - unfold call_text. app_norm.
  - unfold object_literal, endswith. rewrite !rev_app_distr. reflexivity.
  - rewrite <- (resplit a M (X :: rest) J B S R K). reflexivity.
Qed.

Lemma rewritten_call_has_two_arguments_witness :
  exists obj,
    rewrite_call (py "error") (call_text (py "error") (py "'failed', err, f(x"))
                 (split_args (py "'failed', err, f(x"))
    = call_text (py "error") (py "'failed'" ++ py ", " ++ obj)
    /\ object_literal obj = true
    /\ split_args (py "'failed'" ++ py ", " ++ obj) = [py "'failed'"; obj].
Proof.
  apply (rewritten_call_has_two_arguments (py "error")
           (py "'failed', err, f(x") (py "'failed'") [py "err"; py "f(x"]);
    (reflexivity || discriminate).
Defined.

Lemma delimiters_app (a b : text) :
  delimiters (a ++ b) = delimiters a ++ delimiters b.
Proof. apply filter_app. Qed.

Lemma delimiters_skeleton (s : text) : delimiters (skeleton s) = delimiters s.
Proof.
  induction s as [|c s IH]; [reflexivity|].
  change (skeleton (c :: s))
    with (if negb (plain c) then c :: skeleton s else skeleton s).
  change (delimiters (c :: s))
    with (if is_quote c || ch "("%char c || ch ")"%char c
          then c :: delimiters s else delimiters s).
  unfold plain. rewrite negb_involutive.
  destruct (is_quote c || ch "("%char c || ch ")"%char c) eqn:D;
    cbn [orb].
  - change (delimiters (c :: skeleton s))
      with (if is_quote c || ch "("%char c || ch ")"%char c
            then c :: delimiters (skeleton s) else delimiters (skeleton s)).
    rewrite D, IH. reflexivity.
  - destruct (ch "{"%char c || ch "}"%char c); [|exact IH].
    change (delimiters (c :: skeleton s))
      with (if is_quote c || ch "("%char c || ch ")"%char c
            then c :: delimiters (skeleton s) else delimiters (skeleton s)).
    rewrite D. exact IH.
Qed.

Lemma delimiters_rewrite_call (level a : text) :
  delimiters (rewrite_call level (call_text level a) (split_args a))
  = delimiters (call_text level a).
Proof.
  pose proof (trimmed_split_args a) as T.
  pose proof (skeleton_split_args a) as K.
  rewrite (rewrite_call_spec level _ _ T).
  destruct (split_args a) as [|M [|X rest]]; try reflexivity.
  destruct (_ && _); [reflexivity|].
  unfold call_text. rewrite !delimiters_app. f_equal. f_equal. f_equal.
  rewrite <- (delimiters_skeleton a), <- K.
  change (concat (M :: X :: rest)) with (M ++ concat (X :: rest)).
  rewrite skeleton_app, delimiters_app, !delimiters_skeleton.
  rewrite <- app_assoc. f_equal.
  rewrite <- (delimiters_skeleton (join _ _)), skeleton_join,
    skeleton_properties, delimiters_skeleton.
  reflexivity.
Qed.

Lemma delimiters_fix_content (n : nat) :
  forall s, length s <= n -> delimiters (fix_content s) = delimiters s.
Proof.
  induction n as [|n IH]; intros s Hn.
  - destruct s; [reflexivity | simpl in Hn; lia].
  - rewrite fix_content_step.
    destruct (call_at s) as [[[level args] rest]|] eqn:C.
    + destruct (call_at_sound _ _ _ _ C) as [_ [E _]].
      apply call_at_rest_shorter in C.
      rewrite delimiters_app, delimiters_rewrite_call, IH by lia.
      rewrite E, delimiters_app. reflexivity.
    + destruct s as [|c s]; [reflexivity|]. simpl in Hn.
      change (c :: fix_content s) with ([c] ++ fix_content s).
      change (c :: s) with ([c] ++ s).
      rewrite !delimiters_app, IH by lia. reflexivity.
Qed.

(** X5: the rewrite of a whole text keeps every quote and every
    parenthesis of the text, in their order; it adds and removes none. *)
Theorem rewrite_keeps_quotes_and_parentheses (T : text) :
  delimiters (fix_content T) = delimiters T.
Proof. apply (delimiters_fix_content (length T)). lia. Qed.

Lemma contains_tail (p : text) (c : ascii) (s : text) :
  contains p (c :: s) = false -> contains p s = false.
Proof. cbn [contains]. rewrite orb_false_iff. tauto. Qed.

(** X6: a text in which [log.] does not occur, or in which no closing
    parenthesis occurs, is returned as it is. *)
Theorem text_without_calls_is_unchanged (T : text) :
  contains (py "log.") T = false \/ forallb (not_ch ")"%char) T = true ->
  fix_content T = T.
Proof.
  intros [H | H]; [|apply fix_content_no_rparen, H].
  induction T as [|c T IH]; rewrite fix_content_step.
  - reflexivity.
  - destruct (call_at (c :: T)) as [[[level args] rest]|] eqn:C.
    + destruct (call_at_sound _ _ _ _ C) as [_ [E _]].
      exfalso. rewrite E in H. unfold call_text in H.
      rewrite <- !app_assoc in H.
      assert (contains (py "log.")
                (py "log." ++ level ++ py "(" ++ args ++ py ")" ++ rest) = true).
      { apply contains_spec.
        exists [], (level ++ py "(" ++ args ++ py ")" ++ rest). reflexivity. }
      congruence.
    + rewrite (IH (contains_tail _ _ _ H)). reflexivity.
Qed.

Lemma text_without_calls_is_unchanged_witness :
  fix_content (py "console.log('a', b, c);") = py "console.log('a', b, c);".
Proof.
  apply (text_without_calls_is_unchanged (py "console.log('a', b, c);")).
  left. reflexivity.
Defined.

(** ** The drivers: failures, other files, counts, second runs *)

Lemma fix_file_unfold (p : path) (w : world) :
  Logger.fix_file p w
  = match files w p with
    | None => (inr false, reported p FileNotFound w)
    | Some (File (inl e) _) => (inr false, reported p e w)
    | Some (File (inr T) wr) =>
        if text_eqb (Logger.fix_content T) T then (inr false, w)
        else if wr then (inr true, written p (Logger.fix_content T) w)
             else (inr false, reported p PermissionDenied w)
    end.
Proof.
  unfold Logger.fix_file, try_except, bind, read_file.
  destruct (files w p) as [[[e|T] wr]|] eqn:F; cbn [readable];
    try reflexivity.
  destruct (text_eqb (Logger.fix_content T) T); cbn [negb]; [reflexivity|].
  unfold write_file. rewrite F. destruct wr; reflexivity.
Qed.

Lemma migrate_file_unfold (p : path) (w : world) :
  migrate_file p w
  = match files w p with
    | None => (inl FileNotFound, w)
    | Some (File (inl e) _) => (inl e, w)
    | Some (File (inr T) wr) =>
        if text_eqb (migrate_text T) T then (inr false, w)
        else if wr then (inr true, written p (migrate_text T) w)
             else (inl PermissionDenied, w)
    end.
Proof.
  unfold migrate_file, migrate_text, bind, read_file.
  destruct (files w p) as [[[e|T] wr]|] eqn:F; cbn [readable];
    try reflexivity.
  destruct (migrate_content T) as [content|].
  - destruct (text_eqb content T); cbn [negb]; [reflexivity|].
    unfold write_file. rewrite F. destruct wr; reflexivity.
  - rewrite text_eqb_refl. reflexivity.
Qed.

(** X7: the logging driver turns every failure into a report and the
    answer [False]: a file that is missing or cannot be read, and a file
    that cannot be written although its text would change, are left as
    they are, and one report with the exception is printed. *)
Theorem fix_file_reports_failure (p : path) (w : world) (e : io_error) :
  read_file p w = (inl e, w)
  \/ (e = PermissionDenied
      /\ exists T, files w p = Some (File (inr T) false)
                   /\ Logger.fix_content T <> T) ->
  Logger.fix_file p w = (inr false, reported p e w).
Proof.
  rewrite fix_file_unfold. unfold read_file.
  intros [H | [-> [T [F D]]]].
  - destruct (files w p) as [[[e'|T] wr]|]; cbn [readable] in H;
      congruence.
  - rewrite F. apply text_eqb_neq in D. rewrite D. reflexivity.
Qed.

Lemma fix_file_reports_failure_witness :
  Logger.fix_file "locked/page.tsx"%string two_pages
  = (inr false, reported "locked/page.tsx"%string PermissionDenied two_pages).
Proof.
  apply (fix_file_reports_failure "locked/page.tsx"%string two_pages
           PermissionDenied).
  left. reflexivity.
Defined.

(** X8: the params driver has no handler.  It ends with an exception
    exactly when the page is missing or cannot be read, or when it cannot
    be written although its migrated text differs; nothing is written or
    printed then. *)
Theorem migrate_file_raises (p : path) (w w' : world) (e : io_error) :
  migrate_file p w = (inl e, w')
  <-> w' = w
      /\ (read_file p w = (inl e, w)
          \/ (e = PermissionDenied
              /\ exists T, files w p = Some (File (inr T) false)
                           /\ migrate_text T <> T)).
Proof.
  rewrite migrate_file_unfold. unfold read_file.
  destruct (files w p) as [[[e'|T] wr]|] eqn:F; cbn [readable].
  - split.
    + intros H. injection H as <- <-. auto.
    + intros [-> [H | [_ [T [H _]]]]]; congruence.
  - destruct (text_eqb (migrate_text T) T) eqn:D.
    + split; [discriminate|].
      intros [_ [H | [_ [T' [H N]]]]]; [discriminate|].
      injection H as <-. apply text_eqb_eq in D. contradiction.
    + destruct wr.
      * split; [discriminate|].
        intros [_ [H | [_ [T' [H N]]]]]; discriminate.
      * split.
        -- intros H. injection H as <- <-. split; [reflexivity|].
           right. split; [reflexivity|]. exists T. split; [reflexivity|].
           apply text_eqb_neq. exact D.
        -- intros [-> [H | [-> _]]]; [discriminate | reflexivity].
  - split.
    + intros H. injection H as <- <-. auto.
    + intros [-> [H | [_ [T [H _]]]]]; congruence.
Qed.

Lemma put_file_other (p q : path) (c : text) (fs : path -> option file) :
  q <> p -> put_file p c fs q = fs q.
Proof.
  intros N. unfold put_file.
  destruct (String.eqb q p) eqn:E; [|reflexivity].
  apply String.eqb_eq in E. contradiction.
Qed.

Lemma fix_file_frame (p q : path) (w : world) :
  q <> p -> files (snd (Logger.fix_file p w)) q = files w q.
Proof.
  intros N. rewrite fix_file_unfold.
  destruct (files w p) as [[[e|T] wr]|]; try reflexivity.
  destruct (text_eqb _ _); [reflexivity|].
  destruct wr; [|reflexivity]. apply put_file_other, N.
Qed.

Lemma migrate_file_frame (p q : path) (w : world) :
  q <> p -> files (snd (migrate_file p w)) q = files w q.
Proof.
  intros N. rewrite migrate_file_unfold.
  destruct (files w p) as [[[e|T] wr]|]; try reflexivity.
  destruct (text_eqb _ _); [reflexivity|].
  destruct wr; [|reflexivity]. apply put_file_other, N.
Qed.

Lemma fix_all_step (p : path) (fs : list path) (n : nat) (w : world) :
  Logger.fix_all (p :: fs) n w
  = match files w p with
    | None => Logger.fix_all fs n w
    | Some _ =>
        match Logger.fix_file p w with
        | (inr true, w') => Logger.fix_all fs (n + 1) w'
        | (inr false, w') => Logger.fix_all fs n w'
        | (inl e, w') => (inl e, w')
        end
    end.
Proof.
  cbn [Logger.fix_all]. unfold bind at 1. unfold path_exists.
  destruct (files w p); cbn [negb]; [|reflexivity].
  unfold bind. destruct (Logger.fix_file p w) as [[e|[|]] w']; reflexivity.
Qed.

Lemma migrate_all_step (p : path) (fs m s : list path) (w : world) :
  migrate_all (p :: fs) m s w
  = match files w p with
    | None => migrate_all fs m (s ++ [p])
                (World (files w) (events w ++ [NotFoundNotice p]))
    | Some _ =>
        match migrate_file p w with
        | (inr true, w') => migrate_all fs (m ++ [p]) s w'
        | (inr false, w') => migrate_all fs m (s ++ [p]) w'
        | (inl e, w') => (inl e, w')
        end
    end.
Proof.
  cbn [migrate_all]. unfold bind at 1. unfold path_exists.
  destruct (files w p); [|reflexivity].
  unfold bind. destruct (migrate_file p w) as [[e|[|]] w']; reflexivity.
Qed.

Lemma fix_all_frame (fs : list path) (q : path) :
  ~ In q fs ->
  forall n w, files (snd (Logger.fix_all fs n w)) q = files w q.
Proof.
  induction fs as [|p fs IH]; intros N n w; [reflexivity|].
  assert (Np : q <> p) by (intros ->; apply N; left; reflexivity).
  assert (Nf : ~ In q fs) by (intros H; apply N; right; exact H).
  rewrite fix_all_step.
  destruct (files w p); [|apply IH, Nf].
  pose proof (fix_file_frame p q w Np) as F.
  destruct (Logger.fix_file p w) as [[e|[|]] w']; cbn [snd] in *;
    try exact F; rewrite IH by exact Nf; exact F.
Qed.

Lemma migrate_all_frame (fs : list path) (q : path) :
  ~ In q fs ->
  forall m s w, files (snd (migrate_all fs m s w)) q = files w q.
Proof.
  induction fs as [|p fs IH]; intros N m s w; [reflexivity|].
  assert (Np : q <> p) by (intros ->; apply N; left; reflexivity).
  assert (Nf : ~ In q fs) by (intros H; apply N; right; exact H).
  rewrite migrate_all_step.
  destruct (files w p); [|rewrite IH by exact Nf; reflexivity].
  pose proof (migrate_file_frame p q w Np) as F.
  destruct (migrate_file p w) as [[e|[|]] w']; cbn [snd] in *;
    try exact F; rewrite IH by exact Nf; exact F.
Qed.

(** X9: a batch leaves every file outside its list as it was, whether it
    ends normally or with an exception. *)
Theorem batches_touch_only_listed_files
    (fs m s : list path) (n : nat) (w : world) (q : path) :
  ~ In q fs ->
  files (snd (Logger.fix_all fs n w)) q = files w q
  /\ files (snd (migrate_all fs m s w)) q = files w q.
Proof.
  intros N. split; [apply fix_all_frame | apply migrate_all_frame]; exact N.
Qed.

Lemma batches_touch_only_listed_files_witness :
  files (snd (Logger.fix_all ["tasks/page.tsx"%string] 0 two_pages))
        "locked/page.tsx"%string
  = files two_pages "locked/page.tsx"%string
  /\ files (snd (migrate_all ["tasks/page.tsx"%string] [] [] two_pages))
           "locked/page.tsx"%string
     = files two_pages "locked/page.tsx"%string.
Proof.
  apply (batches_touch_only_listed_files ["tasks/page.tsx"%string] [] [] 0
           two_pages "locked/page.tsx"%string).
  simpl. intros [H | []]. discriminate H.
Defined.

Lemma writes_app (a b : list event) : writes (a ++ b) = writes a ++ writes b.
Proof.
  induction a as [|[p c|p e|p] a IH]; cbn [writes app]; rewrite ?IH;
    reflexivity.
Qed.




Lemma migrate_file_events (p : path) (w w' : world) (b : bool) :
  migrate_file p w = (inr b, w') ->
  exists evs, events w' = events w ++ evs
              /\ writes evs = if b then [p] else [].
Proof.
  rewrite migrate_file_unfold.
  destruct (files w p) as [[[e|T] wr]|]; try discriminate.
  destruct (text_eqb _ _).
  - intros H. injection H as <- <-. exists []. rewrite app_nil_r. auto.
  - destruct wr; [|discriminate].
    intros H. injection H as <- <-.
    exists [Wrote p (migrate_text T)]. auto.
Qed.

Lemma migrate_all_lists (fs : list path) :
  forall m s w m' s' w',
    migrate_all fs m s w = (inr (m', s'), w') ->
    exists md sk evs,
      m' = m ++ md /\ s' = s ++ sk
      /\ Permutation (md ++ sk) fs
      /\ events w' = events w ++ evs
      /\ writes evs = md.
Proof.
  induction fs as [|p fs IH]; intros m s w m' s' w' H.
  - injection H as <- <- <-. exists [], [], [].
    rewrite !app_nil_r. repeat split. constructor.
  - rewrite migrate_all_step in H.
    destruct (files w p).
    + destruct (migrate_file p w) as [[e|b] w1] eqn:M; [discriminate|].
      destruct (migrate_file_events _ _ _ _ M) as [ev1 [E1 W1]].
      destruct b; apply IH in H;
        destruct H as [md [sk [evs [-> [-> [P [E W]]]]]]].
      * exists (p :: md), sk, (ev1 ++ evs).
        rewrite <- !app_assoc, writes_app, W1, E, E1, <- app_assoc, W.
        repeat split. cbn [app]. constructor. exact P.
      * exists md, (p :: sk), (ev1 ++ evs).
        rewrite <- !app_assoc, writes_app, W1, E, E1, <- app_assoc, W.
        repeat split. apply Permutation_sym, Permutation_cons_app,
          Permutation_sym, P.
    + apply IH in H. destruct H as [md [sk [evs [-> [-> [P [E W]]]]]]].
      exists md, (p :: sk), (NotFoundNotice p :: evs).
      rewrite <- !app_assoc, E. cbn [events writes]. rewrite <- app_assoc.
      repeat split; try assumption.
      apply Permutation_sym, Permutation_cons_app, Permutation_sym, P.
Qed.

(** X11: when the params batch ends normally, every page of its list has
    gone to exactly one of the two lists it returns, after the pages that
    were there before; the modified pages are the pages that were written,
    in the order of the writes. *)
Theorem migrate_all_sorts_every_page
    (fs m s m' s' : list path) (w w' : world) :
  migrate_all fs m s w = (inr (m', s'), w') ->
  exists md sk evs,
    m' = m ++ md /\ s' = s ++ sk
    /\ Permutation (md ++ sk) fs
    /\ events w' = events w ++ evs
    /\ writes evs = md.
Proof. apply migrate_all_lists. Qed.

Lemma migrate_all_sorts_every_page_witness :
  exists md sk evs,
    ["tasks/page.tsx"]%string = [] ++ md
    /\ ["gone/page.tsx"]%string = [] ++ sk
    /\ Permutation (md ++ sk) ["gone/page.tsx"; "tasks/page.tsx"]%string
    /\ events (written "tasks/page.tsx"%string hook_page_migrated
                 (World (files two_pages)
                        [NotFoundNotice "gone/page.tsx"%string]))
       = events two_pages ++ evs
    /\ writes evs = md.
Proof.
  apply (migrate_all_sorts_every_page
           ["gone/page.tsx"; "tasks/page.tsx"]%string [] []
           ["tasks/page.tsx"]%string ["gone/page.tsx"]%string two_pages).
  reflexivity.
Defined.

Lemma fix_all_app (a b : list path) :
  forall n w,
    Logger.fix_all (a ++ b) n w
    = bind (Logger.fix_all a n) (fun k => Logger.fix_all b k) w.
Proof.
  induction a as [|p a IH]; intros n w; [reflexivity|].
  cbn [app]. rewrite !fix_all_step. unfold bind at 1.
  rewrite fix_all_step.
  destruct (files w p).
  - destruct (Logger.fix_file p w) as [[e|[|]] w']; try reflexivity;
      rewrite IH; reflexivity.
  - rewrite IH. reflexivity.
Qed.

Lemma migrate_all_app (a b : list path) :
  forall m s w,
    migrate_all (a ++ b) m s w
    = bind (migrate_all a m s) (fun '(m', s') => migrate_all b m' s') w.
Proof.
  induction a as [|p a IH]; intros m s w; [reflexivity|].
  cbn [app]. rewrite !migrate_all_step. unfold bind at 1.
  rewrite migrate_all_step.
  destruct (files w p).
  - destruct (migrate_file p w) as [[e|[|]] w']; try reflexivity;
      rewrite IH; reflexivity.
  - rewrite IH. reflexivity.
Qed.

(** X12: a batch over a list is the batch over its first part followed by
    the batch over the rest, which starts from the count or the lists and
    from the files the first part has left.  If the first part of a params
    batch raises, what it has written stays written and the rest is not
    looked at. *)
Theorem batches_compose (a b m s : list path) (n : nat) (w : world) :
  Logger.fix_all (a ++ b) n w
  = bind (Logger.fix_all a n) (fun k => Logger.fix_all b k) w
  /\ migrate_all (a ++ b) m s w
     = match migrate_all a m s w with
       | (inr (m', s'), w') => migrate_all b m' s' w'
       | (inl e, w') => (inl e, w')
       end.
Proof.
  split; [apply fix_all_app|].
  rewrite migrate_all_app. unfold bind.
  destruct (migrate_all a m s w) as [[e|[m' s']] w']; reflexivity.
Qed.

Lemma fix_file_settled (p : path) (T : text) (w : world) :
  files w p = Some (File (inr T) true) ->
  Logger.fix_content (Logger.fix_content T) = Logger.fix_content T ->
  Logger.fix_file p (snd (Logger.fix_file p w))
  = (inr false, snd (Logger.fix_file p w)).
Proof.
  intros F I. rewrite (fix_file_readable p T w F).
  destruct (text_eqb (Logger.fix_content T) T) eqn:D; cbn [snd].
  - rewrite (fix_file_readable p T w F), D. reflexivity.
  - rewrite (fix_file_readable p (Logger.fix_content T)).
    + rewrite I, text_eqb_refl. reflexivity.
    + cbn [written files]. unfold put_file. rewrite String.eqb_refl.
      reflexivity.
Qed.

Lemma migrate_file_settled (p : path) (T : text) (w : world) :
  files w p = Some (File (inr T) true) ->
  migrate_text (migrate_text T) = migrate_text T ->
  migrate_file p (snd (migrate_file p w))
  = (inr false, snd (migrate_file p w)).
Proof.
  intros F I. rewrite (migrate_file_readable p T w F).
  destruct (text_eqb (migrate_text T) T) eqn:D; cbn [snd].
  - rewrite (migrate_file_readable p T w F), D. reflexivity.
  - rewrite (migrate_file_readable p (migrate_text T)).
    + rewrite I, text_eqb_refl. reflexivity.
    + cbn [written files]. unfold put_file. rewrite String.eqb_refl.
      reflexivity.
Qed.

Lemma migrate_text_settled (T : text) :
  contains (py "use(params)") (migrate_text T) = true \/ migrate_text T = T ->
  migrate_text (migrate_text T) = migrate_text T.
Proof.
  intros [H | H].
  - unfold migrate_text at 1. unfold migrate_content.
    rewrite already_migrated_spec, H. reflexivity.
  - rewrite !H. reflexivity.
Qed.

(** X13: a second run of a driver on a file it could read and write
    answers [False] and writes nothing, for the logging driver when no
    call of the file closes a brace it has not opened, for the params
    driver when the migrated text carries the unwrap call or the page was
    left as it was. *)
Theorem second_run_changes_nothing (p : path) (T : text) (w : world) :
  files w p = Some (File (inr T) true) ->
  (Logger.calls_braced T = true ->
   Logger.fix_file p (snd (Logger.fix_file p w))
   = (inr false, snd (Logger.fix_file p w)))
  /\ (contains (py "use(params)") (migrate_text T) = true
      \/ migrate_text T = T ->
      migrate_file p (snd (migrate_file p w))
      = (inr false, snd (migrate_file p w))).
Proof.
  intros F. split; intros H.
  - apply (fix_file_settled p T w F).
    apply (fix_content_idem (length T)); [lia | exact H].
  - apply (migrate_file_settled p T w F), migrate_text_settled, H.
Qed.

Lemma second_run_changes_nothing_witness :
  migrate_file "tasks/page.tsx"%string
    (snd (migrate_file "tasks/page.tsx"%string two_pages))
  = (inr false, snd (migrate_file "tasks/page.tsx"%string two_pages)).
Proof.
  apply (second_run_changes_nothing "tasks/page.tsx"%string hook_page
           two_pages).
  - reflexivity.
  - left. vm_compute. reflexivity.
Defined.

(** ** The two entry points *)

Lemma migrate_file_unchanged (p : path) (w w' : world) :
  migrate_file p w = (inr false, w') -> w' = w.
Proof.
  rewrite migrate_file_unfold.
  destruct (files w p) as [[[e|T] wr]|]; try discriminate.
  destruct (text_eqb _ _); [congruence|].
  destruct wr; discriminate.
Qed.

Lemma migrate_all_untouched (fs : list path) :
  forall m s w m' s' w',
    migrate_all fs m s w = (inr (m', s'), w') -> m' = m ->
    forall q, files w' q = files w q.
Proof.
  induction fs as [|p fs IH]; intros m s w m' s' w' H E q.
  - injection H as _ _ <-. reflexivity.
  - rewrite migrate_all_step in H.
    destruct (files w p).
    + destruct (migrate_file p w) as [[e|[|]] w1] eqn:M; [discriminate| |].
      * destruct (migrate_all_lists _ _ _ _ _ _ _ H)
          as [md [sk [evs [Em _]]]].
        exfalso. rewrite E, <- app_assoc in Em.
        apply (f_equal (@length path)) in Em.
        rewrite !length_app in Em. simpl in Em. lia.
      * apply migrate_file_unchanged in M. subst w1.
        apply (IH _ _ _ _ _ _ H E).
    + apply (IH _ _ _ _ _ _ H E).
Qed.

(** X14: when the params script ends normally, its exit status is 0 if
    it has written at least one page and 1 if it has written none; with
    status 1 no file has changed.  A run that finds every page migrated
    already therefore ends with the status of a failure. *)
Theorem params_main_exit_status (w w' : world) (code : Z) :
  Params.main w = (inr code, w') ->
  exists evs,
    events w' = events w ++ evs
    /\ ((code = 0%Z /\ writes evs <> [])
        \/ (code = 1%Z /\ writes evs = []
            /\ forall q, files w' q = files w q)).
Proof.
  unfold Params.main, bind.
  destruct (migrate_all files_to_migrate [] [] w) as [[e|[m s]] w1] eqn:M;
    [discriminate|].
  unfold ret. intros H. injection H as <- <-.
  destruct (migrate_all_lists _ _ _ _ _ _ _ M)
    as [md [sk [evs [Em [_ [_ [E W]]]]]]].
  cbn [app] in Em. subst md.
  exists evs. split; [exact E|].
  destruct m as [|x m].
  - right. repeat split; try assumption.
    apply (migrate_all_untouched _ _ _ _ _ _ _ M eq_refl).
  - left. split; [reflexivity|]. rewrite W. discriminate.
Qed.


Lemma params_main_exit_status_witness :
  exists evs,
    events (snd (Params.main (World (fun _ => None) [])))
    = events (World (fun _ => None) []) ++ evs
    /\ ((1%Z = 0%Z /\ writes evs <> [])
        \/ (1%Z = 1%Z /\ writes evs = []
            /\ forall q, files (snd (Params.main (World (fun _ => None) []))) q
                         = files (World (fun _ => None) []) q)).
Proof.
  apply (params_main_exit_status (World (fun _ => None) [])
           (snd (Params.main (World (fun _ => None) []))) 1%Z).
  vm_compute. reflexivity.
Defined.

(** X15: the logging script never ends with an exception: whatever the
    compiler runs and the files do, it returns the exit status 0 or 1,
    and 1 whenever the first compiler run cannot be started. *)
Theorem logger_main_never_raises (tsc : io text) (w : world) :
  (exists code w', Logger.main tsc w = (inr code, w')
                   /\ (code = 0%Z \/ code = 1%Z))
  /\ (forall e w1, tsc w = (inl e, w1) -> Logger.main tsc w = (inr 1%Z, w1)).
Proof.
  unfold Logger.main, try_except. split.
  - destruct (bind tsc _ w) as [[e|code] w'] eqn:B.
    + exists 1%Z, w'. auto.
    + exists code, w'. split; [reflexivity|].
      unfold bind in B.
      destruct (tsc w) as [[e|stderr] w1]; [discriminate|].
      destruct (Logger.error_files stderr) as [|f fs].
      * injection B as <- _. auto.
      * destruct (Logger.fix_all _ 0 w1) as [[e|n] w2]; [discriminate|].
        destruct (tsc w2) as [[e|stderr2] w3]; [discriminate|].
        destruct (_ =? 0).
        -- injection B as <- _. auto.
        -- destruct (write_file _ _ w3) as [[e|[]] w4]; [discriminate|].
           injection B as <- _. auto.
  - intros e w1 H. unfold bind. rewrite H. reflexivity.
Qed.

Lemma logger_main_never_raises_witness :
  Logger.main (raise FileNotFound) two_pages = (inr 1%Z, two_pages).
Proof.
  apply (proj2 (logger_main_never_raises (raise FileNotFound) two_pages)
           FileNotFound two_pages).
  reflexivity.
Defined.

(** *** The files the logging script works on *)

Lemma text_ltb_irrefl (a : text) : Logger.text_ltb a a = false.
Proof.
  induction a as [|x a IH]; [reflexivity|]. cbn [Logger.text_ltb].
  rewrite Nat.ltb_irrefl, IH, andb_false_r. reflexivity.
Qed.

Lemma text_ltb_cons (x y : ascii) (a b : text) :
  Logger.text_ltb (x :: a) (y :: b) = true
  <-> nat_of_ascii x < nat_of_ascii y
      \/ (x = y /\ Logger.text_ltb a b = true).
Proof.
  cbn [Logger.text_ltb].
  rewrite orb_true_iff, andb_true_iff, Nat.ltb_lt, Ascii.eqb_eq. tauto.
Qed.

Lemma text_ltb_trans (a b c : text) :
  Logger.text_ltb a b = true -> Logger.text_ltb b c = true ->
  Logger.text_ltb a c = true.
Proof.
  revert b c; induction a as [|x a IH]; intros [|y b] [|z c]; try discriminate;
    try reflexivity.
  rewrite !text_ltb_cons.
  intros [H1 | [-> H1]] [H2 | [-> H2]]; try (left; lia); try (left; assumption).
  right. split; [reflexivity|]. apply (IH b c); assumption.
Qed.

Lemma text_ltb_total (a b : text) :
  Logger.text_ltb a b = false -> text_eqb a b = false ->
  Logger.text_ltb b a = true.
Proof.
  revert b; induction a as [|x a IH]; intros [|y b]; try discriminate;
    try reflexivity.
  cbn [Logger.text_ltb text_eqb].
  rewrite orb_false_iff, Nat.ltb_ge.
  intros [L H] E.
  destruct (Ascii.eqb x y) eqn:X; cbn [andb] in *.
  - apply Ascii.eqb_eq in X. subst y. rewrite Ascii.eqb_refl.
    rewrite (IH b H E). apply orb_true_r.
  - assert (N : nat_of_ascii x <> nat_of_ascii y).
    { intros Q. apply (f_equal ascii_of_nat) in Q.
      rewrite !ascii_nat_embedding in Q. subst y.
      rewrite Ascii.eqb_refl in X. discriminate. }
    assert (Lt : (nat_of_ascii y <? nat_of_ascii x) = true)
      by (apply Nat.ltb_lt; lia).
    rewrite Lt. reflexivity.
Qed.


Lemma set_add_in (x y : text) (l : list text) :
  In y (Logger.set_add x l) <-> y = x \/ In y l.
Proof.
  induction l as [|z l IH]; cbn [Logger.set_add].
  - simpl. intuition auto.
  - destruct (Logger.text_ltb x z).
    + simpl. intuition auto.
    + destruct (text_eqb x z) eqn:E.
      * apply text_eqb_eq in E. subst z. simpl. intuition auto.
      * simpl. rewrite IH. intuition auto.
Qed.

Lemma set_add_sorted (x : text) (l : list text) :
  StronglySorted (fun a b => Logger.text_ltb a b = true) l ->
  StronglySorted (fun a b => Logger.text_ltb a b = true) (Logger.set_add x l).
Proof.
  induction l as [|z l IH]; intros S; cbn [Logger.set_add].
  - repeat constructor.
  - inversion S as [|? ? S' F]; subst.
    destruct (Logger.text_ltb x z) eqn:L.
    + constructor; [exact S|]. constructor; [exact L|].
      rewrite Forall_forall in *. intros u U.
      apply (text_ltb_trans x z u L (F u U)).
    + destruct (text_eqb x z) eqn:E; [exact S|].
      constructor; [apply IH, S'|].
      rewrite Forall_forall in *. intros u U.
      apply set_add_in in U. destruct U as [-> | U]; [|apply F, U].
      apply text_ltb_total; [exact L | exact E].
Qed.

Lemma split_on_cons (c : ascii) (s : text) :
  exists h t, Logger.split_on c s = h :: t.
Proof.
  destruct s as [|x s]; cbn [Logger.split_on]; [eauto|].
  destruct (Ascii.eqb x c); [eauto|].
  destruct (Logger.split_on c s); eauto.
Qed.

Lemma split_on_head (c : ascii) (s : text) :
  contains [c] s = true ->
  exists rest,
    s = hd [] (Logger.split_on c s) ++ c :: rest
    /\ forallb (not_ch c) (hd [] (Logger.split_on c s)) = true.
Proof.
  induction s as [|x s IH]; [discriminate|].
  intros H. cbn [Logger.split_on].
  destruct (Ascii.eqb x c) eqn:X.
  - apply Ascii.eqb_eq in X. subst x. exists s. split; reflexivity.
  - assert (C : contains [c] s = true).
    { cbn [contains startswith] in H. rewrite Ascii.eqb_sym, X in H.
      exact H. }
    destruct (IH C) as [rest [E F]].
    destruct (split_on_cons c s) as [h [t Q]]. rewrite Q in *.
    cbn [hd] in *. exists rest. split.
    + cbn [app]. rewrite <- E. reflexivity.
    + cbn [forallb]. rewrite F. unfold not_ch.
      rewrite Ascii.eqb_sym, X. reflexivity.
Qed.

Lemma split_on_prefix (c : ascii) (p rest : text) :
  forallb (not_ch c) p = true ->
  hd [] (Logger.split_on c (p ++ c :: rest)) = p.
Proof.
  induction p as [|x p IH]; cbn [forallb app Logger.split_on]; intros F.
  - rewrite Ascii.eqb_refl. reflexivity.
  - apply andb_true_iff in F. destruct F as [N F].
    unfold not_ch in N. rewrite Ascii.eqb_sym in N.
    apply negb_true_iff in N. rewrite N.
    specialize (IH F).
    destruct (split_on_cons c (p ++ c :: rest)) as [h [t Q]].
    rewrite Q in *. cbn [hd] in *. congruence.
Qed.

Lemma prefix_before (c : ascii) (u t p rest : text) :
  u ++ t = p ++ c :: rest -> forallb (not_ch c) u = true ->
  exists p', p = u ++ p'.
Proof.
  revert p; induction u as [|x u IH]; intros p E F; [exists p; reflexivity|].
  cbn [forallb] in F. apply andb_true_iff in F. destruct F as [N F].
  destruct p as [|y p]; cbn [app] in E; injection E as -> E.
  - unfold not_ch in N. rewrite Ascii.eqb_refl in N. discriminate.
  - destruct (IH p E F) as [p' ->]. exists p'. reflexivity.
Qed.

Lemma error_files_fold (ls : list text) :
  forall acc,
    StronglySorted (fun a b => Logger.text_ltb a b = true) acc ->
    StronglySorted (fun a b => Logger.text_ltb a b = true)
                   (fold_left Logger.add_line ls acc)
    /\ forall p, In p (fold_left Logger.add_line ls acc)
                 <-> In p acc
                     \/ exists line,
                          In line ls /\ contains (py "(") line = true
                          /\ p = hd [] (Logger.split_on "("%char line).
Proof.
  induction ls as [|l ls IH]; intros acc S; cbn [fold_left].
  - split; [exact S|]. intros p. split; [auto|].
    intros [H | [line [[] _]]]. exact H.
  - assert (S' : StronglySorted (fun a b => Logger.text_ltb a b = true)
                   (Logger.add_line acc l)).
    { unfold Logger.add_line. destruct (contains _ l); [|exact S].
      apply set_add_sorted, S. }
    destruct (IH _ S') as [R M]. split; [exact R|].
    intros p. rewrite M. unfold Logger.add_line.
    destruct (contains (py "(") l) eqn:C.
    + rewrite set_add_in. split.
      * intros [[-> | H] | [line [I [C' E]]]]; auto.
        -- right. exists l. simpl. auto.
        -- right. exists line. simpl. auto.
      * intros [H | [line [[<- | I] [C' E]]]]; auto.
        right. exists line. auto.
    + split.
      * intros [H | [line [I [C' E]]]]; auto.
        right. exists line. simpl. auto.
      * intros [H | [line [[<- | I] [C' E]]]]; auto; [congruence|].
        right. exists line. auto.
Qed.

(** X16: the files the logging script works on are, without repetition
    and in the order of their code points, the texts that stand in front
    of the first opening parenthesis of an error line, a line of the
    compiler's error output that starts with [src/]; a line without an
    opening parenthesis gives no file.  Every such path starts with
    [src/]. *)
Theorem error_files_sorted_prefixes (stderr : text) :
  StronglySorted (fun a b => Logger.text_ltb a b = true)
                 (Logger.error_files stderr)
  /\ forall p,
       In p (Logger.error_files stderr)
       <-> exists line rest,
             In line (Logger.split_on newline stderr)
             /\ startswith (py "src/") line = true
             /\ line = p ++ py "(" ++ rest
             /\ forallb (not_ch "("%char) p = true
             /\ startswith (py "src/") p = true.
Proof.
  destruct (error_files_fold (Logger.error_lines stderr) [])
    as [S M]; [constructor|].
  split; [exact S|]. intros p.
  change (Logger.error_files stderr)
    with (fold_left Logger.add_line (Logger.error_lines stderr) []).
  rewrite M. unfold Logger.error_lines. split.
  - intros [[] | [line [I [C E]]]].
    apply filter_In in I. destruct I as [I W].
    destruct (split_on_head "("%char line C) as [rest [L F]].
    rewrite <- E in L, F.
    exists line, rest. repeat split; try assumption.
    apply startswith_spec in W. destruct W as [t W].
    rewrite W in L.
    destruct (prefix_before "("%char (py "src/") t p rest L eq_refl)
      as [p' ->].
    apply startswith_spec. eauto.
  - intros [line [rest [I [W [L [F _]]]]]].
    right. exists line. rewrite filter_In. repeat split; try assumption.
    + apply contains_spec. exists p, rest. exact L.
    + rewrite L. symmetry. apply split_on_prefix, F.
Qed.

(** ** Substitutions that leave a marker alone *)

Lemma compatible_app (a b c d : text) :
  a ++ b = c ++ d -> compatible a c = true.
Proof.
  revert c; induction a as [|x a IH]; intros c E.
  - reflexivity.
  - destruct c as [|y c].
    + unfold compatible. cbn [startswith]. apply orb_true_r.
    + cbn [app] in E. injection E as -> E.
      specialize (IH c E). unfold compatible in *. cbn [startswith].
      rewrite Ascii.eqb_refl. exact IH.
Qed.

Section Keep.

Variable r : regex.
Variable repl : match_obj -> text.
Variables M p : text.

Hypothesis shape :
  forall prev s n gs,
    match_here r prev s = Some (n, gs) ->
    n = length M /\ exists rest, s = M ++ rest.
Hypothesis apart : overlap M p = false.

Lemma keep_inside (y : text) limit :
  forall q u prev pos,
    p = u ++ q ->
    sub_from r repl limit 0 prev (q ++ y) pos
    = q ++ sub_from r repl limit 0 (prev_after prev q) y (pos + length q).
Proof.
  induction q as [|c q IH]; intros u prev pos E.
  - simpl. rewrite Nat.add_0_r. reflexivity.
  - assert (N : exhausted limit = true
                \/ match_here r prev ((c :: q) ++ y) = None).
    { destruct (exhausted limit); [auto|]. right.
      destruct (match_here r prev ((c :: q) ++ y)) as [[n gs]|] eqn:H;
        [|reflexivity].
      exfalso. destruct (shape _ _ _ _ H) as [_ [rest S]].
      apply compatible_app in S.
      unfold overlap in apart. apply orb_false_iff in apart.
      destruct apart as [_ A].
      assert (X : existsb (fun i => compatible (skipn i p) M)
                    (List.seq 0 (length p)) = true).
      { apply existsb_exists. exists (length u). split.
        - apply in_seq. rewrite E, length_app. simpl. lia.
        - rewrite E, skipn_length_app. exact S. }
      congruence. }
    assert (Q : sub_from r repl limit 0 prev ((c :: q) ++ y) pos
                = c :: sub_from r repl limit 0 (Some c) (q ++ y) (S pos)).
    { destruct N as [N | N].
      - cbn [app sub_from]. rewrite N. reflexivity.
      - rewrite (sub_from_miss _ _ _ _ _ _ N). reflexivity. }
    rewrite Q. rewrite (IH (u ++ [c])).
    + cbn [length app prev_after fold_left].
      rewrite <- Nat.add_succ_comm. reflexivity.
    + rewrite <- app_assoc. exact E.
Qed.

Lemma keep_before (y : text) :
  forall x limit skip prev pos,
    skip <= length x ->
    exists x' y',
      sub_from r repl limit skip prev (x ++ p ++ y) pos = x' ++ p ++ y'.
Proof.
  induction x as [|c x IH]; intros limit skip prev pos L.
  - simpl in L. assert (skip = 0) by lia. subst skip.
    cbn [app]. rewrite (keep_inside y limit p [] prev pos eq_refl).
    exists [], (sub_from r repl limit 0 (prev_after prev p) y
                  (pos + length p)).
    reflexivity.
  - destruct skip as [|k].
    + cbn [app sub_from].
      destruct (exhausted limit) eqn:X.
      * destruct (IH limit 0 (Some c) (S pos)) as [x' [y' E]]; [lia|].
        exists (c :: x'), y'. rewrite E. reflexivity.
      * destruct (match_here r prev (c :: x ++ p ++ y)) as [[n gs]|] eqn:H.
        -- destruct (shape _ _ _ _ H) as [En [rest Sh]].
           assert (Ln : n <= length (c :: x)).
           { destruct (le_lt_dec n (length (c :: x))) as [?|G]; [assumption|].
             exfalso.
             assert (Z : M = firstn (length (c :: x)) M
                             ++ skipn (length (c :: x)) M)
               by (symmetry; apply firstn_skipn).
             assert (Fx : firstn (length (c :: x)) M = c :: x).
             { apply (f_equal (firstn (length (c :: x)))) in Sh.
               change (c :: x ++ p ++ y) with ((c :: x) ++ p ++ y) in Sh.
               rewrite firstn_length_app in Sh.
               rewrite firstn_app in Sh.
               replace (length (c :: x) - length M) with 0 in Sh by lia.
               rewrite firstn_O, app_nil_r in Sh. symmetry. exact Sh. }
             rewrite Z, Fx in Sh.
             change (c :: x ++ p ++ y) with ((c :: x) ++ p ++ y) in Sh.
             rewrite <- app_assoc in Sh. apply app_inv_head in Sh.
             symmetry in Sh. apply compatible_app in Sh.
             unfold overlap in apart. apply orb_false_iff in apart.
             destruct apart as [A _].
             assert (Y : existsb (fun k => compatible (skipn k M) p)
                           (List.seq 1 (length M - 1)) = true).
             { apply existsb_exists. exists (length (c :: x)). split.
               - apply in_seq. simpl in *. lia.
               - exact Sh. }
             congruence. }
           destruct (IH (spend limit) (n - 1) (Some c) (S pos))
             as [x' [y' E]]; [simpl in Ln; lia|].
           rewrite E.
           exists (repl (Match pos (firstn n (c :: x ++ p ++ y)) gs)
                   ++ (if n =? 0 then [c] else []) ++ x'), y'.
           rewrite <- !app_assoc. reflexivity.
        -- destruct (IH limit 0 (Some c) (S pos)) as [x' [y' E]]; [lia|].
           exists (c :: x'), y'. rewrite E. reflexivity.
    + cbn [app sub_from].
      destruct (IH limit k (Some c) (S pos)) as [x' [y' E]];
        [simpl in L; lia|].
      exists x', y'. exact E.
Qed.

Lemma sub_keeps (s : text) limit prev pos :
  contains p s = true ->
  contains p (sub_from r repl limit 0 prev s pos) = true.
Proof.
  rewrite !contains_spec. intros [x [y ->]].
  apply (keep_before y x limit 0 prev pos). lia.
Qed.

End Keep.

Lemma matches_word_b_inv (a : text) : matches WordB a -> a = [].
Proof. intros H. inversion H. reflexivity. Qed.

Lemma params_access_shape (name : text) prev (s : text) n gs :
  match_here (params_access_re name) prev s = Some (n, gs) ->
  n = length (py "params." ++ name)
  /\ exists rest, s = (py "params." ++ name) ++ rest.
Proof.
  intros H. apply match_here_sound in H.
  destruct H as [a [b [-> [-> M]]]].
  unfold params_access_re in M. cbn [chain] in M.
  apply matches_cat_inv in M. destruct M as [x1 [r1 [-> [M1 M]]]].
  apply matches_cat_inv in M. destruct M as [x2 [r2 [-> [M2 M]]]].
  apply matches_cat_inv in M. destruct M as [x3 [x4 [-> [M3 M4]]]].
  apply matches_word_b_inv in M1, M4. apply matches_lit_text in M2, M3.
  subst. cbn [app]. rewrite app_nil_r. split; [reflexivity|].
  exists b. reflexivity.
Qed.

Lemma whole_word_shape (name : text) prev (s : text) n gs :
  match_here (whole_word_re name) prev s = Some (n, gs) ->
  n = length name /\ exists rest, s = name ++ rest.
Proof.
  intros H. apply match_here_sound in H.
  destruct H as [a [b [-> [-> M]]]].
  unfold whole_word_re in M. cbn [chain] in M.
  apply matches_cat_inv in M. destruct M as [x1 [r1 [-> [M1 M]]]].
  apply matches_cat_inv in M. destruct M as [x2 [x3 [-> [M2 M3]]]].
  apply matches_word_b_inv in M1, M3. apply matches_lit_text in M2.
  subst. cbn [app]. rewrite app_nil_r. split; [reflexivity|].
  exists b. reflexivity.
Qed.

Lemma access_rewrite_keeps (name c : text) :
  name = py "id" \/ name = py "trackingNumber" ->
  contains (unwrap_statement name) c = true ->
  contains (unwrap_statement name)
           (re_sub (params_access_re name) (fun _ => name) c) = true.
Proof.
  intros N H. unfold re_sub.
  apply (sub_keeps _ _ (py "params." ++ name) (unwrap_statement name));
    [apply params_access_shape | | exact H].
  destruct N as [-> | ->]; vm_compute; reflexivity.
Qed.

Lemma renaming_keeps (name : text) (l : list (string * string)) :
  forallb (fun '(old_var, _) => negb (overlap (py old_var) (unwrap_statement name)))
          l = true ->
  forall c,
    contains (unwrap_statement name) c = true ->
    contains (unwrap_statement name)
      (fold_left (fun content '(old_var, new_var) =>
                    re_sub (whole_word_re (py old_var)) (fun _ => py new_var)
                           content)
                 l c) = true.
Proof.
  induction l as [|[old_var new_var] l IH]; intros A c H; [exact H|].
  cbn [forallb] in A. apply andb_true_iff in A. destruct A as [A1 A2].
  apply negb_true_iff in A1.
  cbn [fold_left]. apply (IH A2). unfold re_sub.
  apply (sub_keeps _ _ (py old_var) (unwrap_statement name));
    [apply whole_word_shape | exact A1 | exact H].
Qed.

Lemma find_from_some (c : ascii) (s : text) :
  forall start i,
    find_from c s start = Some i ->
    start <= i
    /\ exists a b, s = a ++ c :: b /\ length a = i
                   /\ forallb (not_ch c) (skipn start a) = true.
Proof.
  induction s as [|x s IH]; intros start i H.
  - destruct start; discriminate.
  - destruct start as [|n]; cbn [find_from] in H.
    + destruct (Ascii.eqb x c) eqn:X.
      * injection H as <-. apply Ascii.eqb_eq in X. subst x.
        split; [lia|]. exists [], s. auto.
      * destruct (find_from c s 0) as [j|] eqn:F; [|discriminate].
        injection H as <-.
        destruct (IH 0 j F) as [_ [a [b [-> [L N]]]]].
        split; [lia|]. exists (x :: a), b. cbn [skipn] in *.
        repeat split; [simpl; lia|].
        cbn [forallb]. unfold not_ch at 1. rewrite Ascii.eqb_sym, X.
        exact N.
    + destruct (find_from c s n) as [j|] eqn:F; [|discriminate].
      injection H as <-.
      destruct (IH n j F) as [Ln [a [b [-> [L N]]]]].
      split; [lia|]. exists (x :: a), b.
      repeat split; [simpl; lia | exact N].
Qed.

Lemma find_from_none (c : ascii) (s : text) :
  forall start,
    find_from c s start = None ->
    forallb (not_ch c) (skipn start s) = true.
Proof.
  induction s as [|x s IH]; intros start H.
  - destruct start; reflexivity.
  - destruct start as [|n]; cbn [find_from] in H.
    + destruct (Ascii.eqb x c) eqn:X; [discriminate|].
      destruct (find_from c s 0) eqn:F; [discriminate|].
      cbn [skipn forallb]. unfold not_ch at 1.
      rewrite Ascii.eqb_sym, X. apply (IH 0 F).
    + destruct (find_from c s n) eqn:F; [discriminate|].
      apply (IH n F).
Qed.

Lemma insert_unwrap_found (name : text) (fm : match_obj) (c : text) (i : nat) :
  find_from newline c (match_end fm) = Some i ->
  exists a b,
    c = a ++ newline :: b /\ length a = i /\ match_end fm <= i
    /\ forallb (not_ch newline) (skipn (match_end fm) a) = true
    /\ insert_unwrap name fm c = a ++ newline :: unwrap_statement name ++ b.
Proof.
  intros H. unfold insert_unwrap. rewrite H.
  destruct (find_from_some _ _ _ _ H) as [L [a [b [-> [La N]]]]].
  exists a, b. repeat split; try assumption.
  replace (a ++ newline :: b) with ((a ++ [newline]) ++ b)
    by (rewrite <- app_assoc; reflexivity).
  replace (i + 1) with (length (a ++ [newline]))
    by (rewrite length_app; simpl; lia).
  rewrite firstn_length_app, skipn_length_app, <- app_assoc. reflexivity.
Qed.

(** X17: the unwrap statement is put right behind the first newline
    that follows the opening brace of the component, and nothing else of
    the text changes; when no newline follows the brace, nothing is
    put in. *)
Theorem unwrap_goes_behind_next_newline (name : text) (fm : match_obj)
    (c : text) :
  match find_from newline c (match_end fm) with
  | Some i =>
      exists a b,
        c = a ++ newline :: b /\ length a = i /\ match_end fm <= i
        /\ forallb (not_ch newline) (skipn (match_end fm) a) = true
        /\ insert_unwrap name fm c
           = a ++ newline :: unwrap_statement name ++ b
  | None =>
      forallb (not_ch newline) (skipn (match_end fm) c) = true
      /\ insert_unwrap name fm c = c
  end.
Proof.
  destruct (find_from newline c (match_end fm)) as [i|] eqn:H.
  - apply insert_unwrap_found, H.
  - split; [apply find_from_none, H|].
    unfold insert_unwrap. rewrite H. reflexivity.
Qed.

Lemma unwrap_is_marker (name c : text) :
  contains (unwrap_statement name) c = true ->
  already_migrated c = true.
Proof.
  intros H. rewrite already_migrated_spec.
  apply (contains_longer (py "  const { " ++ name ++ py " } = ")
           (py "use(params)") (py ";" ++ [newline])).
  replace ((py "  const { " ++ name ++ py " } = ") ++ py "use(params)"
           ++ py ";" ++ [newline])
    with (unwrap_statement name); [exact H|].
  unfold unwrap_statement. rewrite <- !app_assoc. reflexivity.
Qed.

Lemma unwrap_inserted (name : text) (fm : match_obj) (c : text) (i : nat) :
  find_from newline c (match_end fm) = Some i ->
  contains (unwrap_statement name) (insert_unwrap name fm c) = true.
Proof.
  intros H. destruct (insert_unwrap_found name fm c i H)
    as [a [b [_ [_ [_ [_ ->]]]]]].
  apply contains_spec. exists (a ++ [newline]), b.
  rewrite <- app_assoc. reflexivity.
Qed.

(** X18: once the unwrap statement is in the text, the renaming that
    ends each of the two migrations keeps it: the replacement of the
    accesses [params.NAME] in the prop pattern and the replacement of the
    old variable names in the hook pattern leave it where it is, so the
    result counts as migrated. *)
Theorem inserted_unwrap_survives (name : text) (fm : match_obj) (c : text)
    (i : nat) :
  name = py "id" \/ name = py "trackingNumber" ->
  find_from newline c (match_end fm) = Some i ->
  let renamed_accesses :=
    re_sub (params_access_re name) (fun _ => name)
           (insert_unwrap name fm c) in
  let renamed_variables :=
    fold_left (fun content '(old_var, new_var) =>
                 re_sub (whole_word_re (py old_var)) (fun _ => py new_var)
                        content)
              id_replacements (insert_unwrap name fm c) in
  contains (unwrap_statement name) renamed_accesses = true
  /\ contains (unwrap_statement name) renamed_variables = true
  /\ already_migrated renamed_accesses = true
  /\ already_migrated renamed_variables = true.
Proof.
  intros N H. cbv zeta.
  pose proof (unwrap_inserted name fm c i H) as U.
  assert (A : contains (unwrap_statement name)
                (re_sub (params_access_re name) (fun _ => name)
                        (insert_unwrap name fm c)) = true)
    by (apply access_rewrite_keeps; assumption).
  assert (B : contains (unwrap_statement name)
                (fold_left (fun content '(old_var, new_var) =>
                              re_sub (whole_word_re (py old_var))
                                     (fun _ => py new_var) content)
                           id_replacements (insert_unwrap name fm c)) = true).
  { apply renaming_keeps; [|exact U].
    destruct N as [-> | ->]; vm_compute; reflexivity. }
  repeat split; try assumption; apply (unwrap_is_marker name); assumption.
Qed.

Lemma inserted_unwrap_survives_witness :
  contains (unwrap_statement (py "id"))
    (re_sub (params_access_re (py "id")) (fun _ => py "id")
       (insert_unwrap (py "id") (Match 0 (py "f() {") [])
          (py "f() {" ++ newline :: py "  g(params.id, taskId) }")))
  = true.
Proof.
  apply (inserted_unwrap_survives (py "id") (Match 0 (py "f() {") [])
           (py "f() {" ++ newline :: py "  g(params.id, taskId) }") 5).
  - left. reflexivity.
  - reflexivity.
Defined.

(** X19: a page of the prop pattern in which the component is found
    and a newline follows its opening brace is migrated once and for
    all: the migrated text holds the unwrap statement, and a second
    migration returns at once. *)
Theorem params_prop_page_settles (T : text) (fm : match_obj) (i : nat) :
  classify T = ParamsPropPattern ->
  let name := detect_param_name T in
  let annotated :=
    re_sub (params_annotation_re name)
           (fun _ => py "params: Promise<{ " ++ name ++ py ": string }>")
           (add_use_import T) in
  re_search component_with_params_re annotated = Some fm ->
  find_from newline annotated (match_end fm) = Some i ->
  contains (unwrap_statement name) (migrate_text T) = true
  /\ migrate_content (migrate_text T) = None
  /\ migrate_text (migrate_text T) = migrate_text T.
Proof.
  intros C name annotated S F.
  assert (N : name = py "id" \/ name = py "trackingNumber").
  { unfold name, detect_param_name. destruct (_ || _); auto. }
  assert (E : migrate_text T
              = re_sub (params_access_re name) (fun _ => name)
                       (insert_unwrap name fm annotated)).
  { unfold classify in C. unfold migrate_text, migrate_content.
    destruct (already_migrated T); [discriminate|].
    destruct (uses_params_prop (add_use_import T)).
    - unfold migrate_params_prop. fold name. fold annotated.
      rewrite S. reflexivity.
    - destruct (contains _ _); discriminate. }
  pose proof (access_rewrite_keeps name _ N
                (unwrap_inserted name fm annotated i F)) as A.
  rewrite <- E in A.
  pose proof (unwrap_is_marker name _ A) as M.
  assert (Q : migrate_content (migrate_text T) = None)
    by (unfold migrate_content; rewrite M; reflexivity).
  repeat split; try assumption.
  unfold migrate_text at 1. rewrite Q. reflexivity.
Qed.

Lemma params_prop_page_settles_witness :
  contains (unwrap_statement (detect_param_name prop_page))
           (migrate_text prop_page) = true
  /\ migrate_content (migrate_text prop_page) = None
  /\ migrate_text (migrate_text prop_page) = migrate_text prop_page.
Proof.
  apply (params_prop_page_settles prop_page
           (Match 56
              (py "export default function Page({ params }: PageProps) {")
              [(1, (0, 53))])
           109);
    vm_compute; reflexivity.
Defined.

(** ** Step 1 of the migration, run twice *)

Lemma add_use_shape (T : text) (m : match_obj) :
  re_search react_import_re T = Some m ->
  exists pre w names w2 w3 q1 q2 post,
    T = pre ++ py "import" ++ w ++ py "{" ++ names
        ++ py "}" ++ w2 ++ py "from" ++ w3 ++ q1 :: py "react" ++ q2 :: post
    /\ forallb is_space w = true /\ forallb is_space w2 = true
    /\ forallb is_space w3 = true
    /\ forallb (not_ch "}"%char) names = true
    /\ quote_class q1 = true /\ quote_class q2 = true
    /\ re_sub_count react_import_re add_use T 1
       = pre ++ py "import" ++ w ++ py "{" ++ py " use, " ++ names
         ++ py "}" ++ w2 ++ py "from" ++ w3 ++ q1 :: py "react" ++ q2 :: post.
Proof.
  intros S.
  assert (I : re_sub_count react_import_re add_use T 1
              = firstn (m_start m) T ++ add_use m
                ++ skipn (m_start m + length (m_text m)) T)
    by (rewrite re_sub_count_once, S; reflexivity).
  unfold re_search in S.
  destruct (search_from_found _ _ _ _ _ S)
    as [pre [a [b [prev' [E [Es [Et Hm]]]]]]].
  destruct (react_import_groups _ _ _ _ Hm)
    as [a1 [a2 [a3 [Ea [M1 [M2 [M3 G]]]]]]].
  rewrite firstn_length_app in Ea, G.
  destruct (G (m_start m)) as [G1 [G2 G3]].
  destruct (import_head_shape _ M1) as [w [E1 Hw]].
  assert (Em : m = Match (m_start m) a (m_groups m))
    by (destruct m; simpl in *; congruence).
  assert (F1 : firstn (m_start m) T = pre)
    by (rewrite Es, E; apply firstn_length_app).
  assert (F2 : skipn (m_start m + length (m_text m)) T = b).
  { rewrite Es, Et, E. cbn [Nat.add].
    rewrite <- length_app, app_assoc. apply skipn_length_app. }
  assert (F3 : add_use m = a1 ++ py " use, " ++ a2 ++ a3).
  { unfold add_use. rewrite Em, G1, G2, G3. reflexivity. }
  rewrite F1, F2, F3 in I. apply matches_rep_inv in M2.
  destruct (from_react_shape _ M3)
    as [w2 [w3 [q1 [q2 [E3 [H2 [H3 [Q1 Q2]]]]]]]].
  exists pre, w, a2, w2, w3, q1, q2, b. repeat split; try assumption.
  - rewrite E, Ea, E1, E3. cbn [app]. rewrite <- !app_assoc.
    cbn [app]. rewrite <- !app_assoc. reflexivity.
  - rewrite I, E1, E3. cbn [app]. rewrite <- !app_assoc.
    cbn [app]. rewrite <- !app_assoc. reflexivity.
Qed.

Lemma rep_greedy_some (p : ascii -> bool) (k : cont) (a b : text) prev i gs :
  forallb p a = true ->
  k (prev_after prev a) b (i + length a) gs <> None ->
  rep_greedy p k prev (a ++ b) i gs <> None.
Proof.
  revert prev i; induction a as [|x a IH]; intros prev i F K.
  - simpl in *. rewrite Nat.add_0_r in K.
    destruct b as [|c b]; [exact K|]. cbn [rep_greedy].
    destruct (p c); [|exact K].
    destruct (rep_greedy p k (Some c) b (S i) gs); [discriminate | exact K].
  - simpl in F. rewrite andb_true_iff in F. destruct F as [Hx F].
    cbn [app rep_greedy]. rewrite Hx.
    assert (Q : rep_greedy p k (Some x) (a ++ b) (S i) gs <> None).
    { apply IH; [exact F|]. simpl in K.
      rewrite <- Nat.add_succ_comm in K. exact K. }
    destruct (rep_greedy p k (Some x) (a ++ b) (S i) gs);
      [discriminate | contradiction].
Qed.

Lemma run_lit_app (l : text) (k : cont) prev (r : text) i gs :
  run (lit_text l) k prev (l ++ r) i gs
  = k (prev_after prev l) r (i + length l) gs.
Proof. rewrite run_lit_text, strip_prefix_app. reflexivity. Qed.

Lemma search_from_some r (pre t : text) :
  forall prev pos,
    match_here r (prev_after prev pre) t <> None ->
    search_from r prev (pre ++ t) pos <> None.
Proof.
  induction pre as [|c pre IH]; intros prev pos H.
  - cbn [app]. simpl in H. destruct t; cbn [search_from];
      destruct (match_here _ _ _) as [[len gs]|]; try discriminate;
      contradiction.
  - cbn [app search_from].
    destruct (match_here r prev (c :: pre ++ t)) as [[len gs]|];
      [discriminate|].
    apply IH. exact H.
Qed.

Lemma prev_after_last (prev : option ascii) (a : text) (c : ascii) :
  prev_after prev (a ++ [c]) = Some c.
Proof. unfold prev_after. rewrite fold_left_app. reflexivity. Qed.

Lemma use_import_found prev (w names w2 w3 : text) (q1 q2 : ascii) (post : text) :
  forallb is_space w = true -> forallb is_space w2 = true ->
  forallb is_space w3 = true ->
  forallb (not_ch "}"%char) names = true ->
  quote_class q1 = true -> quote_class q2 = true ->
  match_here use_imported_re prev
    (py "import" ++ w ++ py "{" ++ py " use, " ++ names
     ++ py "}" ++ w2 ++ py "from" ++ w3 ++ q1 :: py "react" ++ q2 :: post)
  <> None.
Proof.
  intros Hw H2 H3 Hn Q1 Q2.
  unfold match_here, use_imported_re, from_react, lit.
  cbn [chain app run].
  rewrite run_lit_app.
  apply rep_greedy_some; [exact Hw|].
  rewrite run_lit_app.
  change (py " use, " ++ names ++ py "}" ++ w2 ++ py "from" ++ w3
          ++ q1 :: py "react" ++ q2 :: post)
    with (py " " ++ py "use" ++ (py ", " ++ names) ++ py "}" ++ w2 ++ py "from" ++ w3
          ++ q1 :: py "react" ++ q2 :: post).
  apply rep_greedy_some; [reflexivity|].
  match goal with |- context [xorb ?a ?b] => change (xorb a b) with true end.
  cbv beta iota.
  rewrite run_lit_app. cbv beta.
  match goal with |- context [xorb ?a ?b] => change (xorb a b) with true end.
  cbv beta iota.
  apply rep_greedy_some; [rewrite forallb_app, Hn; reflexivity|].
  rewrite run_lit_app. cbn [run ws].
  apply rep_greedy_some; [exact H2|].
  rewrite run_lit_app. cbn [run ws].
  apply rep_greedy_some; [exact H3|].
  cbv beta iota. rewrite Q1, run_lit_app. cbv beta iota. rewrite Q2.
  unfold accept. discriminate.
Qed.

Lemma contains_insert (p a0 ins b : text) (c : ascii) :
  forallb (not_ch c) p = true ->
  contains p ((a0 ++ [c]) ++ b) = true ->
  contains p ((a0 ++ [c]) ++ ins ++ b) = true.
Proof.
  intros F. rewrite !contains_spec. intros [x [y E]].
  apply app_eq_app in E. destruct E as [l [[Ea Eb] | [Ex Eb]]].
  - apply app_eq_app in Eb. destruct Eb as [l' [[Ep Ey] | [El Ey]]].
    + destruct l as [|z l].
      * cbn [app] in Ep. subst l' b. exists ((a0 ++ [c]) ++ ins), y.
        rewrite <- !app_assoc. reflexivity.
      * exfalso.
        destruct (exists_last (l := z :: l)) as [l0 [z' El]]; [discriminate|].
        rewrite El, app_assoc in Ea. apply app_inj_tail in Ea.
        destruct Ea as [_ <-].
        rewrite Ep, El, !forallb_app in F. cbn [forallb] in F.
        unfold not_ch in F. rewrite Ascii.eqb_refl in F.
        rewrite andb_false_r in F. discriminate.
    + subst l. exists x, (l' ++ ins ++ b). rewrite Ea, <- !app_assoc.
      reflexivity.
  - subst b. exists ((a0 ++ [c]) ++ ins ++ l), y. rewrite <- !app_assoc.
    reflexivity.
Qed.

(** X20: Step 1 never adds [use] twice: the text it returns is a text
    it leaves as it is. *)
Theorem add_use_import_idempotent (T : text) :
  add_use_import (add_use_import T) = add_use_import T.
Proof.
  destruct (contains (py "from " ++ dquote :: py "react" ++ [dquote]) T
            || contains (py "from 'react'") T) eqn:R.
  - destruct (found (re_search use_imported_re T)) eqn:U.
    + assert (E : add_use_import T = T)
        by (unfold add_use_import; rewrite R, U; reflexivity).
      rewrite !E. reflexivity.
    + assert (E : add_use_import T
                  = re_sub_count react_import_re add_use T 1)
        by (unfold add_use_import; rewrite R, U; reflexivity).
      destruct (re_search react_import_re T) as [m|] eqn:S.
      * destruct (add_use_shape T m S)
          as [pre [w [names [w2 [w3 [q1 [q2 [post
               [ET [Hw [H2 [H3 [Hn [Q1 [Q2 ER]]]]]]]]]]]]]]].
        rewrite E, ER. unfold add_use_import.
        assert (R' : contains (py "from " ++ dquote :: py "react" ++ [dquote])
                       (pre ++ py "import" ++ w ++ py "{" ++ py " use, "
                        ++ names ++ py "}" ++ w2 ++ py "from" ++ w3
                        ++ q1 :: py "react" ++ q2 :: post)
                     || contains (py "from 'react'")
                          (pre ++ py "import" ++ w ++ py "{" ++ py " use, "
                           ++ names ++ py "}" ++ w2 ++ py "from" ++ w3
                           ++ q1 :: py "react" ++ q2 :: post) = true).
        { rewrite ET in R. apply orb_true_iff in R. apply orb_true_iff.
          replace (pre ++ py "import" ++ w ++ py "{" ++ py " use, "
                   ++ names ++ py "}" ++ w2 ++ py "from" ++ w3
                   ++ q1 :: py "react" ++ q2 :: post)
            with (((pre ++ py "import" ++ w) ++ ["{"%char]) ++ py " use, "
                  ++ names ++ py "}" ++ w2 ++ py "from" ++ w3
                  ++ q1 :: py "react" ++ q2 :: post)
            by (rewrite <- !app_assoc; reflexivity).
          replace (pre ++ py "import" ++ w ++ py "{"
                   ++ names ++ py "}" ++ w2 ++ py "from" ++ w3
                   ++ q1 :: py "react" ++ q2 :: post)
            with (((pre ++ py "import" ++ w) ++ ["{"%char])
                  ++ names ++ py "}" ++ w2 ++ py "from" ++ w3
                  ++ q1 :: py "react" ++ q2 :: post) in R
            by (rewrite <- !app_assoc; reflexivity).
          destruct R as [R | R]; [left | right];
            (apply contains_insert; [reflexivity | exact R]). }
        rewrite R'.
        assert (U' : found (re_search use_imported_re
                       (pre ++ py "import" ++ w ++ py "{" ++ py " use, "
                        ++ names ++ py "}" ++ w2 ++ py "from" ++ w3
                        ++ q1 :: py "react" ++ q2 :: post)) = true).
        { unfold re_search.
          pose proof (search_from_some use_imported_re pre _ None 0
                        (use_import_found (prev_after None pre) w names w2 w3
                           q1 q2 post Hw H2 H3 Hn Q1 Q2)) as Q.
          destruct (search_from _ _ _ _); [reflexivity | contradiction]. }
        rewrite U'. reflexivity.
      * assert (E' : add_use_import T = T)
          by (rewrite E, re_sub_count_once, S; reflexivity).
        rewrite !E'. reflexivity.
  - assert (E : add_use_import T = T)
      by (unfold add_use_import; rewrite R; reflexivity).
    rewrite !E. reflexivity.
Qed.
